(** * Dungeon generator: a shallow embedding of src/dungeon.ts

    The generator partitions a rectangular map into a binary tree of
    containers, derives a room per leaf, scatters monsters and rasterises the
    result into a tile grid and a prop grid.

    Conventions of the embedding.
    - Lengths and coordinates (map size, gutters, rectangle fields, tile ids)
      are whole numbers: [Z].  On whole numbers [Math.floor] and [Math.ceil]
      are the identity and [Math.floor (w / 4)] is [w / 4] in [Z] (both
      round down).
    - Ratios, probabilities and sampled points are rationals: [Q].
    - The global random source [Math.random] is an explicit state: the
      sequence of values it is going to return and a cursor into it.
    - Arrays that the code mutates in place are lists that the embedding
      passes along; a function returns the new content of the array it
      writes to.
    - Recursion that the code does not bound (the retry of [splitContainer],
      [generateTree] on an iteration count that never reaches zero) takes a
      fuel argument and answers [None] when it is exhausted. *)

From Stdlib Require Import ZArith QArith Qround Lia.
From stdpp Require Import base option list.

Close Scope Q_scope.
Local Open Scope Z_scope.

(** ** Numbers *)

Definition Qltb (a b : Q) : bool := negb (Qle_bool b a).

(** The result of a JavaScript division of two whole numbers. *)
Inductive JSNum :=
| Finite (q : Q)
| PosInfinity
| NegInfinity
| NaN.

Definition js_div (a b : Z) : JSNum :=
  if b =? 0 then
    if a =? 0 then NaN else if 0 <? a then PosInfinity else NegInfinity
  else Finite (inject_Z a / inject_Z b)%Q.

(** [n < r] for a finite [r]; every comparison with [NaN] is false. *)
Definition js_lt (n : JSNum) (r : Q) : bool :=
  match n with
  | Finite q => Qltb q r
  | NegInfinity => true
  | PosInfinity | NaN => false
  end.

(** ** The random source *)

Record RNG := mkRNG { draws : nat -> Q; cursor : nat }.

Definition Math_random (g : RNG) : Q * RNG :=
  (draws g (cursor g), mkRNG (draws g) (S (cursor g))).

(** [Math.random] answers in [0, 1). *)
Definition unit_draws (g : RNG) : Prop :=
  forall n : nat, (0 <= draws g n)%Q /\ (draws g n < 1)%Q.

(** [Math.random] answers strictly between 0 and 1. *)
Definition open_draws (g : RNG) : Prop :=
  forall n : nat, (0 < draws g n)%Q /\ (draws g n < 1)%Q.

(** Modelled from the spec: [random] of ./utils is not under src/.  §4.1
    reads [random(1, container.width)] as "a uniformly random width in
    [1, container.width)": one draw, scaled to the half-open range. *)
Definition random (min max : Z) (g : RNG) : Z * RNG :=
  let (u, g') := Math_random g in
  (min + Qfloor (u * inject_Z (max - min))%Q, g').

(** Modelled from the spec: [randomWeights] of ./utils is not under src/.
    §4.2 and §4.4 call it a weighted coin and a weighted random choice: one
    draw [u]; the first result whose running sum of weights exceeds [u] is
    chosen, the last result when none does.  Without results the answer is
    [None] (undefined). *)
Fixpoint pickWeighted {A : Type} (u : Q) (weights : list Q) (results : list A)
  : option A :=
  match results with
  | [] => None
  | r :: rs =>
      match rs with
      | [] => Some r
      | _ :: _ =>
          match weights with
          | [] => pickWeighted u [] rs
          | w :: ws => if Qltb u w then Some r else pickWeighted (u - w)%Q ws rs
          end
      end
  end.

Definition randomWeights {A : Type} (weights : list Q) (results : list A)
  (g : RNG) : option A * RNG :=
  let (u, g') := Math_random g in (pickWeighted u weights results, g').

(** ** Data model *)

(** Modelled from the spec: ./types is not under src/.  §3: a rectangle holds
    a position and a size and derives its center and its edges; [right] and
    [down] are the far edges, as [carveRooms] uses them. *)
Record Rectangle := mkRectangle {
  rx : Z;
  ry : Z;
  rwidth : Z;
  rheight : Z
}.

Definition rright (r : Rectangle) : Z := rx r + rwidth r.
Definition rdown (r : Rectangle) : Z := ry r + rheight r.

(** Modelled from the spec: the patterns of ./patterns are not under src/.
    §3: a hole or trap pattern is a fixed stamp, a width, a height and a
    grid of ids. *)
Record Pattern := mkPattern {
  pwidth : Z;
  pheight : Z;
  tiles : list (list Z)
}.

(** Modelled from the spec: [Room], [Corridor] and [Container] of ./types
    are not under src/.  §3: each is a rectangle; a room may refer to a hole
    pattern, a corridor to a trap pattern, a container to a room and to a
    corridor. *)
Record Room := mkRoom {
  room_rect : Rectangle;
  holes : option Pattern
}.

Record Corridor := mkCorridor {
  corridor_rect : Rectangle;
  traps : option Pattern
}.

Record Container := mkContainer {
  rect : Rectangle;
  room : option Room;
  corridor : option Corridor
}.

(** [new Container(x, y, width, height)] *)
Definition newContainer (x y w h : Z) : Container :=
  mkContainer (mkRectangle x y w h) None None.

(** Modelled from the spec: [TreeNode] of ./types is not under src/.  The
    code reads the data of a node as [leaf] and its two children, which may
    be missing, as [left] and [right]. *)
#[warnings="-register-all"]
Inductive TreeNode := mkTreeNode {
  leaf : Container;
  left : option TreeNode;
  right : option TreeNode
}.

(** Modelled from the spec: the [leaves] accessor of ./types is not under
    src/.  Glossary: a leaf is a container with no children; a node that
    lacks a child is a bottom node, as in [generateCorridors]. *)
Fixpoint leaves (node : TreeNode) : list Container :=
  match node with
  | mkTreeNode _ (Some l) (Some r) => leaves l ++ leaves r
  | mkTreeNode c _ _ => [c]
  end.

(** The two directions and the four monster types, as the code spells them
    out (lines 129 and 325). *)
Inductive Direction := vertical | horizontal.

Inductive MonsterType := bandit | skeleton | troll | mushroom.

(** Modelled from the spec: [Monster] of ./types is not under src/.  §3: a
    position, a radius and a type; the type is what [randomWeights]
    answered. *)
Record Monster := mkMonster {
  mx : Q;
  my : Q;
  radius : Z;
  mtype : option MonsterType
}.

Record DungeonArgs := mkDungeonArgs {
  mapWidth : Z;
  mapHeight : Z;
  mapGutterWidth : Z;
  iterations : Z;
  containerGutterWidth : Z;
  containerWidthRatio : Q;
  containerHeightRatio : Q;
  roomGutterWidth : Z;
  roomMaxMonsters : Z;
  roomMinSize : Z;
  roomHoleChance : Q;
  corridorWidth : Z;
  corridorTrapChance : Q
}.

(** ** Tree *)

(** dungeon.ts, [splitContainer] (lines 119-183).  One unit of fuel per try. *)
Fixpoint splitContainer (fuel : nat) (container : Container) (args : DungeonArgs)
  (g : RNG) : option (Container * Container * RNG) :=
  match fuel with
  | O => None
  | S fuel' =>
      let (direction, g1) :=
        randomWeights [(1 # 2)%Q; (1 # 2)%Q] [vertical; horizontal] g in
      let c := rect container in
      match direction with
      | Some vertical =>
          let (w, g2) := random 1 (rwidth c) g1 in
          let l := newContainer (rx c) (ry c) w (rheight c) in
          let r := newContainer (rx c + rwidth (rect l)) (ry c)
                     (rwidth c - rwidth (rect l)) (rheight c) in
          let leftWidthRatio := js_div (rwidth (rect l)) (rheight (rect l)) in
          let rightWidthRatio := js_div (rwidth (rect r)) (rheight (rect r)) in
          if js_lt leftWidthRatio (containerWidthRatio args)
             || js_lt rightWidthRatio (containerWidthRatio args)
          then splitContainer fuel' container args g2
          else Some (l, r, g2)
      | _ =>
          let (h, g2) := random 1 (rheight c) g1 in
          let l := newContainer (rx c) (ry c) (rwidth c) h in
          let r := newContainer (rx c) (ry c + rheight (rect l))
                     (rwidth c) (rheight c - rheight (rect l)) in
          let leftHeightRatio := js_div (rheight (rect l)) (rwidth (rect l)) in
          let rightHeightRatio := js_div (rheight (rect r)) (rwidth (rect r)) in
          if js_lt leftHeightRatio (containerHeightRatio args)
             || js_lt rightHeightRatio (containerHeightRatio args)
          then splitContainer fuel' container args g2
          else Some (l, r, g2)
      end
  end.

(** dungeon.ts, [generateTree] (lines 103-117).  One unit of fuel per level;
    the split of a level may retry as often as the fuel left at that level. *)
Fixpoint generateTree (fuel : nat) (container : Container) (iters : Z)
  (args : DungeonArgs) (g : RNG) : option (TreeNode * RNG) :=
  match fuel with
  | O => None
  | S fuel' =>
      if iters =? 0 then Some (mkTreeNode container None None, g)
      else
        match splitContainer fuel' container args g with
        | None => None
        | Some (l, r, g1) =>
            match generateTree fuel' l (iters - 1) args g1 with
            | None => None
            | Some (tl, g2) =>
                match generateTree fuel' r (iters - 1) args g2 with
                | None => None
                | Some (tr, g3) =>
                    Some (mkTreeNode container (Some tl) (Some tr), g3)
                end
            end
        end
  end.

(** The root container that the constructor builds (lines 67-72). *)
Definition rootContainer (args : DungeonArgs) : Container :=
  newContainer (mapGutterWidth args) (mapGutterWidth args)
    (mapWidth args - mapGutterWidth args * 2)
    (mapHeight args - mapGutterWidth args * 2).

(** The length of every root-to-leaf path of a tree, leftmost path first. *)
Fixpoint pathLengths (node : TreeNode) : list Z :=
  match node with
  | mkTreeNode _ (Some l) (Some r) =>
      map Z.succ (pathLengths l ++ pathLengths r)
  | mkTreeNode _ _ _ => [0]
  end.

(** The cells of a rectangle, with the test of [carveRooms] and
    [carveCorridors]: the near edges belong to it, the far edges do not. *)
Definition inside (r : Rectangle) (px py : Z) : Prop :=
  (rx r <= px /\ px < rright r) /\ (ry r <= py /\ py < rdown r).

(** [inner] lies within [outer]. *)
Definition contained (inner outer : Rectangle) : Prop :=
  rx outer <= rx inner /\ rright inner <= rright outer /\
  ry outer <= ry inner /\ rdown inner <= rdown outer.

(** The two children of a vertical split: side by side. *)
Definition vertical_partition (c l r : Rectangle) : Prop :=
  rx l = rx c /\ ry l = ry c /\ rheight l = rheight c /\
  ry r = ry c /\ rheight r = rheight c /\
  rwidth l + rwidth r = rwidth c /\ rx r = rright l.

(** The two children of a horizontal split: one above the other. *)
Definition horizontal_partition (c l r : Rectangle) : Prop :=
  rx l = rx c /\ ry l = ry c /\ rwidth l = rwidth c /\
  rx r = rx c /\ rwidth r = rwidth c /\
  rheight l + rheight r = rheight c /\ ry r = rdown l.

(** [long / short < minimum], the rejection test of [splitContainer]. *)
Definition ratio_below (long short : Z) (minimum : Q) : Prop :=
  js_lt (js_div long short) minimum = true.

(** ** Rooms *)

(** Modelled from the spec: [center] of ./types is not under src/ (§3: a
    rectangle derives its center). *)
Definition center (r : Rectangle) : Q * Q :=
  ((inject_Z (rx r) + inject_Z (rwidth r) / 2)%Q,
   (inject_Z (ry r) + inject_Z (rheight r) / 2)%Q).

(** The room rectangle that [generateRooms] computes for a leaf container
    (lines 190-210): four calls of [random], in this order. *)
Definition roomRectangle (args : DungeonArgs) (container : Container) (g : RNG)
  : Rectangle * RNG :=
  let c := rect container in
  let (jx, g1) := random 0 (rwidth c / 4) g in
  let x := rx c + containerGutterWidth args + jx in
  let (jy, g2) := random 0 (rheight c / 4) g1 in
  let y := ry c + containerGutterWidth args + jy in
  let (jw, g3) := random 0 (rwidth c / 4) g2 in
  let width := rwidth c - (x - rx c) - containerGutterWidth args - jw in
  let (jh, g4) := random 0 (rheight c / 4) g3 in
  let height := rheight c - (y - ry c) - containerGutterWidth args - jh in
  (mkRectangle x y width height, g4).

(** The test of line 213: the room is dismissed. *)
Definition belowMinSize (args : DungeonArgs) (r : Rectangle) : bool :=
  (rwidth r <? roomMinSize args) || (rheight r <? roomMinSize args).

(** The callback of [Holes.all.forEach] (lines 225-233). *)
Definition attachHole (room : Room) (hole : Pattern) : Room :=
  if negb (bool_decide (is_Some (holes room)))
     && (rwidth (room_rect room) >=? pwidth hole * 2)
     && (rheight (room_rect room) >=? pheight hole * 2)
  then mkRoom (room_rect room) (Some hole)
  else room.

(** The weighted coin of lines 220-223. *)
Definition holeCoin (args : DungeonArgs) (g : RNG) : option bool * RNG :=
  randomWeights [roomHoleChance args; (1 - roomHoleChance args)%Q]
    [true; false] g.

(** What the spec asks of a hole pattern: each side at most half the room's. *)
Definition holeFits (r : Rectangle) (hole : Pattern) : bool :=
  (pwidth hole * 2 <=? rwidth r) && (pheight hole * 2 <=? rheight r).

Section Externals.

(** The pattern libraries of ./patterns, the [direction] accessor of a
    corridor (./types), the scatter-sampling capability (package
    poisson-disk-sampling) and [shuffleArray] (./utils) are not under src/:
    parameters of the embedding.  The sampling capability and the shuffle
    may draw from the random source. *)
Variable Holes_all : list Pattern.
Variables Traps_smallLarge Traps_smallLong : Pattern.
Variable direction : Corridor -> Direction.
Variable PoissonDiscSampling_fill : Z -> Z -> RNG -> list (Q * Q) * RNG.
Variable shuffleArray : list (Q * Q) -> RNG -> list (Q * Q) * RNG.

(** The callback of [node.leaves.forEach] in [generateRooms]
    (lines 189-237). *)
Definition generateRoom (args : DungeonArgs) (container : Container) (g : RNG)
  : Container * RNG :=
  let (r, g4) := roomRectangle args container g in
  if belowMinSize args r then (container, g4)
  else
    let room := mkRoom r None in
    let (hasHole, g5) := holeCoin args g4 in
    let room :=
      match hasHole with
      | Some true => fold_left attachHole Holes_all room
      | _ => room
      end in
    (mkContainer (rect container) (Some room) (corridor container), g5).

(** dungeon.ts, [generateRooms] (lines 185-240): the callback on every leaf,
    leftmost first. *)
Fixpoint generateRooms (node : TreeNode) (args : DungeonArgs) (g : RNG)
  : TreeNode * RNG :=
  match node with
  | mkTreeNode c (Some l) (Some r) =>
      let (l', g1) := generateRooms l args g in
      let (r', g2) := generateRooms r args g1 in
      (mkTreeNode c (Some l') (Some r'), g2)
  | mkTreeNode c l r =>
      let (c', g1) := generateRoom args c g in
      (mkTreeNode c' l r, g1)
  end.

(** ** Corridors *)

(** dungeon.ts, [generateCorridors] (lines 242-293). *)
Fixpoint generateCorridors (node : TreeNode) (args : DungeonArgs) (g : RNG)
  : TreeNode * RNG :=
  match node with
  | mkTreeNode c (Some l) (Some r) =>
      let leftCenter := center (rect (leaf l)) in
      let rightCenter := center (rect (leaf r)) in
      let x := Qceiling (fst leftCenter) in
      let y := Qceiling (snd leftCenter) in
      let corridor :=
        if Qeq_bool (fst leftCenter) (fst rightCenter)
        then mkCorridor
               (mkRectangle x y (corridorWidth args)
                  (Qceiling (snd rightCenter) - y)) None
        else mkCorridor
               (mkRectangle x y (Qceiling (fst rightCenter) - x)
                  (corridorWidth args)) None in
      let (hasTrap, g1) :=
        randomWeights
          [corridorTrapChance args; (1 - corridorTrapChance args)%Q]
          [true; false] g in
      let corridor :=
        match hasTrap with
        | Some true =>
            mkCorridor (corridor_rect corridor)
              (Some (match direction corridor with
                     | horizontal => Traps_smallLarge
                     | vertical => Traps_smallLong
                     end))
        | _ => corridor
        end in
      let c' := mkContainer (rect c) (room c) (Some corridor) in
      let (l', g2) := generateCorridors l args g1 in
      let (r', g3) := generateCorridors r args g2 in
      (mkTreeNode c' (Some l') (Some r'), g3)
  | _ => (node, g)
  end.

(** ** Monsters *)

(** [array.slice(0, end)] for a whole number [end]: a negative [end]
    counts from the end of the array. *)
Definition slice0 {A : Type} (end_ : Z) (l : list A) : list A :=
  if end_ <? 0 then take (length l - Z.to_nat (- end_)) l
  else take (Z.to_nat end_) l.

(** The callback of [slicedPoints.forEach] (lines 320-330). *)
Definition placeMonster (room : Room) (args : DungeonArgs)
  (acc : list Monster * RNG) (point : Q * Q) : list Monster * RNG :=
  let (monsters, g) := acc in
  let x := (inject_Z (rx (room_rect room) + roomGutterWidth args)
            + fst point)%Q in
  let y := (inject_Z (ry (room_rect room) + roomGutterWidth args)
            + snd point)%Q in
  let (type, g1) :=
    randomWeights [(1 # 2)%Q; (3 # 10)%Q; (15 # 100)%Q; (5 # 100)%Q]
      [bandit; skeleton; troll; mushroom] g in
  (monsters ++ [mkMonster x y 3 type], g1).

(** The points kept for a room (lines 307-318). *)
Definition samplePoints (room : Room) (args : DungeonArgs) (g : RNG)
  : list (Q * Q) * RNG :=
  let (points, g1) :=
    PoissonDiscSampling_fill
      (rwidth (room_rect room) - roomGutterWidth args * 2)
      (rheight (room_rect room) - roomGutterWidth args * 2) g in
  let (shuffledPoints, g2) := shuffleArray points g1 in
  (slice0 (roomMaxMonsters args) shuffledPoints, g2).

(** The callback of [node.leaves.forEach] in [generateMonsters]
    (lines 301-331). *)
Definition monstersOfLeaf (args : DungeonArgs) (acc : list Monster * RNG)
  (container : Container) : list Monster * RNG :=
  match room container with
  | None => acc
  | Some room =>
      let (slicedPoints, g2) := samplePoints room args (snd acc) in
      fold_left (placeMonster room args) slicedPoints (fst acc, g2)
  end.

(** dungeon.ts, [generateMonsters] (lines 295-334). *)
Definition generateMonsters (node : TreeNode) (args : DungeonArgs) (g : RNG)
  : list Monster * RNG :=
  fold_left (monstersOfLeaf args) (leaves node) ([], g).

End Externals.

(** ** Tilemap *)

(** A grid of tile or prop ids: [tilemap[y][x]]. *)
Abbreviation TileMap := (list (list Z)).

(** [tilemap[y][x]]; [None] is JavaScript's undefined (no such cell). *)
Definition tileAt (tilemap : TileMap) (x y : nat) : option Z :=
  match tilemap !! y with
  | Some row => row !! x
  | None => None
  end.

(** [tilemap[y][x] = v], for a cell of the grid. *)
Definition setTile (tilemap : TileMap) (x y : nat) (v : Z) : TileMap :=
  match tilemap !! y with
  | Some row => <[y := <[x := v]> row]> tilemap
  | None => tilemap
  end.

(** [tilemap[y].length] *)
Definition rowLength (tilemap : TileMap) (y : nat) : nat :=
  match tilemap !! y with
  | Some row => length row
  | None => O
  end.

(** [v > 0] and [v <= 0]; both are false on undefined. *)
Definition js_gt0 (v : option Z) : bool :=
  match v with Some n => 0 <? n | None => false end.

Definition js_le0 (v : option Z) : bool :=
  match v with Some n => n <=? 0 | None => false end.

(** The two nested loops that every pass shares:
    [for y < tilemap.length; for x < tilemap[y].length], the body working on
    the grid as the earlier iterations left it. *)
Definition forEachCell (body : TileMap -> nat -> nat -> TileMap)
  (tilemap : TileMap) : TileMap :=
  fold_left
    (fun t y => fold_left (fun t' x => body t' x y) (seq 0 (rowLength t y)) t)
    (seq 0 (length tilemap)) tilemap.

(** Modelled from the spec: [createTilemap] of ./utils is not under src/.
    §4.5 and §8: a grid of [height] rows of [width] columns, every cell
    holding [fill]. *)
Definition createTilemap (width height fill : Z) : TileMap :=
  replicate (Z.to_nat height) (replicate (Z.to_nat width) fill).

(** The loop body of [carveRooms] and [carveCorridors]: the cells of the
    rectangle become floor. *)
Definition carveCell (r : Rectangle) (tilemap : TileMap) (x y : nat)
  : TileMap :=
  let inHeightRange := (Z.of_nat y >=? ry r) && (Z.of_nat y <? rdown r) in
  let inWidthRange := (Z.of_nat x >=? rx r) && (Z.of_nat x <? rright r) in
  if inHeightRange && inWidthRange then setTile tilemap x y 0 else tilemap.

(** dungeon.ts, [carveRooms] (lines 357-375). *)
Definition carveRooms (node : TreeNode) (tilemap : TileMap) : TileMap :=
  fold_left
    (fun t container =>
       match room container with
       | None => t
       | Some room => forEachCell (carveCell (room_rect room)) t
       end)
    (leaves node) tilemap.

(** dungeon.ts, [carveCorridors] (lines 377-399).  The function writes to the
    grid of its second parameter, [props], and never touches the third,
    [tilemap]; the result is the new content of [props].  Reading [leaf] of
    a missing child is a TypeError: [None]. *)
Fixpoint carveCorridors (node : TreeNode) (props tilemap : TileMap)
  : option TileMap :=
  match node with
  | mkTreeNode c l r =>
      match corridor c with
      | None => Some props
      | Some corridor =>
          let props := forEachCell (carveCell (corridor_rect corridor)) props in
          match l with
          | None => None
          | Some l =>
              match carveCorridors l props tilemap with
              | None => None
              | Some props =>
                  match r with
                  | None => None
                  | Some r => carveCorridors r props tilemap
                  end
              end
          end
      end
  end.

(** The corridor-carving stage of [generateTilemap], line 347:
    [this.carveCorridors(tree, tilemap, props)].  The tile grid is the second
    argument and the prop grid the third, so the callee writes to the tile
    grid.  The result is the pair of the tile grid and the prop grid after
    the stage. *)
Definition carveCorridorsStage (tree : TreeNode) (tilemap props : TileMap)
  : option (TileMap * TileMap) :=
  match carveCorridors tree tilemap props with
  | Some tilemap' => Some (tilemap', props)
  | None => None
  end.

(** dungeon.ts, [generateTilemap], lines 343-347: the two grids and the first
    two stages; the result is the pair of the tile grid and the prop grid
    after them. *)
Definition generateTilemap_carved (tree : TreeNode) (args : DungeonArgs)
  : option (TileMap * TileMap) :=
  let tilemap := createTilemap (mapWidth args) (mapHeight args) 1 in
  let props := createTilemap (mapWidth args) (mapHeight args) 0 in
  let tilemap := carveRooms tree tilemap in
  carveCorridorsStage tree tilemap props.

(** Modelled from the spec: the enumeration [TileDirection] and the
    constants [DirectionNWS] and [DirectionNES] of ./types are not under
    src/; their values are parameters. *)
Record TileDirection := mkTileDirection {
  West : Z;
  East : Z;
  North : Z;
  South : Z;
  NorthEast : Z;
  NorthWest : Z;
  DirectionNWS : Z;
  DirectionNES : Z
}.

Inductive Side := north | west | east | south.

(** dungeon.ts, [isColliding] (lines 535-572). *)
Definition isColliding (x y : nat) (side : Side) (tilemap : TileMap) : bool :=
  match side with
  | north =>
      match y with
      | O => true
      | S y' => js_gt0 (tileAt tilemap x y')
      end
  | east =>
      (Z.of_nat x =? Z.of_nat (rowLength tilemap y) - 1)
      || js_gt0 (tileAt tilemap (x + 1) y)
  | west =>
      match x with
      | O => true
      | S x' => js_gt0 (tileAt tilemap x' y)
      end
  | south =>
      (Z.of_nat y =? Z.of_nat (length tilemap) - 1)
      || js_gt0 (tileAt tilemap x (y + 1))
  end.

(** dungeon.ts, [getTileMask] (lines 510-533). *)
Definition getTileMask (td : TileDirection) (x y : nat) (tilemap : TileMap)
  : Z :=
  let mask := 0 in
  let mask := if isColliding x y west tilemap
              then Z.lor mask (West td) else mask in
  let mask := if isColliding x y east tilemap
              then Z.lor mask (East td) else mask in
  let mask := if isColliding x y north tilemap
              then Z.lor mask (North td) else mask in
  let mask := if isColliding x y south tilemap
              then Z.lor mask (South td) else mask in
  mask.

(** dungeon.ts, [generateTileMask] (lines 500-508). *)
Definition generateTileMask (td : TileDirection) (tilemap : TileMap)
  : TileMap :=
  forEachCell
    (fun t x y =>
       if js_gt0 (tileAt t x y) then setTile t x y (getTileMask td x y t)
       else t)
    tilemap.

(** [tilemap[y][x]] for an index that may be -1: no such cell. *)
Definition tileAtZ (tilemap : TileMap) (x y : Z) : option Z :=
  if (x <? 0) || (y <? 0) then None
  else tileAt tilemap (Z.to_nat x) (Z.to_nat y).

(** The guard of line 581. *)
Definition normalizeGuard (t : TileMap) (x y : nat) : bool :=
  (0 <? Z.of_nat y) && (Z.of_nat y <? Z.of_nat (length t) - 1)
  && (Z.of_nat x <? Z.of_nat (rowLength t y) - 1).

(** [tilemap[y][x] = tilemap[y][x] | flag] *)
Definition orTile (t : TileMap) (x y : nat) (flag : Z) : TileMap :=
  match tileAt t x y with
  | Some v => setTile t x y (Z.lor v flag)
  | None => t
  end.

(** The loop body of [normalizeTileMask] (lines 581-611). *)
Definition normalizeCell (td : TileDirection) (t : TileMap) (x y : nat)
  : TileMap :=
  if normalizeGuard t x y then
    let X := Z.of_nat x in
    let Y := Z.of_nat y in
    let leftTile := tileAtZ t (X - 1) Y in
    let rightTile := tileAtZ t (X + 1) Y in
    let topTile := tileAtZ t X (Y - 1) in
    let bottomTile := tileAtZ t X (Y + 1) in
    if js_gt0 rightTile && js_gt0 bottomTile
       && js_le0 (tileAtZ t (X + 1) (Y + 1))
    then setTile t x y (DirectionNWS td)
    else if js_gt0 leftTile && js_gt0 bottomTile
            && js_le0 (tileAtZ t (X - 1) (Y + 1))
    then setTile t x y (DirectionNES td)
    else if js_gt0 topTile && js_gt0 rightTile
            && js_le0 (tileAtZ t (X + 1) (Y - 1))
    then orTile t x y (NorthEast td)
    else if js_gt0 topTile && js_gt0 leftTile
            && js_le0 (tileAtZ t (X - 1) (Y - 1))
    then orTile t x y (NorthWest td)
    else t
  else t.

(** dungeon.ts, [normalizeTileMask] (lines 578-614). *)
Definition normalizeTileMask (td : TileDirection) (tilemap : TileMap)
  : TileMap :=
  forEachCell (normalizeCell td) tilemap.

(** ** Statements about a pass over the grid *)

(** A loop body that writes at most the cell it visits. *)
Definition writesOwnCell (body : TileMap -> nat -> nat -> TileMap) : Prop :=
  forall t x y, body t x y = t \/ exists v, body t x y = setTile t x y v.

(** [(x', y')] is visited before [(x, y)]: an earlier row, or the same row
    and an earlier column. *)
Definition visitedBefore (x' y' x y : nat) : Prop :=
  (y' < y)%nat \/ (y' = y /\ (x' < x)%nat).

(** The grid [t] when the loops of [forEachCell] reach [(x, y)]: the shape of
    the grid at the start, cells visited before holding [final], the others
    still holding what they did at the start. *)
Definition reachedAt (orig : TileMap) (final : nat -> nat -> option Z)
  (x y : nat) (t : TileMap) : Prop :=
  length t = length orig /\
  (forall y', rowLength t y' = rowLength orig y') /\
  (forall x' y', (x' < rowLength orig y')%nat ->
     tileAt t x' y' =
     if decide (visitedBefore x' y' x y) then final x' y'
     else tileAt orig x' y').

(** ** Statements about the bit mask *)

(** Every row of the grid has [w] cells. *)
Definition rectangular (t : TileMap) (w : nat) : Prop :=
  Forall (fun row => length row = w) t.

(** The position holds a solid tile; a position beyond the grid boundary
    counts as solid. *)
Definition solidAt (t : TileMap) (x y : Z) : bool :=
  if (x <? 0) || (y <? 0) || (Z.of_nat (length t) <=? y)
     || (Z.of_nat (rowLength t (Z.to_nat y)) <=? x)
  then true
  else js_gt0 (tileAt t (Z.to_nat x) (Z.to_nat y)).

Definition flagIf (b : bool) (flag : Z) : Z := if b then flag else 0.

(** The mask of the four cardinal neighbours of [(x, y)] that are solid. *)
Definition cardinalMask (td : TileDirection) (t : TileMap) (x y : nat) : Z :=
  let X := Z.of_nat x in
  let Y := Z.of_nat y in
  Z.lor (Z.lor (Z.lor (flagIf (solidAt t (X - 1) Y) (West td))
                      (flagIf (solidAt t (X + 1) Y) (East td)))
               (flagIf (solidAt t X (Y - 1)) (North td)))
        (flagIf (solidAt t X (Y + 1)) (South td)).

(** The four cardinal flags are positive numbers. *)
Definition cardinalFlagsPositive (td : TileDirection) : Prop :=
  0 < West td /\ 0 < East td /\ 0 < North td /\ 0 < South td.

(** What [generateTileMask] leaves in a cell: the mask that the code computes
    on the grid it was given when the cell held a solid tile, and what the
    cell held otherwise. *)
Definition maskedCell (td : TileDirection) (orig : TileMap) (x y : nat)
  : option Z :=
  match tileAt orig x y with
  | Some v => if 0 <? v then Some (getTileMask td x y orig) else Some v
  | None => None
  end.

(** ** Statements about the tree and the carving *)

(** The containers of all the nodes of a tree, the root first. *)
Fixpoint allContainers (node : TreeNode) : list Container :=
  match node with
  | mkTreeNode c l r =>
      c :: match l with Some l => allContainers l | None => [] end
        ++ match r with Some r => allContainers r | None => [] end
  end.

(** The corridors of all the nodes of a tree. *)
Definition nodeCorridors (node : TreeNode) : list Corridor :=
  omap corridor (allContainers node).

(** The corridors that the traversal of [carveCorridors] reaches: it stops
    at a node without a corridor. *)
Fixpoint reachedCorridors (node : TreeNode) : list Corridor :=
  match node with
  | mkTreeNode c l r =>
      match corridor c with
      | None => []
      | Some cor =>
          cor :: match l with Some l => reachedCorridors l | None => [] end
            ++ match r with Some r => reachedCorridors r | None => [] end
      end
  end.

(** The test of the carving loops, [inHeightRange && inWidthRange]. *)
Definition inRectb (r : Rectangle) (x y : nat) : bool :=
  ((Z.of_nat y >=? ry r) && (Z.of_nat y <? rdown r))
  && ((Z.of_nat x >=? rx r) && (Z.of_nat x <? rright r)).

(** ** Statements about the rooms *)

(** What [generateRooms] does to a leaf container [c], giving [c'], when it
    visits it with the random source in state [gi]: a room below the minimum
    size leaves the container as it was; otherwise the container gets the
    computed room, which lies within the container and has at least the
    minimum size on both sides. *)
Definition roomOutcome (args : DungeonArgs) (c c' : Container) (gi : RNG)
  : Prop :=
  let r := fst (roomRectangle args c gi) in
  if belowMinSize args r then c' = c
  else
    rect c' = rect c /\ corridor c' = corridor c /\
    (exists rm, room c' = Some rm /\ room_rect rm = r) /\
    contained r (rect c) /\
    roomMinSize args <= rwidth r /\ roomMinSize args <= rheight r.

(** The hole of the room that a leaf container gets: when the coin is true,
    the first pattern of the library that fits; none otherwise. *)
Definition holeOutcome (Holes_all : list Pattern) (args : DungeonArgs)
  (c c' : Container) (gi : RNG) : Prop :=
  let r := fst (roomRectangle args c gi) in
  let g4 := snd (roomRectangle args c gi) in
  belowMinSize args r = false ->
  exists rm,
    room c' = Some rm /\
    holes rm = match fst (holeCoin args g4) with
               | Some true => List.find (holeFits r) Holes_all
               | _ => None
               end.

(** A leaf container as [generateTree] makes it: no room yet. *)
Definition roomless (c : Container) : Prop := room c = None.

(** A container whose sides are not negative. *)
Definition nonnegSides (c : Container) : Prop :=
  0 <= rwidth (rect c) /\ 0 <= rheight (rect c).

(** ** Statements about the monsters *)

(** The monster stands at the room's origin plus the gutter plus the
    point. *)
Definition placedAt (rm : Room) (gutter : Z) (point : Q * Q) (m : Monster)
  : Prop :=
  mx m = (inject_Z (rx (room_rect rm) + gutter) + fst point)%Q /\
  my m = (inject_Z (ry (room_rect rm) + gutter) + snd point)%Q.

(** The monster stands in the interior of the room, one gutter away from
    each of its edges. *)
Definition inInterior (rm : Room) (gutter : Z) (m : Monster) : Prop :=
  (inject_Z (rx (room_rect rm) + gutter) <= mx m)%Q /\
  (mx m < inject_Z (rright (room_rect rm) - gutter))%Q /\
  (inject_Z (ry (room_rect rm) + gutter) <= my m)%Q /\
  (my m < inject_Z (rdown (room_rect rm) - gutter))%Q.

(** What the scatter-sampling capability promises (§6): points within the
    shape it was given. *)
Definition samplesWithinShape
  (fill : Z -> Z -> RNG -> list (Q * Q) * RNG) : Prop :=
  forall w h g p, p ∈ fst (fill w h g) ->
    (0 <= fst p)%Q /\ (fst p < inject_Z w)%Q /\
    (0 <= snd p)%Q /\ (snd p < inject_Z h)%Q.

(** What [shuffleArray] promises (§4.4): a permutation of its argument. *)
Definition shufflePermutes
  (shuffle : list (Q * Q) -> RNG -> list (Q * Q) * RNG) : Prop :=
  forall l g, fst (shuffle l g) ≡ₚ l.

(** The monsters of one leaf: none without a room; with a room, no more than
    [roomMaxMonsters] and no more than the points sampled for the room, each
    standing at a sampled point, inside the room's interior. *)
Definition monstersOfRoom (fill : Z -> Z -> RNG -> list (Q * Q) * RNG)
  (args : DungeonArgs) (c : Container) (ms : list Monster) : Prop :=
  match room c with
  | None => ms = []
  | Some rm =>
      exists gi,
        let points :=
          fst (fill (rwidth (room_rect rm) - roomGutterWidth args * 2)
                 (rheight (room_rect rm) - roomGutterWidth args * 2) gi) in
        (length ms <= length points)%nat /\
        Z.of_nat (length ms) <= roomMaxMonsters args /\
        Forall (fun m =>
                  (exists p, p ∈ points /\
                             placedAt rm (roomGutterWidth args) p m) /\
                  inInterior rm (roomGutterWidth args) m) ms
  end.

(** ** The constructor *)

Section Constructor.

Variable Holes_all : list Pattern.
Variables Traps_smallLarge Traps_smallLong : Pattern.
Variable direction : Corridor -> Direction.

(** The first three stages of the constructor (lines 65-81): the tree, the
    rooms and the corridors. *)
Definition dungeonTree (fuel : nat) (args : DungeonArgs) (g : RNG)
  : option (TreeNode * RNG) :=
  match generateTree fuel (rootContainer args) (iterations args) args g with
  | None => None
  | Some (tree, g1) =>
      let (tree, g2) := generateRooms Holes_all tree args g1 in
      Some (generateCorridors Traps_smallLarge Traps_smallLong direction
              tree args g2)
  end.

End Constructor.

(** The rectangle of the container, and of its room when it has one, lies
    within [bounds]. *)
Definition keptWithin (bounds : Rectangle) (c : Container) : Prop :=
  contained (rect c) bounds /\
  forall rm, room c = Some rm -> contained (room_rect rm) bounds.

(** ** Examples *)

(** Values for the constants of ./types, for the examples only. *)
Definition example_flags : TileDirection :=
  mkTileDirection 1 2 4 8 16 32 64 128.

(** A grid with a solid frame, a solid row under the top edge and a room
    below it, two cells wide. *)
Definition example_tiles : TileMap :=
  [[1; 1; 1; 1];
   [1; 1; 1; 1];
   [1; 0; 0; 1];
   [1; 1; 1; 1]].

(** A grid of three rows of three cells: the cell at x = 0, y = 1 has solid
    neighbours to the east and to the south and floor to the south-east. *)
Definition left_edge_tiles : TileMap :=
  [[1; 1; 1];
   [1; 1; 1];
   [1; 0; 1]].

(** The example scenario of the spec (§8), with three iterations. *)
Definition example_args : DungeonArgs :=
  mkDungeonArgs 64 48 1 3 1 (45 # 100)%Q (45 # 100)%Q 1 3 4 (1 # 2)%Q 2
    (1 # 2)%Q.

(** A random source that answers 0, 0.1, ..., 0.9, 0, 0.1, ... *)
Definition example_rng : RNG :=
  mkRNG (fun n => Qmake (Z.of_nat n mod 10) 10) 0.

(** The same source after [n] draws. *)
Definition example_rng_at (n : nat) : RNG := mkRNG (draws example_rng) n.

(** Pattern libraries for the examples: stamps of solid tiles. *)
Definition solidPattern (w h : Z) : Pattern :=
  mkPattern w h (replicate (Z.to_nat h) (replicate (Z.to_nat w) 1)).

Definition example_holes : list Pattern :=
  [solidPattern 6 6; solidPattern 4 4; solidPattern 2 2].

Definition example_trap_large : Pattern := solidPattern 2 1.
Definition example_trap_long : Pattern := solidPattern 1 2.

Definition example_direction (c : Corridor) : Direction :=
  if rwidth (corridor_rect c) >? rheight (corridor_rect c)
  then horizontal else vertical.

(** A sampling capability for the examples: the origin and the middle of
    the shape, when the shape is not empty. *)
Definition example_fill (w h : Z) (g : RNG) : list (Q * Q) * RNG :=
  (if (0 <? w) && (0 <? h)
   then [(0%Q, 0%Q); (Qmake w 2, Qmake h 2)]
   else [], g).

Definition example_shuffle (l : list (Q * Q)) (g : RNG)
  : list (Q * Q) * RNG := (rev l, g).

Definition treeOf (run : option (TreeNode * RNG)) (otherwise : TreeNode)
  : TreeNode :=
  match run with
  | Some (t, _) => t
  | None => otherwise
  end.

(** The tree that [generateTree] returns on the example scenario. *)
Definition example_tree : TreeNode :=
  Eval vm_compute in
    treeOf (generateTree 30 (rootContainer example_args)
              (iterations example_args) example_args example_rng)
      (mkTreeNode (rootContainer example_args) None None).

(** A small map: five columns and eight rows, a gutter of one cell, one
    iteration, corridors two cells wide; and a random source that always
    answers 0.5. *)
Definition small_args : DungeonArgs :=
  mkDungeonArgs 5 8 1 1 0 (45 # 100)%Q (45 # 100)%Q 0 3 2 0%Q 2 0%Q.

Definition half_rng : RNG := mkRNG (fun _ => (1 # 2)%Q) 0.

(** The tree of the small map: after [generateTree], after [generateRooms]
    and after [generateCorridors]. *)
Definition small_tree : TreeNode :=
  Eval vm_compute in
    treeOf (generateTree 3 (rootContainer small_args) (iterations small_args)
              small_args half_rng)
      (mkTreeNode (rootContainer small_args) None None).

Definition small_rooms : TreeNode :=
  Eval vm_compute in
    fst (generateRooms example_holes small_tree small_args
           (mkRNG (draws half_rng) 2)).

Definition small_dungeon : TreeNode :=
  Eval vm_compute in
    treeOf (dungeonTree example_holes example_trap_large example_trap_long
              example_direction 3 small_args half_rng)
      (mkTreeNode (rootContainer small_args) None None).

(** ** Further statements about the tree *)

(** The number of cells of a rectangle. *)
Definition area (r : Rectangle) : Z := rwidth r * rheight r.

Definition totalArea (cs : list Container) : Z :=
  fold_right (fun c acc => area (rect c) + acc) 0 cs.

(** [inside], as a test. *)
Definition insideb (r : Rectangle) (px py : Z) : bool :=
  ((rx r <=? px) && (px <? rright r)) && ((ry r <=? py) && (py <? rdown r)).

(** The number of containers of a list that cover the cell. *)
Definition coverCount (px py : Z) (cs : list Container) : nat :=
  length (List.filter (fun c => insideb (rect c) px py) cs).

(** The containers of the nodes that have both children. *)
Fixpoint innerContainers (node : TreeNode) : list Container :=
  match node with
  | mkTreeNode c (Some l) (Some r) =>
      c :: innerContainers l ++ innerContainers r
  | mkTreeNode _ _ _ => []
  end.

(** The cell lies in the room of one of the containers. *)
Definition inSomeRoom (cs : list Container) (x y : nat) : Prop :=
  exists c rm, c ∈ cs /\ room c = Some rm /\
               inside (room_rect rm) (Z.of_nat x) (Z.of_nat y).

(** The four cardinal flags together. *)
Definition cardinalFlags (td : TileDirection) : Z :=
  Z.lor (Z.lor (Z.lor (West td) (East td)) (North td)) (South td).

(** ** cleanTilemap *)

(** [v === 0]: false on undefined and on [false]. *)
Definition js_is0 (v : option Z) : bool :=
  match v with
  | Some 0 => true
  | _ => false
  end.

(** The loop body of the first pass of [cleanTilemap] (lines 456-473).
    [beforeV] and [afterV] are [false] on the first and on the last row;
    [None] stands for it, as for undefined: neither is identical to 0. *)
Definition cleanCell (tilemap : TileMap) (x y : nat) : TileMap :=
  let X := Z.of_nat x in
  let Y := Z.of_nat y in
  let tileId := tileAt tilemap x y in
  if js_le0 tileId then tilemap
  else
    let beforeH := tileAtZ tilemap (X - 1) Y in
    let afterH := tileAtZ tilemap (X + 1) Y in
    if js_is0 beforeH && js_is0 afterH then setTile tilemap x y 0
    else
      let beforeV := if 0 <? Y then tileAtZ tilemap X (Y - 1) else None in
      let afterV :=
        if Y <? Z.of_nat (length tilemap) - 1
        then tileAtZ tilemap X (Y + 1) else None in
      if js_is0 beforeV && js_is0 afterV then setTile tilemap x y 0
      else tilemap.

(** The loop body of the second pass (lines 483-495), for the room
    [r]; [spikes] is [PropType.Spikes] of ./types, which is not under
    src/: a parameter. *)
Definition cleanPropCell (spikes : Z) (r : Rectangle) (props : TileMap)
  (x y : nat) : TileMap :=
  match tileAt props x y with
  | Some propId =>
      if propId =? spikes then
        let inHeightRange := (Z.of_nat y >=? ry r) && (Z.of_nat y <? rdown r) in
        let inWidthRange := (Z.of_nat x >=? rx r) && (Z.of_nat x <? rright r) in
        if inHeightRange && inWidthRange then setTile props x y 0 else props
      else props
  | None => props
  end.

(** dungeon.ts, [cleanTilemap] (lines 448-498): the tile grid and the prop
    grid after it. *)
Definition cleanTilemap (spikes : Z) (node : TreeNode)
  (tilemap props : TileMap) : TileMap * TileMap :=
  let tilemap := forEachCell cleanCell tilemap in
  let props :=
    fold_left
      (fun p container =>
         match room container with
         | None => p
         | Some room => forEachCell (cleanPropCell spikes (room_rect room)) p
         end)
      (leaves node) props in
  (tilemap, props).

(** ** Passes that write at computed positions *)

(** What a pass that can throw comes to.  [carvePatterns] and [carveTraps]
    write at positions that they compute from a center, with no test of the
    position.  [NotFollowed]: the write left a grid that is no longer rows
    of numbers of the lengths it had (a write outside a row grows the row or
    adds a property to it; an id that the pattern lacks is undefined), and
    the run is not followed further. *)
Inductive Outcome (A : Type) : Type :=
| Returns (a : A)
| TypeError
| NotFollowed.

Arguments Returns {A} a.
Arguments TypeError {A}.
Arguments NotFollowed {A}.

#[global] Instance Outcome_bind : MBind Outcome :=
  fun A B f m =>
    match m with
    | Returns a => f a
    | TypeError => TypeError
    | NotFollowed => NotFollowed
    end.

(** A loop that a throw leaves. *)
Fixpoint foldOutcome {A B : Type} (f : A -> B -> Outcome A) (l : list B)
  (a : A) : Outcome A :=
  match l with
  | [] => Returns a
  | b :: l => a' ← f a b; foldOutcome f l a'
  end.

(** [tilemap[posY][posX] = v] at a computed position, [v] being undefined
    when [None]: reading [tilemap[posY]] where there is no such row gives
    undefined, and writing to a property of undefined throws. *)
Definition writeAt (tilemap : TileMap) (posX posY : Z) (v : option Z)
  : Outcome TileMap :=
  if (posY <? 0) || (Z.of_nat (length tilemap) <=? posY) then TypeError
  else
    match v with
    | None => NotFollowed
    | Some v =>
        if (posX <? 0)
           || (Z.of_nat (rowLength tilemap (Z.to_nat posY)) <=? posX)
        then NotFollowed
        else Returns (setTile tilemap (Z.to_nat posX) (Z.to_nat posY) v)
    end.

(** The two loops over a pattern:
    [for y < pattern.height; for x < pattern.width]. *)
Definition forEachOffset (width height : Z)
  (body : TileMap -> nat -> nat -> Outcome TileMap) (tilemap : TileMap)
  : Outcome TileMap :=
  foldOutcome
    (fun t y => foldOutcome (fun t' x => body t' x y) (seq 0 (Z.to_nat width)) t)
    (seq 0 (Z.to_nat height)) tilemap.

(** [startX] and [startY] of lines 409-410 and 430-431: the pattern is
    centered on the rectangle. *)
Definition patternStart (r : Rectangle) (p : Pattern) : Z * Z :=
  (Qceiling (fst (center r) - inject_Z (pwidth p) / 2),
   Qceiling (snd (center r) - inject_Z (pheight p) / 2)).

(** The callback of [node.leaves.forEach] in [carvePatterns], for a room
    with a hole pattern (lines 408-417).  [holes.tiles[y][x]] throws when the
    pattern has no row [y] and is undefined when the row has no cell [x]. *)
Definition carveHole (room : Room) (holes : Pattern) (tilemap : TileMap)
  : Outcome TileMap :=
  let startY := snd (patternStart (room_rect room) holes) in
  let startX := fst (patternStart (room_rect room) holes) in
  forEachOffset (pwidth holes) (pheight holes)
    (fun t x y =>
       let posY := startY + Z.of_nat y in
       let posX := startX + Z.of_nat x in
       match tiles holes !! y with
       | None => TypeError
       | Some row => writeAt t posX posY (row !! x)
       end)
    tilemap.

(** dungeon.ts, [carvePatterns] (lines 401-419). *)
Definition carvePatterns (node : TreeNode) (tilemap : TileMap)
  : Outcome TileMap :=
  foldOutcome
    (fun t container =>
       match room container with
       | None => Returns t
       | Some room =>
           match holes room with
           | None => Returns t
           | Some holes => carveHole room holes t
           end
       end)
    (leaves node) tilemap.

(** The trap of a corridor (lines 429-438); [spikes] is [PropType.Spikes]. *)
Definition carveTrap (spikes : Z) (corridor : Corridor) (traps : Pattern)
  (tilemap : TileMap) : Outcome TileMap :=
  let startY := snd (patternStart (corridor_rect corridor) traps) in
  let startX := fst (patternStart (corridor_rect corridor) traps) in
  forEachOffset (pwidth traps) (pheight traps)
    (fun t x y =>
       let posY := startY + Z.of_nat y in
       let posX := startX + Z.of_nat x in
       writeAt t posX posY (Some spikes))
    tilemap.

(** dungeon.ts, [carveTraps] (lines 421-443).  Reading [leaf] of a missing
    child throws. *)
Fixpoint carveTraps (spikes : Z) (node : TreeNode) (tilemap : TileMap)
  : Outcome TileMap :=
  match node with
  | mkTreeNode c l r =>
      match corridor c with
      | None => Returns tilemap
      | Some corridor =>
          tilemap ← match traps corridor with
                    | Some traps => carveTrap spikes corridor traps tilemap
                    | None => Returns tilemap
                    end;
          match l with
          | None => TypeError
          | Some l =>
              tilemap ← carveTraps spikes l tilemap;
              match r with
              | None => TypeError
              | Some r => carveTraps spikes r tilemap
              end
          end
      end
  end.

(** dungeon.ts, [generateTilemap] (lines 339-355): the tile grid and the
    prop grid.  [carveCorridors] is handed the tile grid as the grid it
    writes to. *)
Definition generateTilemap (td : TileDirection) (spikes : Z)
  (tree : TreeNode) (args : DungeonArgs) : Outcome (TileMap * TileMap) :=
  let tilemap := createTilemap (mapWidth args) (mapHeight args) 1 in
  let props := createTilemap (mapWidth args) (mapHeight args) 0 in
  let tilemap := carveRooms tree tilemap in
  match carveCorridors tree tilemap props with
  | None => TypeError
  | Some tilemap =>
      tilemap ← carvePatterns tree tilemap;
      props ← carveTraps spikes tree props;
      let grids := cleanTilemap spikes tree tilemap props in
      let tilemap := generateTileMask td (fst grids) in
      let tilemap := normalizeTileMask td tilemap in
      Returns (tilemap, snd grids)
  end.

(** The fields of a [Dungeon]. *)
Record Dungeon := mkDungeon {
  dungeon_width : Z;
  dungeon_height : Z;
  dungeon_tree : TreeNode;
  dungeon_tilemap : TileMap;
  dungeon_props : TileMap;
  dungeon_monsters : list Monster
}.

Section DungeonConstructor.

Variable Holes_all : list Pattern.
Variables Traps_smallLarge Traps_smallLong : Pattern.
Variable direction : Corridor -> Direction.
Variable PoissonDiscSampling_fill : Z -> Z -> RNG -> list (Q * Q) * RNG.
Variable shuffleArray : list (Q * Q) -> RNG -> list (Q * Q) * RNG.
Variable td : TileDirection.
Variable spikes : Z.

(** dungeon.ts, the constructor (lines 62-98); the clock and the console
    are left out.  [None]: the fuel of [splitContainer] ran out. *)
Definition newDungeon (fuel : nat) (args : DungeonArgs) (g : RNG)
  : option (Outcome Dungeon) :=
  match dungeonTree Holes_all Traps_smallLarge Traps_smallLong direction
          fuel args g with
  | None => None
  | Some (tree, g3) =>
      let monsters :=
        fst (generateMonsters PoissonDiscSampling_fill shuffleArray tree args
               g3) in
      Some (grids ← generateTilemap td spikes tree args;
            Returns (mkDungeon (mapWidth args) (mapHeight args) tree
                       (fst grids) (snd grids) monsters))
  end.

End DungeonConstructor.

(** ** Statements about the stamps *)

(** [tiles[y][x]] of a pattern. *)
Definition patternTile (p : Pattern) (x y : nat) : option Z :=
  match tiles p !! y with
  | Some row => row !! x
  | None => None
  end.

(** The grid of the pattern has an id at every offset of its footprint. *)
Definition wellFormed (p : Pattern) : Prop :=
  forall x y, Z.of_nat x < pwidth p -> Z.of_nat y < pheight p ->
    is_Some (patternTile p x y).

(** The cell [(x, y)] lies in the footprint of [p] centered on [r], at the
    offset [(dx, dy)]. *)
Definition atOffset (r : Rectangle) (p : Pattern) (x y dx dy : nat) : Prop :=
  Z.of_nat dx < pwidth p /\ Z.of_nat dy < pheight p /\
  Z.of_nat x = fst (patternStart r p) + Z.of_nat dx /\
  Z.of_nat y = snd (patternStart r p) + Z.of_nat dy.

(** The rectangle lies on the grid. *)
Definition onGrid (r : Rectangle) (t : TileMap) : Prop :=
  forall px py, inside r px py ->
    0 <= px /\ 0 <= py /\
    (Z.to_nat px < rowLength t (Z.to_nat py))%nat.

(** The two grids have the same shape. *)
Definition sameShape (t t' : TileMap) : Prop :=
  length t' = length t /\ forall y, rowLength t' y = rowLength t y.

(** Every cell of [t'] holds what it holds in [t], or [v]. *)
Definition wroteOnly (v : Z) (t t' : TileMap) : Prop :=
  sameShape t t' /\
  forall x y, tileAt t' x y = tileAt t x y \/ tileAt t' x y = Some v.

(** The small map with a trap in every corridor, and its tree. *)
Definition trap_args : DungeonArgs :=
  mkDungeonArgs 5 8 1 1 0 (45 # 100)%Q (45 # 100)%Q 0 3 2 0%Q 2 1%Q.

Definition trapped_dungeon : TreeNode :=
  Eval vm_compute in
    treeOf (dungeonTree example_holes example_trap_large example_trap_long
              example_direction 3 trap_args half_rng)
      (mkTreeNode (rootContainer trap_args) None None).

(** The hole of the room of [c], when there is one, passed the size test
    and is a pattern of the library. *)
Definition holesFit (Holes_all : list Pattern) (c : Container) : Prop :=
  forall rm hole, room c = Some rm -> holes rm = Some hole ->
    holeFits (room_rect rm) hole = true /\ hole ∈ Holes_all.

(** The rectangle of the whole map. *)
Definition mapRectangle (args : DungeonArgs) : Rectangle :=
  mkRectangle 0 0 (mapWidth args) (mapHeight args).

(** A grid of [height] rows of [width] cells. *)
Definition hasShape (t : TileMap) (width height : Z) : Prop :=
  Z.of_nat (length t) = height /\ rectangular t (Z.to_nat width).

(** A map with a hole in every room and a trap in every corridor, and its
    tree. *)
Definition holed_args : DungeonArgs :=
  mkDungeonArgs 12 10 1 1 0 (45 # 100)%Q (45 # 100)%Q 0 3 2 1%Q 2 1%Q.

Definition holed_dungeon : TreeNode :=
  Eval vm_compute in
    treeOf (dungeonTree example_holes example_trap_large example_trap_long
              example_direction 30 holed_args example_rng)
      (mkTreeNode (rootContainer holed_args) None None).

(** What a run returned, for the examples. *)
Definition returned {A : Type} (run : Outcome A) (otherwise : A) : A :=
  match run with
  | Returns a => a
  | _ => otherwise
  end.

(** The prop grid of the map with holes and traps after [carveTraps], and
    the grids that [generateTilemap] returns for it and for the small map
    with traps; spikes are 7. *)
Definition holed_spikes : TileMap :=
  Eval vm_compute in
    returned (carveTraps 7 holed_dungeon (createTilemap 12 10 0)) [].

Definition holed_grids : TileMap * TileMap :=
  Eval vm_compute in
    returned (generateTilemap example_flags 7 holed_dungeon holed_args)
      ([], []).

Definition trapped_grids : TileMap * TileMap :=
  Eval vm_compute in
    returned (generateTilemap example_flags 7 trapped_dungeon trap_args)
      ([], []).

(** The dungeon of the map with holes and traps. *)
Definition holed_result : Dungeon :=
  Eval vm_compute in
    match newDungeon example_holes example_trap_large example_trap_long
            example_direction example_fill example_shuffle example_flags 7
            30 holed_args example_rng with
    | Some run =>
        returned run (mkDungeon 0 0 holed_dungeon [] [] [])
    | None => mkDungeon 0 0 holed_dungeon [] [] []
    end.

(** A grid in which the floor cell at x = 1, y = 1 has solid neighbours to
    the east and to the south and floor to the south-east. *)
Definition floor_corner_tiles : TileMap :=
  [[1; 1; 1];
   [1; 0; 1];
   [1; 1; 0]].

(** * Proofs *)

(** ** Numbers *)

Lemma Qltb_true (a b : Q) : Qltb a b = true <-> (a < b)%Q.
Proof.
  unfold Qltb. rewrite negb_true_iff, <- not_true_iff_false, Qle_bool_iff.
  split; [apply Qnot_le_lt | apply Qlt_not_le].
Qed.

Lemma Qltb_false (a b : Q) : Qltb a b = false <-> (b <= a)%Q.
Proof.
  unfold Qltb. rewrite negb_false_iff. apply Qle_bool_iff.
Qed.

Lemma Qdiv_Z_nonneg (a b : Z) :
  0 < b -> (0 <= inject_Z a / inject_Z b)%Q -> 0 <= a.
Proof.
  intros Hb. destruct b as [|p|p]; try lia.
  unfold Qle, Qdiv, Qmult, Qinv, inject_Z. simpl. lia.
Qed.

Lemma Qdiv_Z_nonneg_intro (a b : Z) :
  0 < b -> 0 <= a -> (0 <= inject_Z a / inject_Z b)%Q.
Proof.
  intros Hb. destruct b as [|p|p]; try lia.
  unfold Qle, Qdiv, Qmult, Qinv, inject_Z. simpl. lia.
Qed.

(** An accepted ratio against a minimum that is not negative: the long side
    is not negative when the short side is not. *)
Lemma accepted_nonneg (a b : Z) (r : Q) :
  js_lt (js_div a b) r = false -> (0 <= r)%Q -> 0 <= b -> 0 <= a.
Proof.
  intros Hlt Hr Hb. unfold js_div in Hlt.
  destruct (Z.eqb_spec b 0) as [->|Hne].
  - destruct (Z.eqb_spec a 0) as [->|_]; [lia|].
    destruct (Z.ltb_spec 0 a); [lia | discriminate].
  - simpl in Hlt. apply Qltb_false in Hlt.
    apply (Qdiv_Z_nonneg a b); [lia|]. now apply Qle_trans with r.
Qed.

Lemma ratio_below_pos (long short : Z) (minimum : Q) :
  0 < short ->
  ratio_below long short minimum <->
  (inject_Z long / inject_Z short < minimum)%Q.
Proof.
  intros Hs. unfold ratio_below, js_div.
  destruct (Z.eqb_spec short 0) as [->|_]; [lia|].
  simpl. apply Qltb_true.
Qed.

(** ** splitContainer *)

(** What a returned split looks like: the last try drew a direction and a
    size, built the two children from them and passed the ratio test. *)
Lemma splitContainer_inv fuel container args g l r g' :
  splitContainer fuel container args g = Some (l, r, g') ->
  let c := rect container in
  (exists w,
      l = newContainer (rx c) (ry c) w (rheight c) /\
      r = newContainer (rx c + w) (ry c) (rwidth c - w) (rheight c) /\
      js_lt (js_div w (rheight c)) (containerWidthRatio args) = false /\
      js_lt (js_div (rwidth c - w) (rheight c)) (containerWidthRatio args)
      = false) \/
  (exists h,
      l = newContainer (rx c) (ry c) (rwidth c) h /\
      r = newContainer (rx c) (ry c + h) (rwidth c) (rheight c - h) /\
      js_lt (js_div h (rwidth c)) (containerHeightRatio args) = false /\
      js_lt (js_div (rheight c - h) (rwidth c)) (containerHeightRatio args)
      = false).
Proof.
  revert g. induction fuel as [|fuel IH]; intros g Hrun; [discriminate|].
  cbn [splitContainer] in Hrun.
  destruct (randomWeights _ _ g) as [direction g1].
  destruct direction as [[|]|].
  - destruct (random 1 _ g1) as [w g2]. cbn [rect newContainer rwidth rheight] in Hrun.
    destruct (js_lt (js_div w _) _) eqn:Hl; cbn [orb] in Hrun; [eauto|].
    destruct (js_lt (js_div (_ - w) _) _) eqn:Hr; [eauto|].
    injection Hrun as <- <- <-. left. exists w. auto.
  - destruct (random 1 _ g1) as [h g2]. cbn [rect newContainer rwidth rheight] in Hrun.
    destruct (js_lt (js_div h _) _) eqn:Hl; cbn [orb] in Hrun; [eauto|].
    destruct (js_lt (js_div (_ - h) _) _) eqn:Hr; [eauto|].
    injection Hrun as <- <- <-. right. exists h. auto.
  - destruct (random 1 _ g1) as [h g2]. cbn [rect newContainer rwidth rheight] in Hrun.
    destruct (js_lt (js_div h _) _) eqn:Hl; cbn [orb] in Hrun; [eauto|].
    destruct (js_lt (js_div (_ - h) _) _) eqn:Hr; [eauto|].
    injection Hrun as <- <- <-. right. exists h. auto.
Qed.

Lemma vertical_partition_points (c l r : Rectangle) :
  vertical_partition c l r -> 0 <= rwidth l -> 0 <= rwidth r ->
  forall px py,
    (inside c px py <-> inside l px py \/ inside r px py) /\
    ~ (inside l px py /\ inside r px py).
Proof.
  unfold vertical_partition, inside, rright, rdown. intros; lia.
Qed.

Lemma horizontal_partition_points (c l r : Rectangle) :
  horizontal_partition c l r -> 0 <= rheight l -> 0 <= rheight r ->
  forall px py,
    (inside c px py <-> inside l px py \/ inside r px py) /\
    ~ (inside l px py /\ inside r px py).
Proof.
  unfold horizontal_partition, inside, rright, rdown. intros; lia.
Qed.

(** C6.  A split that [splitContainer] returns partitions the parent along
    one axis.  Vertical: both children keep the parent's y and height, the
    left child keeps its x, the widths add up to the parent's width and the
    right child starts at the left child's far edge; horizontal: the same on
    the other axis.  When the minimum ratios and the parent's width and
    height are not negative, every cell of the parent lies in exactly one
    child: no gap and no overlap. *)
Theorem splitContainer_partition fuel container args g l r g' :
  splitContainer fuel container args g = Some (l, r, g') ->
  (vertical_partition (rect container) (rect l) (rect r) \/
   horizontal_partition (rect container) (rect l) (rect r)) /\
  ((0 <= containerWidthRatio args)%Q -> (0 <= containerHeightRatio args)%Q ->
   0 <= rwidth (rect container) -> 0 <= rheight (rect container) ->
   forall px py,
     (inside (rect container) px py <->
      inside (rect l) px py \/ inside (rect r) px py) /\
     ~ (inside (rect l) px py /\ inside (rect r) px py)).
Proof.
  intros Hrun. apply splitContainer_inv in Hrun. cbv zeta in Hrun.
  destruct Hrun as [(w & -> & -> & Hl & Hr) | (h & -> & -> & Hl & Hr)].
  - assert (Hv : vertical_partition (rect container)
                   (rect (newContainer (rx (rect container)) (ry (rect container))
                            w (rheight (rect container))))
                   (rect (newContainer (rx (rect container) + w)
                            (ry (rect container)) (rwidth (rect container) - w)
                            (rheight (rect container))))).
    { unfold vertical_partition, rright; simpl. lia. }
    split; [now left|]. intros Hwr _ _ Hh.
    apply vertical_partition_points; [exact Hv| |]; simpl.
    + exact (accepted_nonneg _ _ _ Hl Hwr Hh).
    + exact (accepted_nonneg _ _ _ Hr Hwr Hh).
  - assert (Hv : horizontal_partition (rect container)
                   (rect (newContainer (rx (rect container)) (ry (rect container))
                            (rwidth (rect container)) h))
                   (rect (newContainer (rx (rect container))
                            (ry (rect container) + h) (rwidth (rect container))
                            (rheight (rect container) - h)))).
    { unfold horizontal_partition, rdown; simpl. lia. }
    split; [now right|]. intros _ Hhr Hw _.
    apply horizontal_partition_points; [exact Hv| |]; simpl.
    + exact (accepted_nonneg _ _ _ Hl Hhr Hw).
    + exact (accepted_nonneg _ _ _ Hr Hhr Hw).
Qed.

(** C9.  A split that [splitContainer] returns passed the ratio test of its
    direction: for a vertical split neither child has width / height below
    [containerWidthRatio], for a horizontal split neither child has
    height / width below [containerHeightRatio].  A candidate that fails the
    test is therefore never the result. *)
Theorem splitContainer_ratio fuel container args g l r g' :
  splitContainer fuel container args g = Some (l, r, g') ->
  (vertical_partition (rect container) (rect l) (rect r) /\
   ~ ratio_below (rwidth (rect l)) (rheight (rect l)) (containerWidthRatio args) /\
   ~ ratio_below (rwidth (rect r)) (rheight (rect r)) (containerWidthRatio args))
  \/
  (horizontal_partition (rect container) (rect l) (rect r) /\
   ~ ratio_below (rheight (rect l)) (rwidth (rect l)) (containerHeightRatio args) /\
   ~ ratio_below (rheight (rect r)) (rwidth (rect r)) (containerHeightRatio args)).
Proof.
  intros Hrun. apply splitContainer_inv in Hrun. cbv zeta in Hrun.
  unfold ratio_below.
  destruct Hrun as [(w & -> & -> & Hl & Hr) | (h & -> & -> & Hl & Hr)];
    [left | right]; simpl; rewrite Hl, Hr;
    (split; [|split; discriminate]).
  - unfold vertical_partition, rright; simpl. lia.
  - unfold horizontal_partition, rdown; simpl. lia.
Qed.

(** ** generateTree *)

(** More fuel does not change a result. *)
Lemma splitContainer_fuel_mono fuel fuel' container args g res :
  splitContainer fuel container args g = Some res -> (fuel <= fuel')%nat ->
  splitContainer fuel' container args g = Some res.
Proof.
  revert fuel' g. induction fuel as [|fuel IH]; intros fuel' g Hrun Hle;
    [discriminate|].
  destruct fuel' as [|fuel']; [lia|].
  cbn [splitContainer] in *.
  destruct (randomWeights _ _ g) as [direction g1].
  destruct direction as [[|]|];
    destruct (random 1 _ g1) as [n g2];
    match goal with
    | |- (if ?b then _ else _) = _ =>
        destruct b; [apply IH; [exact Hrun | lia] | exact Hrun]
    end.
Qed.

Lemma generateTree_fuel_mono fuel fuel' container iters args g res :
  generateTree fuel container iters args g = Some res -> (fuel <= fuel')%nat ->
  generateTree fuel' container iters args g = Some res.
Proof.
  revert fuel' container iters g res.
  induction fuel as [|fuel IH]; intros fuel' container iters g res Hrun Hle;
    [discriminate|].
  destruct fuel' as [|fuel']; [lia|].
  cbn [generateTree] in *.
  destruct (iters =? 0); [exact Hrun|].
  destruct (splitContainer fuel container args g) as [[[l r] g1]|] eqn:Hs;
    [|discriminate].
  rewrite (splitContainer_fuel_mono _ fuel' _ _ _ _ Hs) by lia.
  destruct (generateTree fuel l (iters - 1) args g1) as [[tl g2]|] eqn:Hl;
    [|discriminate].
  rewrite (IH fuel' _ _ _ _ Hl) by lia.
  destruct (generateTree fuel r (iters - 1) args g2) as [[tr g3]|] eqn:Hr;
    [|discriminate].
  rewrite (IH fuel' _ _ _ _ Hr) by lia.
  exact Hrun.
Qed.

(** C1.  The tree that [generateTree] returns is a full binary tree of depth
    [iterations]: the iteration count is not negative, the tree has
    2 ^ iterations leaves and every root-to-leaf path has length
    [iterations]. *)
Theorem generateTree_full fuel container iters args g t g' :
  generateTree fuel container iters args g = Some (t, g') ->
  0 <= iters /\
  Z.of_nat (length (leaves t)) = 2 ^ iters /\
  Forall (fun d => d = iters) (pathLengths t).
Proof.
  revert container iters g t g'.
  induction fuel as [|fuel IH]; intros container iters g t g' Hrun;
    [discriminate|].
  cbn [generateTree] in Hrun.
  destruct (Z.eqb_spec iters 0) as [->|Hne].
  - injection Hrun as <- <-. simpl. repeat split; [lia|].
    constructor; [reflexivity | constructor].
  - destruct (splitContainer fuel container args g) as [[[l r] g1]|];
      [|discriminate].
    destruct (generateTree fuel l (iters - 1) args g1) as [[tl g2]|] eqn:Hl;
      [|discriminate].
    destruct (generateTree fuel r (iters - 1) args g2) as [[tr g3]|] eqn:Hr;
      [|discriminate].
    injection Hrun as <- <-.
    destruct (IH _ _ _ _ _ Hl) as (Hpos & Hll & Hpl).
    destruct (IH _ _ _ _ _ Hr) as (_ & Hlr & Hpr).
    cbn [leaves pathLengths]. split; [lia|]. split.
    + rewrite length_app, Nat2Z.inj_add, Hll, Hlr.
      replace iters with (Z.succ (iters - 1)) at 3 by lia.
      rewrite Z.pow_succ_r by lia. lia.
    + apply Forall_fmap, Forall_app. split.
      * eapply Forall_impl; [exact Hpl|]. simpl. intros; lia.
      * eapply Forall_impl; [exact Hpr|]. simpl. intros; lia.
Qed.

(** ** Grids *)

Lemma rowLength_lt_length (t : TileMap) (x y : nat) :
  (x < rowLength t y)%nat -> (y < length t)%nat.
Proof.
  unfold rowLength. destruct (t !! y) as [row|] eqn:Hrow; [|lia].
  intros _. now apply lookup_lt_Some in Hrow.
Qed.

Lemma tileAt_is_Some (t : TileMap) (x y : nat) :
  is_Some (tileAt t x y) <-> (x < rowLength t y)%nat.
Proof.
  unfold tileAt, rowLength. destruct (t !! y) as [row|].
  - apply lookup_lt_is_Some.
  - split; [intros [? ?]; discriminate | lia].
Qed.

Lemma tileAt_None (t : TileMap) (x y : nat) :
  (rowLength t y <= x)%nat -> tileAt t x y = None.
Proof.
  intros Hle. destruct (tileAt t x y) eqn:Hc; [|reflexivity].
  assert (is_Some (tileAt t x y)) as Hs by (rewrite Hc; eauto).
  apply tileAt_is_Some in Hs. lia.
Qed.

Lemma length_setTile (t : TileMap) (x y : nat) (v : Z) :
  length (setTile t x y v) = length t.
Proof.
  unfold setTile. destruct (t !! y); [apply length_insert | reflexivity].
Qed.

Lemma rowLength_setTile (t : TileMap) (x y : nat) (v : Z) (y' : nat) :
  rowLength (setTile t x y v) y' = rowLength t y'.
Proof.
  unfold setTile, rowLength. destruct (t !! y) as [row|] eqn:Hrow; [|reflexivity].
  destruct (decide (y = y')) as [<-|Hne].
  - rewrite list_lookup_insert_eq by (now apply lookup_lt_Some in Hrow).
    rewrite Hrow. apply length_insert.
  - now rewrite list_lookup_insert_ne.
Qed.

Lemma tileAt_setTile_eq (t : TileMap) (x y : nat) (v : Z) :
  (x < rowLength t y)%nat -> tileAt (setTile t x y v) x y = Some v.
Proof.
  unfold setTile, rowLength, tileAt.
  destruct (t !! y) as [row|] eqn:Hrow; [|lia]. intros Hx.
  rewrite list_lookup_insert_eq by (now apply lookup_lt_Some in Hrow).
  now apply list_lookup_insert_eq.
Qed.

Lemma tileAt_setTile_ne (t : TileMap) (x y : nat) (v : Z) (x' y' : nat) :
  (x', y') <> (x, y) -> tileAt (setTile t x y v) x' y' = tileAt t x' y'.
Proof.
  intros Hne. unfold setTile, tileAt.
  destruct (t !! y) as [row|] eqn:Hrow; [|reflexivity].
  destruct (decide (y = y')) as [<-|Hy].
  - rewrite list_lookup_insert_eq by (now apply lookup_lt_Some in Hrow).
    rewrite Hrow. apply list_lookup_insert_ne. congruence.
  - now rewrite list_lookup_insert_ne.
Qed.

(** Induction over a counting loop. *)
Lemma fold_left_seq_ind {S : Type} (f : S -> nat -> S) (P : nat -> S -> Prop)
  (n : nat) (s : S) :
  P O s ->
  (forall i s', (i < n)%nat -> P i s' -> P (Datatypes.S i) (f s' i)) ->
  P n (fold_left f (seq 0 n) s).
Proof.
  intros H0 Hstep. induction n as [|n IH].
  - exact H0.
  - rewrite seq_S, fold_left_app. simpl. apply Hstep; [lia|].
    apply IH. intros i s' Hi. apply Hstep. lia.
Qed.

Lemma writesOwnCell_shape body t x y :
  writesOwnCell body ->
  length (body t x y) = length t /\
  (forall y', rowLength (body t x y) y' = rowLength t y').
Proof.
  intros Hown. destruct (Hown t x y) as [->|[v ->]]; [easy|].
  split; [apply length_setTile | intros; apply rowLength_setTile].
Qed.

Lemma writesOwnCell_other body t x y x' y' :
  writesOwnCell body -> (x', y') <> (x, y) ->
  tileAt (body t x y) x' y' = tileAt t x' y'.
Proof.
  intros Hown Hne. destruct (Hown t x y) as [->|[v ->]]; [easy|].
  now apply tileAt_setTile_ne.
Qed.

(** Induction over the two loops of [forEachCell], for a body that keeps the
    shape of the grid: [J x y t] is what holds of the grid [t] when the loops
    reach the cell [(x, y)]. *)
Lemma forEachCell_ind (body : TileMap -> nat -> nat -> TileMap)
  (orig : TileMap) (J : nat -> nat -> TileMap -> Prop) :
  writesOwnCell body ->
  J O O orig ->
  (forall t x y, (x < rowLength orig y)%nat -> J x y t ->
     J (S x) y (body t x y)) ->
  (forall t y, (y < length orig)%nat -> J (rowLength orig y) y t ->
     J O (S y) t) ->
  J O (length orig) (forEachCell body orig) /\
  length (forEachCell body orig) = length orig /\
  (forall y, rowLength (forEachCell body orig) y = rowLength orig y).
Proof.
  intros Hown H0 Hcell Hrow.
  set (K := fun x y t =>
              J x y t /\ length t = length orig /\
              forall y', rowLength t y' = rowLength orig y').
  assert (HK : K O (length orig) (forEachCell body orig)).
  { unfold forEachCell.
    apply (fold_left_seq_ind _ (fun y t => K O y t)).
    - now split.
    - intros y t Hy (HJ & Hlen & Hrl).
      assert (Hend : K (rowLength orig y) y
                       (fold_left (fun t' x => body t' x y)
                          (seq 0 (rowLength t y)) t)).
      { rewrite (Hrl y).
        apply (fold_left_seq_ind _ (fun x t' => K x y t')).
        - now split.
        - intros x t' Hx (HJ' & Hlen' & Hrl').
          destruct (writesOwnCell_shape body t' x y Hown) as [Hl Hr].
          split; [now apply Hcell|]. split; [congruence|].
          intros y'. now rewrite Hr. }
      destruct Hend as (HJ' & Hlen' & Hrl').
      split; [now apply Hrow | now split]. }
  exact HK.
Qed.

(** The content of the grid after a pass whose body writes its own cell
    only: each cell holds what the body left there when it visited it. *)
Lemma forEachCell_final (body : TileMap -> nat -> nat -> TileMap)
  (orig : TileMap) (final : nat -> nat -> option Z) :
  writesOwnCell body ->
  (forall t x y, (x < rowLength orig y)%nat -> reachedAt orig final x y t ->
     tileAt (body t x y) x y = final x y) ->
  length (forEachCell body orig) = length orig /\
  (forall y, rowLength (forEachCell body orig) y = rowLength orig y) /\
  (forall x y, (x < rowLength orig y)%nat ->
     tileAt (forEachCell body orig) x y = final x y).
Proof.
  intros Hown Hcell.
  destruct (forEachCell_ind body orig (reachedAt orig final) Hown)
    as ((Hlen & Hrl & Hcells) & _ & _).
  - split; [reflexivity|]. split; [reflexivity|]. intros x' y' _.
    destruct (decide _) as [Hv|_]; [|reflexivity].
    unfold visitedBefore in Hv. lia.
  - intros t x y Hx Ht.
    destruct (writesOwnCell_shape body t x y Hown) as [Hl Hr].
    pose proof (Hcell t x y Hx Ht) as Hnew.
    destruct Ht as (Hlen & Hrl & Hcells).
    split; [congruence|]. split; [intros; rewrite Hr; apply Hrl|].
    intros x' y' Hin.
    destruct (decide ((x', y') = (x, y))) as [Heq|Hne].
    + injection Heq as -> ->. rewrite Hnew.
      destruct (decide _) as [_|Hnv]; [reflexivity|].
      exfalso. apply Hnv. right. lia.
    + rewrite (writesOwnCell_other body t x y x' y' Hown Hne).
      rewrite (Hcells x' y' Hin).
      destruct (decide (visitedBefore x' y' x y)) as [Hv|Hnv];
        destruct (decide (visitedBefore x' y' (S x) y)) as [Hv'|Hnv'];
        try reflexivity; exfalso; unfold visitedBefore in *.
      * apply Hnv'. lia.
      * apply Hnv. assert (x' <> x \/ y' <> y) by
          (destruct (decide (x' = x)); [right; congruence | now left]).
        lia.
  - intros t y Hy (Hlen & Hrl & Hcells).
    split; [exact Hlen|]. split; [exact Hrl|]. intros x' y' Hin.
    rewrite (Hcells x' y' Hin).
    destruct (decide (visitedBefore x' y' (rowLength orig y) y)) as [Hv|Hnv];
      destruct (decide (visitedBefore x' y' 0 (S y))) as [Hv'|Hnv'];
      try reflexivity; exfalso; unfold visitedBefore in *.
    + apply Hnv'. lia.
    + apply Hnv. destruct (decide (y' = y)) as [->|Hyy]; lia.
  - split; [exact Hlen|]. split; [exact Hrl|]. intros x y Hin.
    rewrite (Hcells x y Hin). destruct (decide _) as [_|Hnv]; [reflexivity|].
    exfalso. apply Hnv. left. eapply rowLength_lt_length, Hin.
Qed.

(** The grid that the body finds when the loops reach [(x, y)]: the shape of
    the grid at the start, and the cells not visited yet as they were. *)
Lemma forEachCell_cell (body : TileMap -> nat -> nat -> TileMap)
  (orig : TileMap) (x y : nat) :
  writesOwnCell body -> (x < rowLength orig y)%nat ->
  exists t,
    length t = length orig /\
    (forall y', rowLength t y' = rowLength orig y') /\
    (forall x' y', ~ visitedBefore x' y' x y ->
       tileAt t x' y' = tileAt orig x' y') /\
    tileAt (forEachCell body orig) x y = tileAt (body t x y) x y.
Proof.
  intros Hown Hx.
  set (found := fun s t =>
         length t = length orig /\
         (forall y', rowLength t y' = rowLength orig y') /\
         (forall x' y', ~ visitedBefore x' y' x y ->
            tileAt t x' y' = tileAt orig x' y') /\
         tileAt s x y = tileAt (body t x y) x y).
  destruct (forEachCell_ind body orig
              (fun x0 y0 s =>
                 length s = length orig /\
                 (forall y', rowLength s y' = rowLength orig y') /\
                 (forall x' y', ~ visitedBefore x' y' x0 y0 ->
                    tileAt s x' y' = tileAt orig x' y') /\
                 (visitedBefore x y x0 y0 -> exists t, found s t)) Hown)
    as ((_ & _ & _ & Hdone) & _ & _).
  - split; [reflexivity|]. split; [reflexivity|]. split; [reflexivity|].
    unfold visitedBefore. lia.
  - intros s x0 y0 Hx0 (Hlen & Hrl & Hrest & Hseen).
    destruct (writesOwnCell_shape body s x0 y0 Hown) as [Hl Hr].
    split; [congruence|]. split; [intros; rewrite Hr; apply Hrl|]. split.
    + intros x' y' Hnv.
      rewrite writesOwnCell_other
        by (assumption || (intros [= -> ->]; apply Hnv; right; lia)).
      apply Hrest. unfold visitedBefore in *. lia.
    + intros Hv. destruct (decide ((x, y) = (x0, y0))) as [[= -> ->]|Hne].
      * exists s. now split.
      * destruct Hseen as (t & Ht1 & Ht2 & Ht3 & Ht4).
        { unfold visitedBefore in *.
          assert (x <> x0 \/ y <> y0) by
            (destruct (decide (x = x0)); [right; congruence | now left]).
          lia. }
        exists t. split; [exact Ht1|]. split; [exact Ht2|].
        split; [exact Ht3|]. rewrite <- Ht4.
        now apply writesOwnCell_other.
  - intros s y0 Hy0 (Hlen & Hrl & Hrest & Hseen).
    split; [exact Hlen|]. split; [exact Hrl|]. split.
    + intros x' y' Hnv. apply Hrest. unfold visitedBefore in *. lia.
    + intros Hv. apply Hseen. unfold visitedBefore in *.
      destruct (decide (y = y0)) as [->|Hyy]; [right|left]; lia.
  - destruct Hdone as (t & Ht).
    + left. eapply rowLength_lt_length, Hx.
    + exists t. exact Ht.
Qed.

(** ** generateTileMask *)

Lemma rectangular_rowLength (t : TileMap) (w y : nat) :
  rectangular t w -> (y < length t)%nat -> rowLength t y = w.
Proof.
  intros Hrect Hy. unfold rowLength.
  destruct (lookup_lt_is_Some_2 t y Hy) as [row Hrow]. rewrite Hrow.
  unfold rectangular in Hrect. rewrite Forall_lookup in Hrect.
  exact (Hrect y row Hrow).
Qed.

Lemma lor_flag_pos (a b : Z) : 0 <= a -> 0 < b -> 0 < Z.lor a b.
Proof.
  intros Ha Hb.
  assert (0 <= Z.lor a b) by (apply Z.lor_nonneg; lia).
  assert (Z.lor a b <> 0) by (rewrite Z.lor_eq_0_iff; lia).
  lia.
Qed.

(** A cell with a colliding side gets a positive mask. *)
Lemma getTileMask_pos td x y t side :
  cardinalFlagsPositive td -> isColliding x y side t = true ->
  0 < getTileMask td x y t.
Proof.
  intros (Hw & He & Hn & Hs) Hside. unfold getTileMask.
  destruct (isColliding x y west t) eqn:Cw;
    destruct (isColliding x y east t) eqn:Ce;
    destruct (isColliding x y north t) eqn:Cn;
    destruct (isColliding x y south t) eqn:Cs;
    cbn [Z.lor];
    try (destruct side; congruence);
    repeat first [ assumption
                 | apply lor_flag_pos; [|assumption]
                 | apply Z.lor_nonneg; split
                 | lia ].
Qed.

(** On a rectangular grid the code's four tests read the four neighbours. *)
Lemma getTileMask_cardinalMask td t w x y :
  rectangular t w -> (x < w)%nat -> (y < length t)%nat ->
  getTileMask td x y t = cardinalMask td t x y.
Proof.
  intros Hrect Hx Hy. unfold getTileMask, cardinalMask. cbv zeta.
  assert (Hwest : isColliding x y west t
                  = solidAt t (Z.of_nat x - 1) (Z.of_nat y)).
  { unfold isColliding, solidAt. destruct x as [|x'].
    - reflexivity.
    - rewrite Nat2Z.id, (rectangular_rowLength t w y Hrect Hy).
      replace (Z.to_nat (Z.of_nat (S x') - 1)) with x' by lia.
      repeat match goal with
             | |- context [?a <? ?b] => destruct (Z.ltb_spec a b); try lia
             | |- context [?a <=? ?b] => destruct (Z.leb_spec a b); try lia
             end. reflexivity. }
  assert (Heast : isColliding x y east t
                  = solidAt t (Z.of_nat x + 1) (Z.of_nat y)).
  { unfold isColliding, solidAt.
    rewrite Nat2Z.id, (rectangular_rowLength t w y Hrect Hy).
    replace (Z.to_nat (Z.of_nat x + 1)) with (x + 1)%nat by lia.
    repeat match goal with
           | |- context [?a <? ?b] => destruct (Z.ltb_spec a b); try lia
           | |- context [?a <=? ?b] => destruct (Z.leb_spec a b); try lia
           | |- context [?a =? ?b] => destruct (Z.eqb_spec a b); try lia
           end; reflexivity. }
  assert (Hnorth : isColliding x y north t
                   = solidAt t (Z.of_nat x) (Z.of_nat y - 1)).
  { unfold isColliding, solidAt. destruct y as [|y'].
    - destruct (Z.of_nat x <? 0); reflexivity.
    - replace (Z.to_nat (Z.of_nat (S y') - 1)) with y' by lia.
      rewrite Nat2Z.id, (rectangular_rowLength t w y' Hrect) by lia.
      repeat match goal with
             | |- context [?a <? ?b] => destruct (Z.ltb_spec a b); try lia
             | |- context [?a <=? ?b] => destruct (Z.leb_spec a b); try lia
             end. reflexivity. }
  assert (Hsouth : isColliding x y south t
                   = solidAt t (Z.of_nat x) (Z.of_nat y + 1)).
  { unfold isColliding, solidAt.
    replace (Z.to_nat (Z.of_nat y + 1)) with (y + 1)%nat by lia.
    rewrite Nat2Z.id.
    destruct (Z.eqb_spec (Z.of_nat y) (Z.of_nat (length t) - 1)) as [Hlast|Hin].
    - repeat match goal with
             | |- context [?a <? ?b] => destruct (Z.ltb_spec a b); try lia
             | |- context [?a <=? ?b] => destruct (Z.leb_spec a b); try lia
             end; reflexivity.
    - rewrite (rectangular_rowLength t w (y + 1) Hrect) by lia.
      repeat match goal with
             | |- context [?a <? ?b] => destruct (Z.ltb_spec a b); try lia
             | |- context [?a <=? ?b] => destruct (Z.leb_spec a b); try lia
             end. reflexivity. }
  rewrite Hwest, Heast, Hnorth, Hsouth. unfold flagIf.
  destruct (solidAt t (Z.of_nat x - 1) (Z.of_nat y));
    destruct (solidAt t (Z.of_nat x + 1) (Z.of_nat y));
    destruct (solidAt t (Z.of_nat x) (Z.of_nat y - 1));
    destruct (solidAt t (Z.of_nat x) (Z.of_nat y + 1));
    rewrite ?Z.lor_0_l, ?Z.lor_0_r; reflexivity.
Qed.

(** A solid cell that has been visited still reads as solid for the cell
    east or south of it, provided that cell is solid too. *)
Lemma maskedCell_solid td orig x y side :
  cardinalFlagsPositive td ->
  js_gt0 (tileAt orig x y) = true ->
  isColliding x y side orig = true ->
  js_gt0 (maskedCell td orig x y) = true.
Proof.
  intros Hpos Hsolid Hside. unfold maskedCell.
  destruct (tileAt orig x y) as [v|]; [|discriminate]. simpl in Hsolid.
  rewrite Hsolid. simpl. apply Z.ltb_lt.
  now apply getTileMask_pos with side.
Qed.

Lemma maskedCell_floor td orig x y :
  js_gt0 (tileAt orig x y) = false ->
  maskedCell td orig x y = tileAt orig x y.
Proof.
  unfold maskedCell. destruct (tileAt orig x y) as [v|]; [|reflexivity].
  simpl. now intros ->.
Qed.

(** While the pass runs, a solid cell sees the same collisions on the grid
    in progress as on the grid at the start. *)
Lemma isColliding_reached td orig t x y side :
  cardinalFlagsPositive td ->
  reachedAt orig (maskedCell td orig) x y t ->
  (x < rowLength orig y)%nat ->
  js_gt0 (tileAt orig x y) = true ->
  isColliding x y side t = isColliding x y side orig.
Proof.
  intros Hpos (Hlen & Hrl & Hcells) Hx Hsolid.
  assert (Hcell : forall x' y',
             tileAt t x' y' =
             if decide (visitedBefore x' y' x y)
             then (if decide (x' < rowLength orig y')%nat
                   then maskedCell td orig x' y' else None)
             else tileAt orig x' y').
  { intros x' y'. destruct (decide (x' < rowLength orig y')%nat) as [Hin|Hout].
    - apply Hcells, Hin.
    - rewrite !tileAt_None by (rewrite ?Hrl; lia). now destruct (decide _). }
  destruct side; unfold isColliding.
  - (* north *)
    destruct y as [|y']; [reflexivity|]. rewrite Hcell.
    destruct (decide _) as [_|Hnv]; [|exfalso; apply Hnv; left; lia].
    destruct (decide _) as [Hin|Hout];
      [|now rewrite tileAt_None by lia].
    destruct (js_gt0 (tileAt orig x y')) eqn:Hn.
    + apply maskedCell_solid with south; [assumption..|].
      unfold isColliding. rewrite Nat.add_1_r, Hsolid. apply orb_true_r.
    + now rewrite maskedCell_floor.
  - (* west *)
    destruct x as [|x']; [reflexivity|]. rewrite Hcell.
    destruct (decide _) as [_|Hnv]; [|exfalso; apply Hnv; right; lia].
    destruct (decide _) as [Hin|Hout]; [|lia].
    destruct (js_gt0 (tileAt orig x' y)) eqn:Hw.
    + apply maskedCell_solid with east; [assumption..|].
      unfold isColliding. rewrite Nat.add_1_r, Hsolid. apply orb_true_r.
    + now rewrite maskedCell_floor.
  - (* east *)
    rewrite Hrl, Hcell.
    destruct (decide _) as [Hv|_]; [|reflexivity].
    exfalso. unfold visitedBefore in Hv. lia.
  - (* south *)
    rewrite Hlen, Hcell.
    destruct (decide _) as [Hv|_]; [|reflexivity].
    exfalso. unfold visitedBefore in Hv. lia.
Qed.

(** The pass leaves in every cell what [maskedCell] says, although it runs
    in place: the cells it has already rewritten keep their solidity as far
    as the later cells can tell. *)
Lemma generateTileMask_cells td orig :
  cardinalFlagsPositive td ->
  length (generateTileMask td orig) = length orig /\
  (forall y, rowLength (generateTileMask td orig) y = rowLength orig y) /\
  (forall x y, (x < rowLength orig y)%nat ->
     tileAt (generateTileMask td orig) x y = maskedCell td orig x y).
Proof.
  intros Hpos. unfold generateTileMask. apply forEachCell_final.
  - intros t x y. destruct (js_gt0 (tileAt t x y)); eauto.
  - intros t x y Hx Hreach.
    assert (Hsame : tileAt t x y = tileAt orig x y).
    { destruct Hreach as (_ & _ & Hcells). rewrite (Hcells x y Hx).
      destruct (decide _) as [Hv|_]; [|reflexivity].
      exfalso. unfold visitedBefore in Hv. lia. }
    rewrite Hsame. destruct (js_gt0 (tileAt orig x y)) eqn:Hsolid.
    + assert (Hcol : forall side,
                 isColliding x y side t = isColliding x y side orig)
        by (intros side; now apply (isColliding_reached td)).
      rewrite tileAt_setTile_eq
        by (destruct Hreach as (_ & Hrl & _); now rewrite Hrl).
      unfold maskedCell. destruct (tileAt orig x y) as [v|]; [|discriminate].
      simpl in Hsolid. rewrite Hsolid. f_equal. unfold getTileMask.
      now rewrite !Hcol.
    + rewrite Hsame. symmetry. now apply maskedCell_floor.
Qed.

(** C4.  After [generateTileMask], on a rectangular grid and with positive
    flags: a cell that held a solid tile (a value above 0) holds the mask,
    over West, East, North and South, of its cardinal neighbours that were
    solid, a neighbour beyond the grid boundary counting as solid; any other
    cell holds what it held before. *)
Theorem generateTileMask_spec td orig w x y v :
  cardinalFlagsPositive td ->
  rectangular orig w ->
  tileAt orig x y = Some v ->
  tileAt (generateTileMask td orig) x y =
  Some (if 0 <? v then cardinalMask td orig x y else v).
Proof.
  intros Hpos Hrect Hcell.
  assert (Hx : (x < rowLength orig y)%nat)
    by (apply tileAt_is_Some; rewrite Hcell; eauto).
  pose proof (rowLength_lt_length orig x y Hx) as Hy.
  destruct (generateTileMask_cells td orig Hpos) as (_ & _ & Hcells).
  rewrite (Hcells x y Hx). unfold maskedCell. rewrite Hcell.
  destruct (0 <? v); [|reflexivity].
  rewrite (rectangular_rowLength orig w y Hrect Hy) in Hx.
  now rewrite (getTileMask_cardinalMask td orig w x y Hrect Hx Hy).
Qed.

(** ** Trees *)

Lemma TreeNode_nested_ind (P : TreeNode -> Prop) :
  (forall c l r,
      (forall t, l = Some t -> P t) -> (forall t, r = Some t -> P t) ->
      P (mkTreeNode c l r)) ->
  forall t, P t.
Proof.
  intros H. fix F 1. intros [c l r]. apply H.
  - destruct l as [tl|]; intros t E; [|discriminate].
    injection E as <-. apply F.
  - destruct r as [tr|]; intros t E; [|discriminate].
    injection E as <-. apply F.
Qed.

(** ** carveCorridors *)

Lemma inRectb_inside (r : Rectangle) (x y : nat) :
  inRectb r x y = true <-> inside r (Z.of_nat x) (Z.of_nat y).
Proof.
  unfold inRectb, inside. rewrite !andb_true_iff, !Z.geb_le, !Z.ltb_lt. tauto.
Qed.

(** Carving a rectangle: its cells become floor, the others keep their
    content, the grid keeps its shape. *)
Lemma carveRect_cells (r : Rectangle) (t : TileMap) :
  length (forEachCell (carveCell r) t) = length t /\
  (forall y, rowLength (forEachCell (carveCell r) t) y = rowLength t y) /\
  (forall x y, (x < rowLength t y)%nat ->
     tileAt (forEachCell (carveCell r) t) x y =
     if inRectb r x y then Some 0 else tileAt t x y).
Proof.
  apply (forEachCell_final (carveCell r) t
           (fun x y => if inRectb r x y then Some 0 else tileAt t x y)).
  - intros t' x y. unfold carveCell. destruct (_ && _); eauto.
  - intros t' x y Hx (_ & Hrl & Hcells).
    unfold carveCell. fold (inRectb r x y). destruct (inRectb r x y).
    + apply tileAt_setTile_eq. now rewrite Hrl.
    + rewrite (Hcells x y Hx). destruct (decide _) as [Hv|_]; [|reflexivity].
      exfalso. unfold visitedBefore in Hv. lia.
Qed.

Lemma carveRect_cell (r : Rectangle) (t : TileMap) x y v :
  tileAt t x y = Some v ->
  tileAt (forEachCell (carveCell r) t) x y =
  Some (if inRectb r x y then 0 else v).
Proof.
  intros Hcell. destruct (carveRect_cells r t) as (_ & _ & Hcells).
  rewrite Hcells by (apply tileAt_is_Some; rewrite Hcell; eauto).
  rewrite Hcell. now destruct (inRectb r x y).
Qed.

(** What [carveCorridors] leaves in the grid it writes to. *)
Lemma carveCorridors_cells node : forall props tilemap props',
  carveCorridors node props tilemap = Some props' ->
  forall x y v, tileAt props x y = Some v ->
    tileAt props' x y =
    Some (if existsb (fun cor => inRectb (corridor_rect cor) x y)
               (reachedCorridors node)
          then 0 else v).
Proof.
  induction node as [c l r IHl IHr] using TreeNode_nested_ind.
  intros props tilemap props' Hrun x y v Hcell.
  cbn [carveCorridors reachedCorridors] in *.
  destruct (corridor c) as [cor|].
  - destruct l as [tl|]; [|discriminate].
    destruct (carveCorridors tl _ tilemap) as [props1|] eqn:Hl; [|discriminate].
    destruct r as [tr|]; [|discriminate].
    pose proof (carveRect_cell (corridor_rect cor) props x y v Hcell) as H0.
    pose proof (IHl tl eq_refl _ _ _ Hl x y _ H0) as H1.
    pose proof (IHr tr eq_refl _ _ _ Hrun x y _ H1) as H2.
    rewrite H2. f_equal. cbn [existsb]. rewrite existsb_app.
    destruct (inRectb (corridor_rect cor) x y);
      destruct (existsb _ (reachedCorridors tl));
      destruct (existsb _ (reachedCorridors tr)); reflexivity.
  - injection Hrun as <-. now rewrite Hcell.
Qed.

Lemma omap_corridor_none (cs : list Container) :
  Forall (fun c => corridor c = None) cs -> omap corridor cs = [].
Proof.
  induction 1 as [|c cs Hc _ IH]; [reflexivity|].
  cbn [omap list_omap]. now rewrite Hc.
Qed.

Section CorridorStage.

Variables Traps_smallLarge Traps_smallLong : Pattern.
Variable direction : Corridor -> Direction.

(** In a tree that [generateCorridors] built, the traversal of
    [carveCorridors] reaches the corridor of every node and finds the
    children it descends into. *)
Lemma generateCorridors_reached tree0 : forall args g,
  Forall (fun c => corridor c = None) (allContainers tree0) ->
  reachedCorridors (fst (generateCorridors Traps_smallLarge Traps_smallLong direction
          tree0 args g))
  = nodeCorridors (fst (generateCorridors Traps_smallLarge Traps_smallLong direction
          tree0 args g)) /\
  forall props tilemap,
    is_Some (carveCorridors (fst (generateCorridors Traps_smallLarge Traps_smallLong direction
          tree0 args g)) props tilemap).
Proof.
  induction tree0 as [c l r IHl IHr] using TreeNode_nested_ind.
  intros args g Hfree.
  assert (Hbottom :
            (l = None \/ r = None) ->
            reachedCorridors (mkTreeNode c l r)
            = nodeCorridors (mkTreeNode c l r) /\
            forall props tilemap,
              is_Some (carveCorridors (mkTreeNode c l r) props tilemap)).
  { intros _. unfold nodeCorridors. rewrite (omap_corridor_none _ Hfree).
    apply Forall_cons_1 in Hfree as [Hc _].
    cbn [reachedCorridors carveCorridors]. rewrite Hc. eauto. }
  destruct l as [tl|]; [|apply Hbottom; now left].
  destruct r as [tr|]; [|apply Hbottom; now right].
  clear Hbottom. cbn [allContainers] in Hfree.
  apply Forall_cons_1 in Hfree as [_ Hfree].
  apply Forall_app in Hfree as [Hfl Hfr].
  cbn [generateCorridors].
  destruct (randomWeights _ _ g) as [hasTrap g1].
  specialize (IHl tl eq_refl args g1 Hfl).
  destruct (generateCorridors _ _ _ tl args g1) as [l' g2].
  specialize (IHr tr eq_refl args g2 Hfr).
  destruct (generateCorridors _ _ _ tr args g2) as [r' g3].
  cbn [fst] in *. destruct IHl as [Hrl Hcl]. destruct IHr as [Hrr Hcr].
  split.
  - unfold nodeCorridors in *.
    cbn [reachedCorridors allContainers corridor omap list_omap].
    rewrite omap_app, Hrl, Hrr. reflexivity.
  - intros props tilemap. cbn [carveCorridors corridor].
    match goal with
    | |- context [carveCorridors l' ?p tilemap] =>
        destruct (Hcl p tilemap) as [props1 ->]
    end.
    apply Hcr.
Qed.

(** C3, as the code has it.  In the corridor-carving stage of
    [generateTilemap], on a tree whose corridors [generateCorridors] built:
    the stage succeeds, every cell of the TILE grid that lies within the
    corridor of some node holds floor (0) afterwards, every other cell of
    the tile grid holds what it held before, and the PROP grid is left as it
    was. *)
Theorem carveCorridors_stage tree0 args g tilemap props :
  Forall (fun c => corridor c = None) (allContainers tree0) ->
  let tree := fst (generateCorridors Traps_smallLarge Traps_smallLong direction
          tree0 args g) in
  exists tilemap',
    carveCorridorsStage tree tilemap props = Some (tilemap', props) /\
    forall x y v, tileAt tilemap x y = Some v ->
      (forall cor, cor ∈ nodeCorridors tree ->
         inside (corridor_rect cor) (Z.of_nat x) (Z.of_nat y) ->
         tileAt tilemap' x y = Some 0) /\
      ((forall cor, cor ∈ nodeCorridors tree ->
          ~ inside (corridor_rect cor) (Z.of_nat x) (Z.of_nat y)) ->
       tileAt tilemap' x y = Some v).
Proof.
  intros Hfree tree.
  destruct (generateCorridors_reached tree0 args g Hfree) as [Hreach Hsome].
  fold tree in Hreach, Hsome.
  destruct (Hsome tilemap props) as [tilemap' Hrun].
  exists tilemap'. unfold carveCorridorsStage. rewrite Hrun.
  split; [reflexivity|]. intros x y v Hcell.
  rewrite (carveCorridors_cells tree _ _ _ Hrun x y v Hcell), Hreach.
  split.
  - intros cor Hin Hins.
    assert (existsb (fun cor0 => inRectb (corridor_rect cor0) x y)
              (nodeCorridors tree) = true) as ->; [|reflexivity].
    apply existsb_exists. exists cor. split.
    + now apply list_elem_of_In.
    + now apply inRectb_inside.
  - intros Hout.
    destruct (existsb _ (nodeCorridors tree)) eqn:Hex; [|reflexivity].
    apply existsb_exists in Hex as (cor & Hin & Hb).
    exfalso. apply (Hout cor); [now apply list_elem_of_In|].
    now apply inRectb_inside.
Qed.

End CorridorStage.

(** ** The random source *)

(** [random] answers within its bounds. *)
Lemma random_range (min max : Z) (g : RNG) :
  unit_draws g -> min <= max ->
  min <= fst (random min max g) <= max.
Proof.
  intros Hu Hle. unfold random, Math_random. cbn [fst].
  destruct (Hu (cursor g)) as [H0 H1].
  set (u := draws g (cursor g)) in *.
  assert (Hd : (0 <= inject_Z (max - min))%Q)
    by (change 0%Q with (inject_Z 0); rewrite <- Zle_Qle; lia).
  assert (Hlo : 0 <= Qfloor (u * inject_Z (max - min))%Q).
  { change 0 with (Qfloor 0). apply Qfloor_resp_le.
    now apply Qmult_le_0_compat. }
  assert (Hhi : Qfloor (u * inject_Z (max - min))%Q <= max - min).
  { rewrite <- (Qfloor_Z (max - min)) at 2. apply Qfloor_resp_le.
    rewrite <- (Qmult_1_l (inject_Z (max - min))) at 2.
    apply Qmult_le_compat_r; [|exact Hd]. now apply Qlt_le_weak. }
  lia.
Qed.

(** ** generateRooms *)

Lemma roomRectangle_state args c g :
  unit_draws g -> unit_draws (snd (roomRectangle args c g)).
Proof. intros H n. exact (H n). Qed.

(** The computed room lies within its container. *)
Lemma roomRectangle_contained args c g :
  0 <= containerGutterWidth args -> unit_draws g -> nonnegSides c ->
  contained (fst (roomRectangle args c g)) (rect c).
Proof.
  intros Hg Hu [Hw Hh]. unfold roomRectangle.
  assert (Hw4 : 0 <= rwidth (rect c) / 4) by (apply Z.div_pos; lia).
  assert (Hh4 : 0 <= rheight (rect c) / 4) by (apply Z.div_pos; lia).
  pose proof (random_range 0 (rwidth (rect c) / 4) g Hu Hw4) as Hjx.
  destruct (random 0 (rwidth (rect c) / 4) g) as [jx g1] eqn:E1.
  assert (Hu1 : unit_draws g1)
    by (replace g1 with (snd (random 0 (rwidth (rect c) / 4) g))
          by (now rewrite E1); exact Hu).
  pose proof (random_range 0 (rheight (rect c) / 4) g1 Hu1 Hh4) as Hjy.
  destruct (random 0 (rheight (rect c) / 4) g1) as [jy g2] eqn:E2.
  assert (Hu2 : unit_draws g2)
    by (replace g2 with (snd (random 0 (rheight (rect c) / 4) g1))
          by (now rewrite E2); exact Hu1).
  pose proof (random_range 0 (rwidth (rect c) / 4) g2 Hu2 Hw4) as Hjw.
  destruct (random 0 (rwidth (rect c) / 4) g2) as [jw g3] eqn:E3.
  assert (Hu3 : unit_draws g3)
    by (replace g3 with (snd (random 0 (rwidth (rect c) / 4) g2))
          by (now rewrite E3); exact Hu2).
  pose proof (random_range 0 (rheight (rect c) / 4) g3 Hu3 Hh4) as Hjh.
  destruct (random 0 (rheight (rect c) / 4) g3) as [jh g4] eqn:E4.
  cbn [fst] in *. unfold contained, rright, rdown. cbn. lia.
Qed.

Section Rooms.

Variable Holes_all : list Pattern.
Variable args : DungeonArgs.

Lemma generateRoom_state c g :
  unit_draws g -> unit_draws (snd (generateRoom Holes_all args c g)).
Proof.
  intros Hu. unfold generateRoom.
  pose proof (roomRectangle_state args c g Hu) as Hu4.
  destruct (roomRectangle args c g) as [r g4]. cbn [snd] in Hu4.
  destruct (belowMinSize args r); [exact Hu4|].
  unfold holeCoin. destruct (randomWeights _ _ g4) as [hasHole g5] eqn:E.
  unfold randomWeights, Math_random in E. injection E as _ <-.
  destruct hasHole as [[|]|]; exact Hu4.
Qed.

(** The scan of the library attaches the first pattern that fits. *)
Lemma attachHole_attached r hole hs :
  fold_left attachHole hs (mkRoom r (Some hole)) = mkRoom r (Some hole).
Proof. induction hs as [|h hs IH]; [reflexivity|]. exact IH. Qed.

Lemma attachHole_find r hs :
  fold_left attachHole hs (mkRoom r None)
  = mkRoom r (List.find (holeFits r) hs).
Proof.
  induction hs as [|h hs IH]; [reflexivity|].
  cbn [fold_left List.find]. unfold attachHole at 2, holeFits at 1.
  cbn [holes room_rect]. rewrite !Z.geb_leb.
  replace (bool_decide (is_Some (@None Pattern))) with false
    by (symmetry; apply bool_decide_eq_false; intros [? ?]; discriminate).
  cbn [negb andb].
  destruct ((pwidth h * 2 <=? rwidth r) && (pheight h * 2 <=? rheight r)).
  - apply attachHole_attached.
  - exact IH.
Qed.

(** Every leaf is visited once, leftmost first, each with the random source
    as the leaves before it left it. *)
Lemma generateRooms_leaves (P : Container -> Prop)
  (R : Container -> Container -> Prop) :
  (forall c g, P c -> unit_draws g ->
     R c (fst (generateRoom Holes_all args c g))) ->
  forall node g, Forall P (leaves node) -> unit_draws g ->
    Forall2 R (leaves node) (leaves (fst (generateRooms Holes_all node args g)))
    /\ unit_draws (snd (generateRooms Holes_all node args g)).
Proof.
  intros Hstep.
  induction node as [c l r IHl IHr] using TreeNode_nested_ind.
  intros g HP Hu.
  assert (Hbottom :
            Forall P [c] ->
            let res := generateRoom Holes_all args c g in
            Forall2 R [c] [fst res] /\ unit_draws (snd res)).
  { intros Hc. apply Forall_cons_1 in Hc as [Hc _]. split.
    - constructor; [now apply Hstep | constructor].
    - now apply generateRoom_state. }
  destruct l as [tl|];
    [|cbn [generateRooms leaves] in *;
      destruct (generateRoom Holes_all args c g); now apply Hbottom].
  destruct r as [tr|];
    [|cbn [generateRooms leaves] in *;
      destruct (generateRoom Holes_all args c g); now apply Hbottom].
  clear Hbottom. cbn [generateRooms leaves] in *.
  apply Forall_app in HP as [HPl HPr].
  destruct (IHl tl eq_refl g HPl Hu) as [Hl Hu1].
  destruct (generateRooms Holes_all tl args g) as [l' g1].
  destruct (IHr tr eq_refl g1 HPr Hu1) as [Hr Hu2].
  destruct (generateRooms Holes_all tr args g1) as [r' g2].
  cbn [fst snd leaves] in *. split; [|exact Hu2].
  now apply Forall2_app.
Qed.

End Rooms.

Section RoomClaims.

Variable Holes_all : list Pattern.
Variable args : DungeonArgs.

Lemma generateRoom_outcome c g :
  0 <= containerGutterWidth args -> unit_draws g -> nonnegSides c ->
  roomOutcome args c (fst (generateRoom Holes_all args c g)) g.
Proof.
  intros Hg Hu Hc. unfold roomOutcome, generateRoom.
  pose proof (roomRectangle_contained args c g Hg Hu Hc) as Hin.
  destruct (roomRectangle args c g) as [r g4]. cbn [fst] in *.
  destruct (belowMinSize args r) eqn:Hmin; [reflexivity|].
  destruct (holeCoin args g4) as [hasHole g5]. cbn [fst rect corridor room].
  split; [reflexivity|]. split; [reflexivity|]. split.
  - eexists. split; [reflexivity|].
    destruct hasHole as [[|]|]; try reflexivity.
    now rewrite attachHole_find.
  - split; [exact Hin|]. unfold belowMinSize in Hmin.
    apply orb_false_iff in Hmin as [Hw Hh].
    apply Z.ltb_ge in Hw, Hh. now split.
Qed.

Lemma generateRoom_hole c g :
  holeOutcome Holes_all args c (fst (generateRoom Holes_all args c g)) g.
Proof.
  unfold holeOutcome, generateRoom.
  destruct (roomRectangle args c g) as [r g4]. cbn [fst snd].
  intros ->. destruct (holeCoin args g4) as [hasHole g5]. cbn [fst room].
  eexists. split; [reflexivity|].
  destruct hasHole as [[|]|]; try reflexivity.
  now rewrite attachHole_find.
Qed.

(** A coin whose chance of true is zero answers false. *)
Lemma holeCoin_zero g :
  (roomHoleChance args == 0)%Q -> unit_draws g ->
  fst (holeCoin args g) = Some false.
Proof.
  intros Hz Hu. unfold holeCoin, randomWeights, Math_random. cbn [fst].
  cbn [pickWeighted].
  assert (Qltb (draws g (cursor g)) (roomHoleChance args) = false) as ->;
    [|reflexivity].
  apply Qltb_false. rewrite Hz. apply (Hu (cursor g)).
Qed.

Lemma Forall2_right {A B : Type} (R : A -> B -> Prop) (Q : B -> Prop) l k :
  (forall a b, R a b -> Q b) -> Forall2 R l k -> Forall Q k.
Proof. intros H. induction 1; constructor; eauto. Qed.



End RoomClaims.

(** ** generateMonsters *)

Lemma Forall2_transfer {A B : Type} (R : A -> B -> Prop) (P : A -> Prop)
  (Q : B -> Prop) l k :
  (forall a b, P a -> R a b -> Q b) ->
  Forall2 R l k -> Forall P l -> Forall Q k.
Proof.
  intros H. induction 1 as [|a b l k Hab _ IH]; intros HP; constructor.
  - apply Forall_cons_1 in HP as [Ha _]. eauto.
  - apply IH. now apply Forall_cons_1 in HP as [_ ?].
Qed.

Section Monsters.

Variable PoissonDiscSampling_fill : Z -> Z -> RNG -> list (Q * Q) * RNG.
Variable shuffleArray : list (Q * Q) -> RNG -> list (Q * Q) * RNG.
Variable args : DungeonArgs.

Hypothesis fill_within : samplesWithinShape PoissonDiscSampling_fill.
Hypothesis shuffle_permutes : shufflePermutes shuffleArray.
Hypothesis max_nonneg : 0 <= roomMaxMonsters args.

(** One monster per kept point, in the order of the points. *)
Lemma placeMonster_fold rm points : forall ms0 g,
  exists ms g',
    fold_left (placeMonster rm args) points (ms0, g) = (ms0 ++ ms, g') /\
    Forall2 (placedAt rm (roomGutterWidth args)) points ms.
Proof.
  induction points as [|p points IH]; intros ms0 g.
  - exists [], g. rewrite app_nil_r. split; [reflexivity | constructor].
  - cbn [fold_left]. unfold placeMonster at 2.
    destruct (randomWeights _ _ g) as [type g1].
    destruct (IH (ms0 ++ [mkMonster
                            (inject_Z (rx (room_rect rm) + roomGutterWidth args)
                             + fst p)%Q
                            (inject_Z (ry (room_rect rm) + roomGutterWidth args)
                             + snd p)%Q 3 type]) g1)
      as (ms & g' & Hrun & Hpl).
    eexists (_ :: ms), g'. rewrite Hrun, <- app_assoc. split; [reflexivity|].
    constructor; [|exact Hpl]. split; reflexivity.
Qed.

Lemma slice0_take {A : Type} (l : list A) :
  slice0 (roomMaxMonsters args) l = take (Z.to_nat (roomMaxMonsters args)) l.
Proof.
  unfold slice0. destruct (Z.ltb_spec (roomMaxMonsters args) 0); [lia|].
  reflexivity.
Qed.

Lemma placedAt_interior rm p m w h :
  w = rwidth (room_rect rm) - roomGutterWidth args * 2 ->
  h = rheight (room_rect rm) - roomGutterWidth args * 2 ->
  (0 <= fst p)%Q /\ (fst p < inject_Z w)%Q /\
  (0 <= snd p)%Q /\ (snd p < inject_Z h)%Q ->
  placedAt rm (roomGutterWidth args) p m ->
  inInterior rm (roomGutterWidth args) m.
Proof.
  intros -> -> (Hx0 & Hx1 & Hy0 & Hy1) [Hmx Hmy].
  unfold inInterior, rright, rdown. rewrite Hmx, Hmy.
  repeat split.
  - rewrite <- (Qplus_0_r (inject_Z _)) at 1.
    now apply Qplus_le_r.
  - replace (rx (room_rect rm) + rwidth (room_rect rm) - roomGutterWidth args)
      with ((rx (room_rect rm) + roomGutterWidth args)
            + (rwidth (room_rect rm) - roomGutterWidth args * 2)) by lia.
    rewrite (inject_Z_plus (rx (room_rect rm) + roomGutterWidth args)).
    now apply Qplus_lt_r.
  - rewrite <- (Qplus_0_r (inject_Z _)) at 1.
    now apply Qplus_le_r.
  - replace (ry (room_rect rm) + rheight (room_rect rm) - roomGutterWidth args)
      with ((ry (room_rect rm) + roomGutterWidth args)
            + (rheight (room_rect rm) - roomGutterWidth args * 2)) by lia.
    rewrite (inject_Z_plus (ry (room_rect rm) + roomGutterWidth args)).
    now apply Qplus_lt_r.
Qed.

(** The monsters that one leaf adds. *)
Lemma monstersOfLeaf_group c ms0 g :
  exists ms g',
    monstersOfLeaf PoissonDiscSampling_fill shuffleArray args (ms0, g) c
    = (ms0 ++ ms, g') /\
    monstersOfRoom PoissonDiscSampling_fill args c ms.
Proof.
  unfold monstersOfLeaf, monstersOfRoom.
  destruct (room c) as [rm|];
    [|exists [], g; now rewrite app_nil_r].
  unfold samplePoints. cbn [fst snd].
  set (w := rwidth (room_rect rm) - roomGutterWidth args * 2).
  set (h := rheight (room_rect rm) - roomGutterWidth args * 2).
  pose proof (fill_within w h g) as Hin.
  destruct (PoissonDiscSampling_fill w h g) as [points g1] eqn:Hfill.
  pose proof (shuffle_permutes points g1) as Hperm.
  destruct (shuffleArray points g1) as [shuffled g2]. cbn [fst] in *.
  rewrite slice0_take.
  destruct (placeMonster_fold rm (take (Z.to_nat (roomMaxMonsters args)) shuffled)
              ms0 g2) as (ms & g' & Hrun & Hpl).
  exists ms, g'. split; [exact Hrun|]. exists g. rewrite Hfill. cbn [fst].
  pose proof (Forall2_length _ _ _ Hpl) as Hlen.
  rewrite length_take in Hlen.
  pose proof (Permutation_length Hperm) as Hplen.
  split; [lia|]. split; [lia|].
  assert (Hkept : Forall (fun p => p ∈ points)
                    (take (Z.to_nat (roomMaxMonsters args)) shuffled)).
  { apply Forall_take, Forall_forall. intros p Hp.
    apply list_elem_of_In. apply (Permutation_in p Hperm).
    now apply list_elem_of_In. }
  refine (Forall2_transfer _ _ _ _ _ _ Hpl Hkept).
  intros p m Hp Hpm. split; [eauto|].
  apply (placedAt_interior rm p m w h eq_refl eq_refl (Hin p Hp) Hpm).
Qed.

Lemma monstersOfLeaf_fold cs : forall ms0 g,
  exists groups g',
    fold_left (monstersOfLeaf PoissonDiscSampling_fill shuffleArray args)
      cs (ms0, g) = (ms0 ++ concat groups, g') /\
    Forall2 (monstersOfRoom PoissonDiscSampling_fill args) cs groups.
Proof.
  induction cs as [|c cs IH]; intros ms0 g.
  - exists [], g. cbn. rewrite app_nil_r. split; [reflexivity | constructor].
  - cbn [fold_left].
    destruct (monstersOfLeaf_group c ms0 g) as (ms & g1 & -> & Hgroup).
    destruct (IH (ms0 ++ ms) g1) as (groups & g' & -> & Hgroups).
    exists (ms :: groups), g'. cbn [concat]. rewrite <- app_assoc.
    split; [reflexivity|]. now constructor.
Qed.


End Monsters.

(** ** The constructor *)

Lemma contained_refl r : contained r r.
Proof. unfold contained. lia. Qed.

Lemma contained_trans a b c : contained a b -> contained b c -> contained a c.
Proof. unfold contained. lia. Qed.

(** The children of a returned split lie within the parent and have sides
    that are not negative. *)
Lemma splitContainer_children fuel container args g l r g' :
  splitContainer fuel container args g = Some (l, r, g') ->
  (0 <= containerWidthRatio args)%Q -> (0 <= containerHeightRatio args)%Q ->
  nonnegSides container ->
  (contained (rect l) (rect container) /\ nonnegSides l /\
   room l = None /\ corridor l = None) /\
  (contained (rect r) (rect container) /\ nonnegSides r /\
   room r = None /\ corridor r = None).
Proof.
  intros Hrun Hwr Hhr [Hw Hh]. apply splitContainer_inv in Hrun.
  cbv zeta in Hrun.
  destruct Hrun as [(w & -> & -> & Hl & Hr) | (h & -> & -> & Hl & Hr)].
  - pose proof (accepted_nonneg _ _ _ Hl Hwr Hh).
    pose proof (accepted_nonneg _ _ _ Hr Hwr Hh).
    unfold contained, nonnegSides, rright, rdown. cbn. repeat split; lia.
  - pose proof (accepted_nonneg _ _ _ Hl Hhr Hw).
    pose proof (accepted_nonneg _ _ _ Hr Hhr Hw).
    unfold contained, nonnegSides, rright, rdown. cbn. repeat split; lia.
Qed.

(** Every container of a generated tree lies within the container the tree
    was generated from, and is as [new Container] made it. *)
Lemma generateTree_containers fuel : forall container iters args g t g',
  generateTree fuel container iters args g = Some (t, g') ->
  (0 <= containerWidthRatio args)%Q -> (0 <= containerHeightRatio args)%Q ->
  nonnegSides container -> room container = None ->
  corridor container = None ->
  Forall (fun c => contained (rect c) (rect container) /\ nonnegSides c /\
                   room c = None /\ corridor c = None)
    (allContainers t).
Proof.
  induction fuel as [|fuel IH]; intros container iters args g t g' Hrun
    Hwr Hhr Hsides Hroom Hcor; [discriminate|].
  cbn [generateTree] in Hrun. destruct (iters =? 0).
  - injection Hrun as <- <-. cbn. constructor; [|constructor].
    auto using contained_refl.
  - destruct (splitContainer fuel container args g) as [[[l r] g1]|] eqn:Hs;
      [|discriminate].
    destruct (generateTree fuel l (iters - 1) args g1) as [[tl g2]|] eqn:Hl;
      [|discriminate].
    destruct (generateTree fuel r (iters - 1) args g2) as [[tr g3]|] eqn:Hr;
      [|discriminate].
    injection Hrun as <- <-.
    destruct (splitContainer_children _ _ _ _ _ _ _ Hs Hwr Hhr Hsides)
      as [(Hlc & Hls & Hlr & Hlk) (Hrc & Hrs & Hrr & Hrk)].
    cbn [allContainers]. constructor; [auto using contained_refl|].
    apply Forall_app. split.
    + eapply Forall_impl; [exact (IH _ _ _ _ _ _ Hl Hwr Hhr Hls Hlr Hlk)|].
      cbn. intros c (Hin & ?). split; [|assumption].
      now apply contained_trans with (rect l).
    + eapply Forall_impl; [exact (IH _ _ _ _ _ _ Hr Hwr Hhr Hrs Hrr Hrk)|].
      cbn. intros c (Hin & ?). split; [|assumption].
      now apply contained_trans with (rect r).
Qed.

Section ConstructorClaims.

Variable Holes_all : list Pattern.
Variables Traps_smallLarge Traps_smallLong : Pattern.
Variable direction : Corridor -> Direction.
Variable args : DungeonArgs.

(** [generateRooms] touches the leaves only, with [generateRoom]; [I] is
    what is known of the random source. *)
Lemma generateRooms_containers (P : Container -> Prop) (I : RNG -> Prop) :
  (forall c g, I g -> I (snd (generateRoom Holes_all args c g))) ->
  (forall c g, P c -> I g -> P (fst (generateRoom Holes_all args c g))) ->
  forall node g, Forall P (allContainers node) -> I g ->
    Forall P (allContainers (fst (generateRooms Holes_all node args g))) /\
    I (snd (generateRooms Holes_all node args g)).
Proof.
  intros Hstate Hstep.
  induction node as [c l r IHl IHr] using TreeNode_nested_ind.
  intros g HP Hu.
  assert (Hbottom :
            l = None \/ r = None ->
            Forall P (allContainers
                        (fst (generateRooms Holes_all (mkTreeNode c l r) args g)))
            /\ I (snd (generateRooms Holes_all (mkTreeNode c l r) args g))).
  { intros Hlr.
    assert (generateRooms Holes_all (mkTreeNode c l r) args g
            = (mkTreeNode (fst (generateRoom Holes_all args c g)) l r,
               snd (generateRoom Holes_all args c g))) as ->.
    { cbn [generateRooms]. destruct (generateRoom Holes_all args c g).
      destruct Hlr as [-> | ->]; [reflexivity|]. now destruct l. }
    cbn [fst snd allContainers] in *. apply Forall_cons_1 in HP as [Hc Hrest].
    split; [|now apply Hstate].
    constructor; [now apply Hstep | exact Hrest]. }
  destruct l as [tl|]; [|apply Hbottom; now left].
  destruct r as [tr|]; [|apply Hbottom; now right].
  clear Hbottom. cbn [generateRooms allContainers] in *.
  apply Forall_cons_1 in HP as [Hc HP].
  apply Forall_app in HP as [HPl HPr].
  destruct (IHl tl eq_refl g HPl Hu) as [Hl Hu1].
  destruct (generateRooms Holes_all tl args g) as [l' g1].
  destruct (IHr tr eq_refl g1 HPr Hu1) as [Hr Hu2].
  destruct (generateRooms Holes_all tr args g1) as [r' g2].
  cbn [fst snd allContainers] in *. split; [|exact Hu2].
  constructor; [exact Hc|]. now apply Forall_app.
Qed.

(** [generateCorridors] changes the corridor of a container only. *)
Lemma generateCorridors_containers (P : Container -> Prop) :
  (forall c cor, P c -> P (mkContainer (rect c) (room c) (Some cor))) ->
  forall node g, Forall P (allContainers node) ->
    Forall P (allContainers
                (fst (generateCorridors Traps_smallLarge Traps_smallLong
                        direction node args g))).
Proof.
  intros Hstep.
  induction node as [c l r IHl IHr] using TreeNode_nested_ind.
  intros g HP.
  destruct l as [tl|]; [|exact HP].
  destruct r as [tr|]; [|exact HP].
  cbn [generateCorridors allContainers] in *.
  apply Forall_cons_1 in HP as [Hc HP].
  apply Forall_app in HP as [HPl HPr].
  destruct (randomWeights _ _ g) as [hasTrap g1].
  specialize (IHl tl eq_refl g1 HPl).
  destruct (generateCorridors _ _ _ tl args g1) as [l' g2].
  specialize (IHr tr eq_refl g2 HPr).
  destruct (generateCorridors _ _ _ tr args g2) as [r' g3].
  cbn [fst allContainers] in *.
  constructor; [now apply Hstep|]. now apply Forall_app.
Qed.

Lemma generateCorridors_root node g :
  rect (leaf (fst (generateCorridors Traps_smallLarge Traps_smallLong
                     direction node args g)))
  = rect (leaf node).
Proof.
  destruct node as [c [tl|] [tr|]]; try reflexivity.
  cbn [generateCorridors]. destruct (randomWeights _ _ g) as [hasTrap g1].
  destruct (generateCorridors _ _ _ tl args g1) as [l' g2].
  destruct (generateCorridors _ _ _ tr args g2) as [r' g3]. reflexivity.
Qed.

Lemma generateRooms_root node g :
  rect (leaf (fst (generateRooms Holes_all node args g))) = rect (leaf node).
Proof.
  assert (Hroom : forall c, rect (fst (generateRoom Holes_all args c g)) = rect c).
  { intros c. unfold generateRoom. destruct (roomRectangle args c g) as [r g4].
    destruct (belowMinSize args r); [reflexivity|].
    now destruct (holeCoin args g4). }
  destruct node as [c [tl|] [tr|]]; cbn [generateRooms];
    try (specialize (Hroom c); destruct (generateRoom Holes_all args c g);
         exact Hroom).
  destruct (generateRooms Holes_all tl args g) as [l' g1].
  destruct (generateRooms Holes_all tr args g1) as [r' g2]. reflexivity.
Qed.

Lemma generateTree_root fuel container iters g t g' :
  generateTree fuel container iters args g = Some (t, g') ->
  leaf t = container.
Proof.
  destruct fuel as [|fuel]; [discriminate|]. cbn [generateTree].
  destruct (iters =? 0); [now intros [= <- <-]|].
  destruct (splitContainer fuel container args g) as [[[l r] g1]|];
    [|discriminate].
  destruct (generateTree fuel l (iters - 1) args g1) as [[tl g2]|];
    [|discriminate].
  destruct (generateTree fuel r (iters - 1) args g2) as [[tr g3]|];
    [|discriminate].
  now intros [= <- <-].
Qed.

(** The random source after [generateTree]. *)
Lemma splitContainer_state fuel : forall container g l r g',
  splitContainer fuel container args g = Some (l, r, g') ->
  unit_draws g -> unit_draws g'.
Proof.
  induction fuel as [|fuel IH]; intros container g l r g' Hrun Hu;
    [discriminate|].
  cbn [splitContainer] in Hrun.
  unfold randomWeights, random, Math_random in Hrun. cbn [cursor draws] in Hrun.
  destruct (pickWeighted _ _ _) as [[|]|];
    match type of Hrun with
    | (if ?b then _ else _) = _ =>
        destruct b; [eapply IH; [exact Hrun|] | injection Hrun as _ _ <-]
    end; exact Hu.
Qed.

Lemma generateTree_state fuel : forall container iters g t g',
  generateTree fuel container iters args g = Some (t, g') ->
  unit_draws g -> unit_draws g'.
Proof.
  induction fuel as [|fuel IH]; intros container iters g t g' Hrun Hu;
    [discriminate|].
  cbn [generateTree] in Hrun. destruct (iters =? 0).
  - now injection Hrun as _ <-.
  - destruct (splitContainer fuel container args g) as [[[l r] g1]|] eqn:Hs;
      [|discriminate].
    destruct (generateTree fuel l (iters - 1) args g1) as [[tl g2]|] eqn:Hl;
      [|discriminate].
    destruct (generateTree fuel r (iters - 1) args g2) as [[tr g3]|] eqn:Hr;
      [|discriminate].
    injection Hrun as _ <-.
    eauto using splitContainer_state.
Qed.

End ConstructorClaims.

Section RootClaim.

Variable Holes_all : list Pattern.
Variables Traps_smallLarge Traps_smallLong : Pattern.
Variable direction : Corridor -> Direction.
Variable args : DungeonArgs.

Lemma generateRoom_rect c g :
  rect (fst (generateRoom Holes_all args c g)) = rect c.
Proof.
  unfold generateRoom. destruct (roomRectangle args c g) as [r g4].
  destruct (belowMinSize args r); [reflexivity|].
  now destruct (holeCoin args g4).
Qed.

Lemma generateRoom_keptWithin bounds c g :
  0 <= containerGutterWidth args -> unit_draws g ->
  keptWithin bounds c /\ nonnegSides c ->
  keptWithin bounds (fst (generateRoom Holes_all args c g)) /\
  nonnegSides (fst (generateRoom Holes_all args c g)).
Proof.
  intros Hg Hu ([Hin Hrm] & Hsides).
  pose proof (generateRoom_outcome Holes_all args c g Hg Hu Hsides) as Hout.
  unfold roomOutcome in Hout.
  destruct (belowMinSize args (fst (roomRectangle args c g))).
  - rewrite Hout. split; [split|]; assumption.
  - destruct Hout as (Hrect & _ & (rm & Hroom & Hr) & Hc & _).
    split; [split|].
    + now rewrite Hrect.
    + intros rm' Hrm'. rewrite Hroom in Hrm'. injection Hrm' as <-.
      rewrite Hr. now apply contained_trans with (rect c).
    + unfold nonnegSides. now rewrite Hrect.
Qed.

(** C10, as the code has it.  The root container of the tree is the map
    inset by [mapGutterWidth] on every side.  When the minimum ratios are
    not negative and the map is at least two gutters wide and high, every
    container of the tree lies within the root rectangle; when moreover
    [containerGutterWidth] is not negative and the random source answers in
    [0, 1), so does every room.  Hence no container and no room reaches into
    the border of the map.  (Nothing is said of the corridors.) *)
Theorem dungeonTree_within_root fuel g tree g' :
  dungeonTree Holes_all Traps_smallLarge Traps_smallLong direction fuel args g
  = Some (tree, g') ->
  let root := mkRectangle (mapGutterWidth args) (mapGutterWidth args)
                (mapWidth args - mapGutterWidth args * 2)
                (mapHeight args - mapGutterWidth args * 2) in
  rect (leaf tree) = root /\
  ((0 <= containerWidthRatio args)%Q -> (0 <= containerHeightRatio args)%Q ->
   mapGutterWidth args * 2 <= mapWidth args ->
   mapGutterWidth args * 2 <= mapHeight args ->
   Forall (fun c => contained (rect c) root) (allContainers tree) /\
   (0 <= containerGutterWidth args -> unit_draws g ->
    Forall (fun c => forall rm, room c = Some rm ->
                                contained (room_rect rm) root)
      (allContainers tree))).
Proof.
  intros Hrun root. unfold dungeonTree in Hrun.
  destruct (generateTree fuel (rootContainer args) (iterations args) args g)
    as [[t0 g1]|] eqn:Htree; [|discriminate].
  destruct (generateRooms Holes_all t0 args g1) as [t1 g2] eqn:Hrooms.
  injection Hrun as Hrun.
  assert (Ht1 : t1 = fst (generateRooms Holes_all t0 args g1))
    by now rewrite Hrooms.
  assert (Htr : tree = fst (generateCorridors Traps_smallLarge Traps_smallLong
                              direction t1 args g2)) by now rewrite Hrun.
  split.
  - rewrite Htr, generateCorridors_root, Ht1, generateRooms_root.
    now rewrite (generateTree_root args _ _ _ _ _ _ Htree).
  - intros Hwr Hhr Hw Hh.
    assert (Hroot : nonnegSides (rootContainer args))
      by (unfold nonnegSides; cbn; lia).
    pose proof (generateTree_containers _ _ _ _ _ _ _ Htree Hwr Hhr Hroot
                  eq_refl eq_refl) as H0.
    change (rect (rootContainer args)) with root in H0.
    split.
    + rewrite Htr. apply generateCorridors_containers; [auto|].
      rewrite Ht1.
      refine (proj1 (generateRooms_containers Holes_all args
                       (fun c => contained (rect c) root) (fun _ => True)
                       _ _ t0 g1 _ I)); [auto| |].
      * intros c gi Hc _. now rewrite generateRoom_rect.
      * eapply Forall_impl; [exact H0|]. now intros c (? & _).
    + intros Hg Hu.
      pose proof (generateTree_state args _ _ _ _ _ _ Htree Hu) as Hu1.
      assert (H1 : Forall (fun c => keptWithin root c /\ nonnegSides c)
                     (allContainers t1)).
      { rewrite Ht1.
        refine (proj1 (generateRooms_containers Holes_all args _ unit_draws
                         _ _ t0 g1 _ Hu1)).
        - intros c gi. apply generateRoom_state.
        - intros c gi Hc Hgi. now apply generateRoom_keptWithin.
        - eapply Forall_impl; [exact H0|].
          intros c (Hin & Hs & Hnone & _). split; [|exact Hs].
          split; [exact Hin|]. intros rm. rewrite Hnone. discriminate. }
      rewrite Htr.
      apply (generateCorridors_containers Traps_smallLarge Traps_smallLong
               direction args
               (fun c => forall rm, room c = Some rm ->
                                    contained (room_rect rm) root)); [auto|].
      eapply Forall_impl; [exact H1|]. now intros c [[_ ?] _].
Qed.

End RootClaim.

(** ** normalizeTileMask *)

Lemma tileAtZ_nat (t : TileMap) (x y : nat) :
  tileAtZ t (Z.of_nat x) (Z.of_nat y) = tileAt t x y.
Proof.
  unfold tileAtZ.
  destruct (Z.ltb_spec (Z.of_nat x) 0); [lia|].
  destruct (Z.ltb_spec (Z.of_nat y) 0); [lia|].
  now rewrite !Nat2Z.id.
Qed.

Lemma normalizeCell_own td : writesOwnCell (normalizeCell td).
Proof.
  intros t x y. unfold normalizeCell, orTile.
  destruct (normalizeGuard t x y); [|now left].
  repeat match goal with
         | |- context [if ?b then _ else _] => destruct b
         end; eauto;
    destruct (tileAt t x y); eauto.
Qed.

(** Where the guard of line 581 fails, the cell keeps its content: the first
    and the last row, and the last cell of every row. *)
Lemma normalizeTileMask_guarded td (t : TileMap) (x y : nat) :
  (x < rowLength t y)%nat ->
  y = O \/ S y = length t \/ S x = rowLength t y ->
  tileAt (normalizeTileMask td t) x y = tileAt t x y.
Proof.
  intros Hx Hedge. unfold normalizeTileMask.
  destruct (forEachCell_cell (normalizeCell td) t x y (normalizeCell_own td) Hx)
    as (s & Hlen & Hrl & Hrest & ->).
  assert (normalizeGuard s x y = false) as Hguard.
  { unfold normalizeGuard. rewrite Hlen, Hrl.
    destruct (Z.ltb_spec 0 (Z.of_nat y)); [|reflexivity].
    destruct (Z.ltb_spec (Z.of_nat y) (Z.of_nat (length t) - 1));
      [|reflexivity].
    destruct (Z.ltb_spec (Z.of_nat x) (Z.of_nat (rowLength t y) - 1));
      [|reflexivity].
    lia. }
  unfold normalizeCell. rewrite Hguard. apply Hrest.
  unfold visitedBefore. lia.
Qed.

(** On the left edge the guard holds, and the first rule applies there as
    anywhere else: a cell at x = 0 with solid neighbours to the east and to
    the south and no solid neighbour to the south-east is overwritten. *)
Lemma normalizeTileMask_left_edge td (t : TileMap) (y : nat) :
  (0 < y)%nat -> (S y < length t)%nat -> (1 < rowLength t y)%nat ->
  js_gt0 (tileAt t 1 y) = true ->
  js_gt0 (tileAt t 0 (S y)) = true ->
  js_le0 (tileAt t 1 (S y)) = true ->
  tileAt (normalizeTileMask td t) 0 y = Some (DirectionNWS td).
Proof.
  intros Hy0 Hy1 Hw Hright Hbottom Hdiag. unfold normalizeTileMask.
  destruct (forEachCell_cell (normalizeCell td) t 0 y (normalizeCell_own td))
    as (s & Hlen & Hrl & Hrest & ->); [lia|].
  assert (normalizeGuard s 0 y = true) as Hguard.
  { unfold normalizeGuard. rewrite Hlen, Hrl.
    destruct (Z.ltb_spec 0 (Z.of_nat y)); [|lia].
    destruct (Z.ltb_spec (Z.of_nat y) (Z.of_nat (length t) - 1)); [|lia].
    destruct (Z.ltb_spec (Z.of_nat 0) (Z.of_nat (rowLength t y) - 1)); [|lia].
    reflexivity. }
  unfold normalizeCell. rewrite Hguard. cbv zeta.
  change (Z.of_nat 0 + 1) with (Z.of_nat 1).
  replace (Z.of_nat y + 1) with (Z.of_nat (S y)) by lia.
  rewrite !tileAtZ_nat.
  rewrite !Hrest by (unfold visitedBefore; lia).
  rewrite Hright, Hbottom, Hdiag. cbn [andb].
  apply tileAt_setTile_eq. rewrite Hrl. lia.
Qed.

(** C5, at a failing input.  On the grid [left_edge_tiles] the pass
    overwrites the cell at x = 0, y = 1, a cell of the left edge of the
    grid, with [DirectionNWS]; no other cell changes. *)
Theorem normalizeTileMask_left_edge_example td :
  normalizeTileMask td left_edge_tiles =
  [[1; 1; 1];
   [DirectionNWS td; 1; 1];
   [1; 0; 1]].
Proof.
  destruct td as [w e n s ne nw nws nes].
  unfold normalizeTileMask, forEachCell, left_edge_tiles.
  cbn [DirectionNWS]. destruct nws; reflexivity.
Qed.

(** The same through [generateTileMask], with the example flags: the masks
    of [example_tiles], then the pass; the cell at x = 0, y = 1 held the
    mask of its four solid neighbours and is overwritten. *)
Example normalizeTileMask_example_tiles :
  let masks := generateTileMask example_flags example_tiles in
  tileAt masks 0 1 = Some 15 /\
  tileAt (normalizeTileMask example_flags masks) 0 1
  = Some (DirectionNWS example_flags).
Proof. split; reflexivity. Qed.

(** The containers of a generated tree are as [new Container] made them:
    no room and no corridor. *)
Lemma generateTree_fresh fuel : forall container iters args g t g',
  generateTree fuel container iters args g = Some (t, g') ->
  room container = None -> corridor container = None ->
  Forall (fun c => room c = None /\ corridor c = None) (allContainers t).
Proof.
  induction fuel as [|fuel IH]; intros container iters args g t g' Hrun
    Hroom Hcor; [discriminate|].
  cbn [generateTree] in Hrun. destruct (iters =? 0).
  - injection Hrun as <- <-. cbn. now repeat constructor.
  - destruct (splitContainer fuel container args g) as [[[l r] g1]|] eqn:Hs;
      [|discriminate].
    destruct (generateTree fuel l (iters - 1) args g1) as [[tl g2]|] eqn:Hl;
      [|discriminate].
    destruct (generateTree fuel r (iters - 1) args g2) as [[tr g3]|] eqn:Hr;
      [|discriminate].
    injection Hrun as <- <-.
    apply splitContainer_inv in Hs. cbv zeta in Hs.
    cbn [allContainers]. constructor; [now split|].
    apply Forall_app.
    destruct Hs as [(w & -> & -> & _) | (h & -> & -> & _)]; split;
      (eapply IH; [eassumption | reflexivity | reflexivity]).
Qed.

Section Pipeline.

Variable Holes_all : list Pattern.
Variables Traps_smallLarge Traps_smallLong : Pattern.
Variable direction : Corridor -> Direction.
Variable args : DungeonArgs.

(** The tree of the constructor is the work of [generateCorridors] on a tree
    without corridors. *)
Lemma dungeonTree_corridors fuel g tree g' :
  dungeonTree Holes_all Traps_smallLarge Traps_smallLong direction fuel args g
  = Some (tree, g') ->
  exists tree0 g0,
    Forall (fun c => corridor c = None) (allContainers tree0) /\
    tree = fst (generateCorridors Traps_smallLarge Traps_smallLong direction
                  tree0 args g0).
Proof.
  unfold dungeonTree. intros Hrun.
  destruct (generateTree fuel (rootContainer args) (iterations args) args g)
    as [[t0 g1]|] eqn:Htree; [|discriminate].
  destruct (generateRooms Holes_all t0 args g1) as [t1 g2] eqn:Hrooms.
  injection Hrun as Hrun.
  exists t1, g2. split; [|now rewrite Hrun].
  replace t1 with (fst (generateRooms Holes_all t0 args g1))
    by now rewrite Hrooms.
  refine (proj1 (generateRooms_containers Holes_all args
                   (fun c => corridor c = None) (fun _ => True)
                   _ _ t0 g1 _ I)); [auto| |].
  - intros c gi Hc _. unfold generateRoom.
    destruct (roomRectangle args c gi) as [r g4].
    destruct (belowMinSize args r); [exact Hc|].
    now destruct (holeCoin args g4).
  - eapply Forall_impl;
      [exact (generateTree_fresh _ _ _ _ _ _ _ Htree eq_refl eq_refl)|].
    now intros c [_ ?].
Qed.

End Pipeline.

(** ** Termination of generateTree *)

(** [generateTree] returns whenever the splits it asks for do: for an
    iteration count [n] that is not negative, [n] levels of fuel on top of
    the [k] tries that a split may need are enough.  [P] is what is known of
    the containers and [I] of the random source. *)
Lemma generateTree_returns (P : Container -> Prop) (I : RNG -> Prop)
  (k : nat) (args : DungeonArgs) :
  (forall c g, P c -> I g ->
     exists l r g', splitContainer k c args g = Some (l, r, g') /\
                    P l /\ P r /\ I g') ->
  forall (n : nat) c g, P c -> I g ->
    exists t g',
      generateTree (n + S k) c (Z.of_nat n) args g = Some (t, g') /\ I g'.
Proof.
  intros Hsplit. induction n as [|n IH]; intros c g Hc Hg.
  - exists (mkTreeNode c None None), g. now split.
  - change (S n + S k)%nat with (S (n + S k)). cbn [generateTree].
    destruct (Z.eqb_spec (Z.of_nat (S n)) 0) as [Hz|_]; [lia|].
    destruct (Hsplit c g Hc Hg) as (l & r & g1 & Hs & Hl & Hr & Hg1).
    rewrite (splitContainer_fuel_mono k (n + S k) c args g _ Hs) by lia.
    replace (Z.of_nat (S n) - 1) with (Z.of_nat n) by lia.
    destruct (IH l g1 Hl Hg1) as (tl & g2 & -> & Hg2).
    destruct (IH r g2 Hr Hg2) as (tr & g3 & -> & Hg3).
    eauto.
Qed.

Lemma accepted_unconstrained (a b : Z) (r : Q) :
  (r <= 0)%Q -> 0 <= a -> 0 <= b -> js_lt (js_div a b) r = false.
Proof.
  intros Hr Ha Hb. unfold js_div.
  destruct (Z.eqb_spec b 0) as [->|Hne].
  - destruct (Z.eqb_spec a 0); [reflexivity|].
    destruct (Z.ltb_spec 0 a); [reflexivity | lia].
  - simpl. apply Qltb_false. apply Qle_trans with 0%Q; [exact Hr|].
    apply Qdiv_Z_nonneg_intro; lia.
Qed.

(** The two parts that [random(1, size)] cuts a side into are not negative
    when the side is not. *)
Lemma random_cut (size : Z) (g : RNG) :
  open_draws g -> 0 <= size ->
  0 <= fst (random 1 size g) /\ 0 <= size - fst (random 1 size g).
Proof.
  intros Hu Hsize.
  destruct (Z.eq_dec size 0) as [->|Hpos].
  - unfold random, Math_random. cbn [fst].
    destruct (Hu (cursor g)) as [H0 H1].
    set (u := draws g (cursor g)) in *.
    assert (Hfloor : Qfloor (u * inject_Z (0 - 1))%Q = -1).
    { assert (Hlo : -1 <= Qfloor (u * inject_Z (0 - 1))%Q).
      { change (-1) with (Qfloor (inject_Z (-1))) at 1.
        apply Qfloor_resp_le. unfold Qle, Qlt in *. cbn in *. nia. }
      assert (Hhi : Qfloor (u * inject_Z (0 - 1))%Q < 0).
      { pose proof (Qfloor_le (u * inject_Z (0 - 1))%Q) as Hle.
        rewrite Zlt_Qlt. eapply Qle_lt_trans; [exact Hle|].
        unfold Qle, Qlt in *. cbn in *. nia. }
      lia. }
    rewrite Hfloor. lia.
  - assert (Hunit : unit_draws g).
    { intros n. destruct (Hu n) as [H0 H1]. split; [|exact H1].
      now apply Qlt_le_weak. }
    pose proof (random_range 1 size g Hunit ltac:(lia)). lia.
Qed.

(** Without a minimum ratio no split is rejected: with ratios that are not
    positive, sides that are not negative and a random source answering
    strictly between 0 and 1, the first try is returned. *)
Lemma splitContainer_first_try (args : DungeonArgs) c g :
  (containerWidthRatio args <= 0)%Q -> (containerHeightRatio args <= 0)%Q ->
  nonnegSides c -> open_draws g ->
  exists l r g',
    splitContainer 1 c args g = Some (l, r, g') /\
    nonnegSides l /\ nonnegSides r /\ open_draws g'.
Proof.
  intros Hwr Hhr [Hw Hh] Hu. cbn [splitContainer].
  unfold randomWeights. cbn [Math_random].
  set (g1 := mkRNG (draws g) (S (cursor g))).
  assert (Hu1 : open_draws g1) by exact Hu.
  destruct (pickWeighted _ _ _) as [[|]|].
  - pose proof (random_cut (rwidth (rect c)) g1 Hu1 Hw) as [Hl Hr].
    destruct (random 1 (rwidth (rect c)) g1) as [w g2] eqn:E.
    assert (Hu2 : open_draws g2)
      by (unfold random, Math_random in E; injection E as _ <-; exact Hu).
    cbn [fst rect newContainer rwidth rheight] in *.
    rewrite !accepted_unconstrained by assumption. cbn [orb].
    eexists _, _, _. split; [reflexivity|].
    unfold nonnegSides. cbn. auto.
  - pose proof (random_cut (rheight (rect c)) g1 Hu1 Hh) as [Hl Hr].
    destruct (random 1 (rheight (rect c)) g1) as [h g2] eqn:E.
    assert (Hu2 : open_draws g2)
      by (unfold random, Math_random in E; injection E as _ <-; exact Hu).
    cbn [fst rect newContainer rwidth rheight] in *.
    rewrite !accepted_unconstrained by assumption. cbn [orb].
    eexists _, _, _. split; [reflexivity|].
    unfold nonnegSides. cbn. auto.
  - pose proof (random_cut (rheight (rect c)) g1 Hu1 Hh) as [Hl Hr].
    destruct (random 1 (rheight (rect c)) g1) as [h g2] eqn:E.
    assert (Hu2 : open_draws g2)
      by (unfold random, Math_random in E; injection E as _ <-; exact Hu).
    cbn [fst rect newContainer rwidth rheight] in *.
    rewrite !accepted_unconstrained by assumption. cbn [orb].
    eexists _, _, _. split; [reflexivity|].
    unfold nonnegSides. cbn. auto.
Qed.

(** Hence, without a minimum ratio, [generateTree] returns for every
    iteration count that is not negative. *)
Lemma generateTree_total (args : DungeonArgs) (n : nat) c g :
  (containerWidthRatio args <= 0)%Q -> (containerHeightRatio args <= 0)%Q ->
  nonnegSides c -> open_draws g ->
  exists t g', generateTree (n + 2) c (Z.of_nat n) args g = Some (t, g').
Proof.
  intros Hwr Hhr Hc Hg.
  destruct (generateTree_returns nonnegSides open_draws 1 args
              ltac:(intros; now apply splitContainer_first_try) n c g Hc Hg)
    as (t & g' & Hrun & _).
  eauto.
Qed.

(** ** The examples *)

Lemma example_rng_unit (n : nat) : unit_draws (example_rng_at n).
Proof.
  intros k. cbn. unfold Qle, Qlt. cbn.
  pose proof (Z.mod_pos_bound (Z.of_nat k) 10). lia.
Qed.

Lemma half_rng_unit (n : nat) : unit_draws (mkRNG (draws half_rng) n).
Proof. intros k. cbn. unfold Qle, Qlt. cbn. lia. Qed.

Lemma generateTree_full_witness :
  exists t g',
    generateTree 30 (rootContainer example_args) 3 example_args example_rng
    = Some (t, g') /\
    0 <= 3 /\ Z.of_nat (length (leaves t)) = 2 ^ 3 /\
    Forall (fun d => d = 3) (pathLengths t).
Proof.
  exists example_tree, (example_rng_at 44).
  split; [vm_compute; reflexivity|].
  apply (generateTree_full 30 (rootContainer example_args) 3 example_args
           example_rng example_tree (example_rng_at 44)).
  vm_compute. reflexivity.
Defined.

Lemma splitContainer_partition_witness :
  let c := rootContainer example_args in
  let l := newContainer 1 1 31 46 in
  let r := newContainer 32 1 31 46 in
  splitContainer 30 c example_args example_rng = Some (l, r, example_rng_at 6)
  /\ (vertical_partition (rect c) (rect l) (rect r) \/
      horizontal_partition (rect c) (rect l) (rect r))
  /\ forall px py,
       (inside (rect c) px py <-> inside (rect l) px py \/ inside (rect r) px py)
       /\ ~ (inside (rect l) px py /\ inside (rect r) px py).
Proof.
  intros c l r.
  assert (Hrun : splitContainer 30 c example_args example_rng
                 = Some (l, r, example_rng_at 6))
    by (vm_compute; reflexivity).
  split; [exact Hrun|].
  destruct (splitContainer_partition 30 c example_args example_rng l r
              (example_rng_at 6) Hrun) as [Hshape Hcells].
  split; [exact Hshape|].
  apply Hcells; cbn; unfold Qle; cbn; lia.
Defined.

Lemma splitContainer_ratio_witness :
  let c := rootContainer example_args in
  let l := newContainer 1 1 31 46 in
  let r := newContainer 32 1 31 46 in
  splitContainer 30 c example_args example_rng = Some (l, r, example_rng_at 6)
  /\ ((vertical_partition (rect c) (rect l) (rect r) /\
       ~ ratio_below 31 46 (45 # 100)%Q /\ ~ ratio_below 31 46 (45 # 100)%Q)
      \/
      (horizontal_partition (rect c) (rect l) (rect r) /\
       ~ ratio_below 46 31 (45 # 100)%Q /\ ~ ratio_below 46 31 (45 # 100)%Q)).
Proof.
  intros c l r.
  assert (Hrun : splitContainer 30 c example_args example_rng
                 = Some (l, r, example_rng_at 6))
    by (vm_compute; reflexivity).
  split; [exact Hrun|].
  exact (splitContainer_ratio 30 c example_args example_rng l r
           (example_rng_at 6) Hrun).
Defined.



Lemma example_fill_within : samplesWithinShape example_fill.
Proof.
  intros w h g p. unfold example_fill. cbn [fst].
  destruct (Z.ltb_spec 0 w); [|cbn; intros Hp; inversion Hp].
  destruct (Z.ltb_spec 0 h); [|cbn; intros Hp; inversion Hp].
  cbn [andb]. intros Hp.
  apply list_elem_of_In in Hp. destruct Hp as [<-|[<-|[]]];
    unfold Qle, Qlt; cbn; lia.
Qed.

Lemma example_shuffle_permutes : shufflePermutes example_shuffle.
Proof. intros l g. cbn. symmetry. apply Permutation_rev. Qed.


Lemma generateTileMask_spec_witness :
  (cardinalFlagsPositive example_flags /\ rectangular example_tiles 4 /\
   tileAt example_tiles 0 2 = Some 1) /\
  tileAt (generateTileMask example_flags example_tiles) 0 2 =
  Some (if 0 <? 1 then cardinalMask example_flags example_tiles 0 2 else 1).
Proof.
  assert (Hpos : cardinalFlagsPositive example_flags)
    by (unfold cardinalFlagsPositive; cbn; lia).
  assert (Hrect : rectangular example_tiles 4) by (repeat constructor).
  split; [auto|].
  exact (generateTileMask_spec example_flags example_tiles 4 0 2 1 Hpos Hrect
           eq_refl).
Defined.

Lemma carveCorridors_stage_witness :
  let tilemap := carveRooms small_rooms (createTilemap 5 8 1) in
  let props := createTilemap 5 8 0 in
  let tree := fst (generateCorridors example_trap_large example_trap_long
                     example_direction small_rooms small_args
                     (mkRNG (draws half_rng) 12)) in
  Forall (fun c => corridor c = None) (allContainers small_rooms) /\
  exists tilemap',
    carveCorridorsStage tree tilemap props = Some (tilemap', props) /\
    forall x y v, tileAt tilemap x y = Some v ->
      (forall cor, cor ∈ nodeCorridors tree ->
         inside (corridor_rect cor) (Z.of_nat x) (Z.of_nat y) ->
         tileAt tilemap' x y = Some 0) /\
      ((forall cor, cor ∈ nodeCorridors tree ->
          ~ inside (corridor_rect cor) (Z.of_nat x) (Z.of_nat y)) ->
       tileAt tilemap' x y = Some v).
Proof.
  intros tilemap props tree.
  assert (Hfree : Forall (fun c => corridor c = None)
                    (allContainers small_rooms)) by (repeat constructor).
  split; [exact Hfree|].
  exact (carveCorridors_stage example_trap_large example_trap_long
           example_direction small_rooms small_args
           (mkRNG (draws half_rng) 12) tilemap props Hfree).
Defined.

(** C3, as the spec has it, fails: on the small map the corridor-carving
    stage changes the tile grid and not the prop grid; the cell at x = 4,
    y = 3 holds a solid tile after the rooms are carved and floor after the
    corridors are. *)
Lemma carveCorridors_stage_changes_tiles :
  let before := carveRooms small_dungeon (createTilemap 5 8 1) in
  exists tilemap' props',
    generateTilemap_carved small_dungeon small_args = Some (tilemap', props') /\
    props' = createTilemap 5 8 0 /\
    tileAt before 4 3 = Some 1 /\
    tileAt tilemap' 4 3 = Some 0 /\
    tilemap' <> before.
Proof.
  intros before. eexists _, _. split; [vm_compute; reflexivity|].
  split; [reflexivity|]. split; [reflexivity|]. split; [reflexivity|].
  intros Heq. apply (f_equal (fun t => tileAt t 4 3)) in Heq.
  vm_compute in Heq. discriminate.
Qed.

Lemma dungeonTree_within_root_witness :
  let root := mkRectangle 1 1 3 6 in
  dungeonTree example_holes example_trap_large example_trap_long
    example_direction 3 small_args half_rng
  = Some (small_dungeon, mkRNG (draws half_rng) 13) /\
  rect (leaf small_dungeon) = root /\
  Forall (fun c => contained (rect c) root) (allContainers small_dungeon) /\
  Forall (fun c => forall rm, room c = Some rm ->
                              contained (room_rect rm) root)
    (allContainers small_dungeon).
Proof.
  intros root.
  assert (Hrun : dungeonTree example_holes example_trap_large
                   example_trap_long example_direction 3 small_args half_rng
                 = Some (small_dungeon, mkRNG (draws half_rng) 13))
    by (vm_compute; reflexivity).
  split; [exact Hrun|].
  destruct (dungeonTree_within_root example_holes example_trap_large
              example_trap_long example_direction small_args 3 half_rng
              small_dungeon (mkRNG (draws half_rng) 13) Hrun)
    as [Hroot Hrest].
  split; [exact Hroot|].
  destruct Hrest as [Hcs Hrooms];
    [unfold Qle; cbn; lia | unfold Qle; cbn; lia | cbn; lia | cbn; lia |].
  split; [exact Hcs|].
  apply Hrooms; [cbn; lia | apply (half_rng_unit 0)].
Defined.

(** C10, as the spec has it, fails for corridors: on the small map the
    corridor of the root node covers the cell at x = 4, y = 3, which lies in
    the last column of the map, outside the root rectangle. *)
Lemma dungeonTree_corridor_in_border :
  dungeonTree example_holes example_trap_large example_trap_long
    example_direction 3 small_args half_rng
  = Some (small_dungeon, mkRNG (draws half_rng) 13) /\
  exists cor,
    corridor (leaf small_dungeon) = Some cor /\
    corridor_rect cor = mkRectangle 3 3 2 3 /\
    inside (corridor_rect cor) 4 3 /\
    mapWidth small_args - mapGutterWidth small_args <= 4 < mapWidth small_args /\
    ~ inside (rect (rootContainer small_args)) 4 3 /\
    ~ contained (corridor_rect cor) (rect (rootContainer small_args)).
Proof.
  split; [vm_compute; reflexivity|].
  eexists. split; [reflexivity|]. split; [reflexivity|].
  unfold inside, contained, rright, rdown. cbn. lia.
Qed.

(** * Further properties *)

(** ** The split and the tree *)

(** An accepted ratio, for a positive short side: the long side is at least
    the minimum times the short side. *)
Lemma accepted_lower (a b : Z) (r : Q) :
  js_lt (js_div a b) r = false -> 0 < b ->
  (r * inject_Z b <= inject_Z a)%Q.
Proof.
  intros Hlt Hb. unfold js_div in Hlt.
  destruct (Z.eqb_spec b 0) as [->|_]; [lia|].
  simpl in Hlt. apply Qltb_false in Hlt.
  assert (Hb' : (0 < inject_Z b)%Q)
    by (change 0%Q with (inject_Z 0); now rewrite <- Zlt_Qlt).
  apply (Qmult_le_compat_r _ _ (inject_Z b)) in Hlt;
    [|now apply Qlt_le_weak].
  eapply Qle_trans; [exact Hlt|].
  rewrite Qmult_comm, Qmult_div_r; [apply Qle_refl|].
  intros Heq. rewrite Heq in Hb'. discriminate.
Qed.

(** A container that is less than twice the minimum ratio wide for its
    height, and less than twice the minimum ratio high for its width, cannot
    be split: every try is rejected, whatever is drawn, and
    [splitContainer] never returns. *)
Theorem splitContainer_unattainable fuel container args g :
  0 < rwidth (rect container) -> 0 < rheight (rect container) ->
  (inject_Z (rwidth (rect container))
   < 2 * containerWidthRatio args * inject_Z (rheight (rect container)))%Q ->
  (inject_Z (rheight (rect container))
   < 2 * containerHeightRatio args * inject_Z (rwidth (rect container)))%Q ->
  splitContainer fuel container args g = None.
Proof.
  intros Hw Hh Hwr Hhr.
  destruct (splitContainer fuel container args g) as [[[l r] g']|] eqn:Hrun;
    [exfalso|reflexivity].
  apply splitContainer_inv in Hrun. cbv zeta in Hrun.
  destruct Hrun as [(w & _ & _ & Hl & Hr) | (h & _ & _ & Hl & Hr)].
  - pose proof (accepted_lower _ _ _ Hl Hh) as H1.
    pose proof (accepted_lower _ _ _ Hr Hh) as H2.
    pose proof (Qplus_le_compat _ _ _ _ H1 H2) as H3.
    rewrite <- inject_Z_plus in H3.
    replace (w + (rwidth (rect container) - w))
      with (rwidth (rect container)) in H3 by lia.
    apply (Qlt_not_le _ _ Hwr). eapply Qle_trans; [|exact H3].
    ring_simplify. apply Qle_refl.
  - pose proof (accepted_lower _ _ _ Hl Hw) as H1.
    pose proof (accepted_lower _ _ _ Hr Hw) as H2.
    pose proof (Qplus_le_compat _ _ _ _ H1 H2) as H3.
    rewrite <- inject_Z_plus in H3.
    replace (h + (rheight (rect container) - h))
      with (rheight (rect container)) in H3 by lia.
    apply (Qlt_not_le _ _ Hhr). eapply Qle_trans; [|exact H3].
    ring_simplify. apply Qle_refl.
Qed.

Lemma splitContainer_unattainable_witness :
  let c := newContainer 1 1 10 10 in
  let args := mkDungeonArgs 12 12 1 1 0 1%Q 1%Q 0 3 2 0%Q 2 0%Q in
  splitContainer 25 c args example_rng = None.
Proof.
  intros c args.
  apply (splitContainer_unattainable 25 c args example_rng);
    cbn; unfold Qlt; cbn; lia.
Defined.

(** With an iteration count below zero the count never reaches zero:
    [generateTree] never returns. *)
Theorem generateTree_negative fuel : forall container iters args g,
  iters < 0 -> generateTree fuel container iters args g = None.
Proof.
  induction fuel as [|fuel IH]; intros container iters args g Hneg;
    [reflexivity|].
  cbn [generateTree]. destruct (Z.eqb_spec iters 0) as [->|_]; [lia|].
  destruct (splitContainer fuel container args g) as [[[l r] g1]|];
    [|reflexivity].
  now rewrite IH by lia.
Qed.

Lemma generateTree_negative_witness :
  generateTree 40 (rootContainer example_args) (-1) example_args example_rng
  = None.
Proof.
  apply (generateTree_negative 40 (rootContainer example_args) (-1)
           example_args example_rng).
  lia.
Defined.

Lemma totalArea_app cs1 cs2 :
  totalArea (cs1 ++ cs2) = totalArea cs1 + totalArea cs2.
Proof.
  induction cs1 as [|c cs1 IH]; cbn; [reflexivity|].
  unfold totalArea in *. cbn. rewrite IH. lia.
Qed.

(** The leaves of a generated tree have, together, the area of the
    container the tree was generated from. *)
Theorem generateTree_area fuel : forall container iters args g t g',
  generateTree fuel container iters args g = Some (t, g') ->
  totalArea (leaves t) = area (rect container).
Proof.
  induction fuel as [|fuel IH]; intros container iters args g t g' Hrun;
    [discriminate|].
  cbn [generateTree] in Hrun. destruct (iters =? 0).
  - injection Hrun as <- <-. unfold totalArea. cbn. lia.
  - destruct (splitContainer fuel container args g) as [[[l r] g1]|] eqn:Hs;
      [|discriminate].
    destruct (generateTree fuel l (iters - 1) args g1) as [[tl g2]|] eqn:Hl;
      [|discriminate].
    destruct (generateTree fuel r (iters - 1) args g2) as [[tr g3]|] eqn:Hr;
      [|discriminate].
    injection Hrun as <- <-. cbn [leaves].
    rewrite totalArea_app, (IH _ _ _ _ _ _ Hl), (IH _ _ _ _ _ _ Hr).
    apply splitContainer_inv in Hs. cbv zeta in Hs.
    destruct Hs as [(w & -> & -> & _) | (h & -> & -> & _)];
      unfold area; cbn; lia.
Qed.

Lemma generateTree_area_witness :
  generateTree 30 (rootContainer example_args) 3 example_args example_rng
  = Some (example_tree, example_rng_at 44) /\
  totalArea (leaves example_tree) = 62 * 46.
Proof.
  assert (Hrun : generateTree 30 (rootContainer example_args) 3 example_args
                   example_rng = Some (example_tree, example_rng_at 44))
    by (vm_compute; reflexivity).
  split; [exact Hrun|].
  exact (generateTree_area 30 (rootContainer example_args) 3 example_args
           example_rng example_tree (example_rng_at 44) Hrun).
Defined.

Lemma insideb_inside r px py : insideb r px py = true <-> inside r px py.
Proof.
  unfold insideb, inside.
  rewrite !andb_true_iff, !Z.leb_le, !Z.ltb_lt. tauto.
Qed.

Lemma coverCount_app px py cs1 cs2 :
  coverCount px py (cs1 ++ cs2)
  = (coverCount px py cs1 + coverCount px py cs2)%nat.
Proof. unfold coverCount. now rewrite List.filter_app, length_app. Qed.

(** The leaves of a generated tree tile the container the tree was generated
    from, when the minimum ratios and the container's sides are not
    negative: a cell of the container lies in exactly one leaf, a cell
    outside of it in none. *)
Theorem generateTree_tiles fuel : forall container iters args g t g',
  generateTree fuel container iters args g = Some (t, g') ->
  (0 <= containerWidthRatio args)%Q -> (0 <= containerHeightRatio args)%Q ->
  nonnegSides container ->
  forall px py,
    coverCount px py (leaves t)
    = if insideb (rect container) px py then 1%nat else 0%nat.
Proof.
  induction fuel as [|fuel IH];
    intros container iters args g t g' Hrun Hwr Hhr Hsides px py;
    [discriminate|].
  cbn [generateTree] in Hrun. destruct (iters =? 0).
  - injection Hrun as <- <-. unfold coverCount. cbn.
    now destruct (insideb (rect container) px py).
  - destruct (splitContainer fuel container args g) as [[[l r] g1]|] eqn:Hs;
      [|discriminate].
    destruct (generateTree fuel l (iters - 1) args g1) as [[tl g2]|] eqn:Hl;
      [|discriminate].
    destruct (generateTree fuel r (iters - 1) args g2) as [[tr g3]|] eqn:Hr;
      [|discriminate].
    injection Hrun as <- <-. cbn [leaves].
    destruct (splitContainer_children _ _ _ _ _ _ _ Hs Hwr Hhr Hsides)
      as [(_ & Hls & _) (_ & Hrs & _)].
    rewrite coverCount_app, (IH _ _ _ _ _ _ Hl Hwr Hhr Hls),
      (IH _ _ _ _ _ _ Hr Hwr Hhr Hrs).
    assert (Hcells : (inside (rect container) px py <->
                      inside (rect l) px py \/ inside (rect r) px py) /\
                     ~ (inside (rect l) px py /\ inside (rect r) px py)).
    { destruct Hls as [Hlw Hlh]. destruct Hrs as [Hrw Hrh].
      apply splitContainer_inv in Hs. cbv zeta in Hs.
      destruct Hs as [(w & -> & -> & _) | (h & -> & -> & _)].
      - apply vertical_partition_points; [|assumption..].
        unfold vertical_partition, rright; cbn. lia.
      - apply horizontal_partition_points; [|assumption..].
        unfold horizontal_partition, rdown; cbn. lia. }
    rewrite <- !insideb_inside in Hcells. destruct Hcells as [Hor Hnot].
    destruct (insideb (rect container) px py);
      destruct (insideb (rect l) px py);
      destruct (insideb (rect r) px py); try reflexivity; exfalso;
      intuition congruence.
Qed.

Lemma generateTree_tiles_witness :
  generateTree 30 (rootContainer example_args) 3 example_args example_rng
  = Some (example_tree, example_rng_at 44) /\
  coverCount 20 20 (leaves example_tree) = 1%nat /\
  coverCount 63 20 (leaves example_tree) = 0%nat.
Proof.
  assert (Hrun : generateTree 30 (rootContainer example_args) 3 example_args
                   example_rng = Some (example_tree, example_rng_at 44))
    by (vm_compute; reflexivity).
  assert (Hwr : (0 <= containerWidthRatio example_args)%Q)
    by (unfold Qle; cbn; lia).
  assert (Hsides : nonnegSides (rootContainer example_args))
    by (unfold nonnegSides; cbn; lia).
  split; [exact Hrun|]. split.
  - exact (generateTree_tiles 30 (rootContainer example_args) 3 example_args
             example_rng example_tree (example_rng_at 44) Hrun Hwr Hwr Hsides
             20 20).
  - exact (generateTree_tiles 30 (rootContainer example_args) 3 example_args
             example_rng example_tree (example_rng_at 44) Hrun Hwr Hwr Hsides
             63 20).
Defined.

(** ** Rooms and corridors on the tree *)

Section TreeStages.

Variable Holes_all : list Pattern.
Variables Traps_smallLarge Traps_smallLong : Pattern.
Variable direction : Corridor -> Direction.
Variable args : DungeonArgs.

Lemma generateRoom_keeps c g :
  rect (fst (generateRoom Holes_all args c g)) = rect c /\
  corridor (fst (generateRoom Holes_all args c g)) = corridor c.
Proof.
  unfold generateRoom. destruct (roomRectangle args c g) as [r g4].
  destruct (belowMinSize args r); [now split|].
  now destruct (holeCoin args g4).
Qed.

Lemma generateRooms_containers_kept node : forall g,
  Forall2 (fun c c' => rect c' = rect c /\ corridor c' = corridor c)
    (allContainers node)
    (allContainers (fst (generateRooms Holes_all node args g))) /\
  innerContainers (fst (generateRooms Holes_all node args g))
  = innerContainers node.
Proof.
  induction node as [c l r IHl IHr] using TreeNode_nested_ind. intros g.
  assert (Hsame : forall cs : list Container,
             Forall2 (fun c c' => rect c' = rect c /\ corridor c' = corridor c)
               cs cs)
    by (intros cs; apply Forall2_same_length_lookup; split; [reflexivity|];
        intros i a b Ha Hb; rewrite Ha in Hb; now injection Hb as <-).
  assert (Hbottom :
            l = None \/ r = None ->
            let res := fst (generateRooms Holes_all (mkTreeNode c l r) args g) in
            Forall2 (fun c c' => rect c' = rect c /\ corridor c' = corridor c)
              (allContainers (mkTreeNode c l r)) (allContainers res) /\
            innerContainers res = innerContainers (mkTreeNode c l r)).
  { intros Hlr.
    assert (generateRooms Holes_all (mkTreeNode c l r) args g
            = (mkTreeNode (fst (generateRoom Holes_all args c g)) l r,
               snd (generateRoom Holes_all args c g))) as ->.
    { cbn [generateRooms]. destruct (generateRoom Holes_all args c g).
      destruct Hlr as [-> | ->]; [reflexivity|]. now destruct l. }
    cbn [fst allContainers]. split.
    - constructor; [apply generateRoom_keeps | apply Hsame].
    - destruct Hlr as [-> | ->]; [reflexivity|]. now destruct l. }
  destruct l as [tl|]; [|apply Hbottom; now left].
  destruct r as [tr|]; [|apply Hbottom; now right].
  clear Hbottom. cbn [generateRooms].
  destruct (IHl tl eq_refl g) as [Hl1 Hl2].
  destruct (generateRooms Holes_all tl args g) as [l' g1].
  destruct (IHr tr eq_refl g1) as [Hr1 Hr2].
  destruct (generateRooms Holes_all tr args g1) as [r' g2].
  cbn [fst allContainers innerContainers] in *. split.
  - constructor; [now split|]. now apply Forall2_app.
  - now rewrite Hl2, Hr2.
Qed.

(** [generateCorridors] gives a corridor to every node that has both
    children and to no other: in a tree that had no corridors, the corridors
    afterwards are as many as such nodes, and the leaves have none. *)
Lemma generateCorridors_inner node : forall g,
  Forall (fun c => corridor c = None) (allContainers node) ->
  let node' := fst (generateCorridors Traps_smallLarge Traps_smallLong
                      direction node args g) in
  length (nodeCorridors node') = length (innerContainers node) /\
  Forall (fun c => corridor c = None) (leaves node').
Proof.
  induction node as [c l r IHl IHr] using TreeNode_nested_ind.
  intros g Hfree.
  assert (Hbottom :
            l = None \/ r = None ->
            length (nodeCorridors (mkTreeNode c l r))
            = length (innerContainers (mkTreeNode c l r)) /\
            Forall (fun c => corridor c = None) (leaves (mkTreeNode c l r))).
  { intros Hlr. unfold nodeCorridors.
    rewrite (omap_corridor_none _ Hfree).
    apply Forall_cons_1 in Hfree as [Hc _].
    destruct Hlr as [-> | ->]; [|destruct l]; cbn; auto. }
  destruct l as [tl|]; [|apply Hbottom; now left].
  destruct r as [tr|]; [|apply Hbottom; now right].
  clear Hbottom. cbn [allContainers] in Hfree.
  apply Forall_cons_1 in Hfree as [_ Hfree].
  apply Forall_app in Hfree as [Hfl Hfr].
  cbn [generateCorridors].
  destruct (randomWeights _ _ g) as [hasTrap g1].
  specialize (IHl tl eq_refl g1 Hfl).
  destruct (generateCorridors _ _ _ tl args g1) as [l' g2].
  specialize (IHr tr eq_refl g2 Hfr).
  destruct (generateCorridors _ _ _ tr args g2) as [r' g3].
  cbn [fst] in *. destruct IHl as [Hl1 Hl2]. destruct IHr as [Hr1 Hr2].
  unfold nodeCorridors in *.
  cbn [allContainers corridor omap list_omap innerContainers leaves length].
  rewrite omap_app, !length_app, Hl1, Hr1.
  split; [reflexivity | now apply Forall_app].
Qed.

(** [generateRooms] never moves or resizes a container and never touches a
    corridor; the nodes that have both children keep their containers as
    they are, so only leaves can gain a room. *)
Theorem generateRooms_keeps_containers node g :
  Forall2 (fun c c' => rect c' = rect c /\ corridor c' = corridor c)
    (allContainers node)
    (allContainers (fst (generateRooms Holes_all node args g))) /\
  innerContainers (fst (generateRooms Holes_all node args g))
  = innerContainers node.
Proof. apply generateRooms_containers_kept. Qed.

(** A generated tree has one node with both children less than it has
    leaves. *)
Lemma generateTree_inner fuel : forall container iters g t g',
  generateTree fuel container iters args g = Some (t, g') ->
  Z.of_nat (length (innerContainers t)) = 2 ^ iters - 1 /\
  Z.of_nat (length (leaves t)) = 2 ^ iters /\ 0 <= iters.
Proof.
  induction fuel as [|fuel IH]; intros container iters g t g' Hrun;
    [discriminate|].
  cbn [generateTree] in Hrun.
  destruct (Z.eqb_spec iters 0) as [->|Hne].
  - injection Hrun as <- <-. cbn. lia.
  - destruct (splitContainer fuel container args g) as [[[l r] g1]|];
      [|discriminate].
    destruct (generateTree fuel l (iters - 1) args g1) as [[tl g2]|] eqn:Hl;
      [|discriminate].
    destruct (generateTree fuel r (iters - 1) args g2) as [[tr g3]|] eqn:Hr;
      [|discriminate].
    injection Hrun as <- <-.
    destruct (IH _ _ _ _ _ Hl) as (Hil & Hll & Hpos).
    destruct (IH _ _ _ _ _ Hr) as (Hir & Hlr & _).
    cbn [innerContainers leaves length].
    rewrite !length_app.
    assert (Hpow : 2 ^ iters = 2 * 2 ^ (iters - 1)).
    { replace iters with (Z.succ (iters - 1)) at 1 by lia.
      apply Z.pow_succ_r. lia. }
    lia.
Qed.

Lemma generateRooms_leaves_length node : forall g,
  length (leaves (fst (generateRooms Holes_all node args g)))
  = length (leaves node).
Proof.
  induction node as [c l r IHl IHr] using TreeNode_nested_ind. intros g.
  destruct l as [tl|]; destruct r as [tr|]; cbn [generateRooms];
    try (destruct (generateRoom Holes_all args c g); reflexivity).
  specialize (IHl tl eq_refl g).
  destruct (generateRooms Holes_all tl args g) as [l' g1].
  specialize (IHr tr eq_refl g1).
  destruct (generateRooms Holes_all tr args g1) as [r' g2].
  cbn [fst leaves] in *. now rewrite !length_app, IHl, IHr.
Qed.

Lemma generateCorridors_leaves_length node : forall g,
  length (leaves (fst (generateCorridors Traps_smallLarge Traps_smallLong
                         direction node args g)))
  = length (leaves node).
Proof.
  induction node as [c l r IHl IHr] using TreeNode_nested_ind. intros g.
  destruct l as [tl|]; destruct r as [tr|]; try reflexivity.
  cbn [generateCorridors].
  destruct (randomWeights _ _ g) as [hasTrap g1].
  specialize (IHl tl eq_refl g1).
  destruct (generateCorridors _ _ _ tl args g1) as [l' g2].
  specialize (IHr tr eq_refl g2).
  destruct (generateCorridors _ _ _ tr args g2) as [r' g3].
  cbn [fst leaves] in *. now rewrite !length_app, IHl, IHr.
Qed.

(** The tree of the constructor has 2 ^ iterations leaves, none of them
    with a corridor, and 2 ^ iterations - 1 corridors, one on every other
    node. *)
Theorem dungeonTree_corridor_count fuel g tree g' :
  dungeonTree Holes_all Traps_smallLarge Traps_smallLong direction fuel args g
  = Some (tree, g') ->
  Z.of_nat (length (leaves tree)) = 2 ^ iterations args /\
  Forall (fun c => corridor c = None) (leaves tree) /\
  Z.of_nat (length (nodeCorridors tree)) = 2 ^ iterations args - 1.
Proof.
  unfold dungeonTree. intros Hrun.
  destruct (generateTree fuel (rootContainer args) (iterations args) args g)
    as [[t0 g1]|] eqn:Htree; [|discriminate].
  destruct (generateRooms Holes_all t0 args g1) as [t1 g2] eqn:Hrooms.
  injection Hrun as Hrun.
  assert (Ht1 : t1 = fst (generateRooms Holes_all t0 args g1))
    by now rewrite Hrooms.
  assert (Htr : tree = fst (generateCorridors Traps_smallLarge Traps_smallLong
                              direction t1 args g2)) by now rewrite Hrun.
  destruct (generateTree_inner _ _ _ _ _ _ Htree) as (Hinner & Hleaves & _).
  assert (Hfree : Forall (fun c => corridor c = None) (allContainers t1)).
  { rewrite Ht1.
    refine (proj1 (generateRooms_containers Holes_all args
                     (fun c => corridor c = None) (fun _ => True)
                     _ _ t0 g1 _ I)); [auto| |].
    - intros c gi Hc _. now rewrite (proj2 (generateRoom_keeps c gi)).
    - eapply Forall_impl;
        [exact (generateTree_fresh _ _ _ _ _ _ _ Htree eq_refl eq_refl)|].
      now intros c [_ ?]. }
  destruct (generateCorridors_inner t1 g2 Hfree) as [Hcount Hnone].
  rewrite <- Htr in Hcount, Hnone.
  split; [|split; [exact Hnone|]].
  - now rewrite Htr, generateCorridors_leaves_length, Ht1,
      generateRooms_leaves_length.
  - rewrite Hcount, Ht1.
    now rewrite (proj2 (generateRooms_containers_kept t0 g1)).
Qed.

End TreeStages.


Lemma dungeonTree_corridor_count_witness :
  dungeonTree example_holes example_trap_large example_trap_long
    example_direction 3 small_args half_rng
  = Some (small_dungeon, mkRNG (draws half_rng) 13) /\
  Z.of_nat (length (leaves small_dungeon)) = 2 ^ 1 /\
  Forall (fun c => corridor c = None) (leaves small_dungeon) /\
  Z.of_nat (length (nodeCorridors small_dungeon)) = 2 ^ 1 - 1.
Proof.
  assert (Hrun : dungeonTree example_holes example_trap_large
                   example_trap_long example_direction 3 small_args half_rng
                 = Some (small_dungeon, mkRNG (draws half_rng) 13))
    by (vm_compute; reflexivity).
  split; [exact Hrun|].
  exact (dungeonTree_corridor_count example_holes example_trap_large
           example_trap_long example_direction small_args 3 half_rng
           small_dungeon (mkRNG (draws half_rng) 13) Hrun).
Defined.

(** ** Monsters *)

Section MonsterCount.

Variable PoissonDiscSampling_fill : Z -> Z -> RNG -> list (Q * Q) * RNG.
Variable shuffleArray : list (Q * Q) -> RNG -> list (Q * Q) * RNG.
Variable args : DungeonArgs.

Lemma monstersOfLeaf_length c ms0 g :
  0 <= roomMaxMonsters args ->
  Z.of_nat (length (fst (monstersOfLeaf PoissonDiscSampling_fill shuffleArray
                           args (ms0, g) c)))
  <= Z.of_nat (length ms0) + roomMaxMonsters args.
Proof.
  intros Hmax. unfold monstersOfLeaf.
  destruct (room c) as [rm|]; [|cbn; lia].
  unfold samplePoints. cbn [fst snd].
  destruct (PoissonDiscSampling_fill _ _ g) as [points g1].
  destruct (shuffleArray points g1) as [shuffled g2].
  rewrite (slice0_take args Hmax).
  destruct (placeMonster_fold args rm
              (take (Z.to_nat (roomMaxMonsters args)) shuffled) ms0 g2)
    as (ms & g' & -> & Hpl).
  apply Forall2_length in Hpl. rewrite length_take in Hpl.
  cbn [fst]. rewrite length_app. lia.
Qed.

Lemma monstersOfLeaf_fold_length cs : forall acc,
  0 <= roomMaxMonsters args ->
  Z.of_nat (length (fst (fold_left
                           (monstersOfLeaf PoissonDiscSampling_fill
                              shuffleArray args) cs acc)))
  <= Z.of_nat (length (fst acc))
     + roomMaxMonsters args * Z.of_nat (length cs).
Proof.
  induction cs as [|c cs IH]; intros [ms0 g] Hmax; [cbn; lia|].
  cbn [fold_left]. etransitivity; [apply IH, Hmax|].
  pose proof (monstersOfLeaf_length c ms0 g Hmax). cbn [fst length]. lia.
Qed.

(** [generateMonsters] places at most [roomMaxMonsters] monsters per leaf,
    whatever the sampling capability and the shuffle answer. *)
Theorem generateMonsters_count node g :
  0 <= roomMaxMonsters args ->
  Z.of_nat (length (fst (generateMonsters PoissonDiscSampling_fill
                           shuffleArray node args g)))
  <= roomMaxMonsters args * Z.of_nat (length (leaves node)).
Proof.
  intros Hmax. unfold generateMonsters.
  pose proof (monstersOfLeaf_fold_length (leaves node) ([], g) Hmax).
  cbn [fst length] in *. lia.
Qed.

(** On a tree without rooms [generateMonsters] returns no monster, asks for
    no points and leaves the random source as it was. *)
Theorem generateMonsters_no_rooms node g :
  Forall roomless (leaves node) ->
  generateMonsters PoissonDiscSampling_fill shuffleArray node args g = ([], g).
Proof.
  unfold generateMonsters. generalize (@nil Monster, g).
  induction (leaves node) as [|c cs IH]; intros acc Hfree; [reflexivity|].
  apply Forall_cons_1 in Hfree as [Hc Hcs]. cbn [fold_left].
  unfold monstersOfLeaf at 2. unfold roomless in Hc. rewrite Hc.
  now apply IH.
Qed.

End MonsterCount.

Lemma generateMonsters_count_witness :
  0 <= roomMaxMonsters small_args /\
  Z.of_nat (length (fst (generateMonsters example_fill example_shuffle
                           small_dungeon small_args
                           (mkRNG (draws half_rng) 13))))
  <= 3 * 2.
Proof.
  assert (Hmax : 0 <= roomMaxMonsters small_args) by (cbn; lia).
  split; [exact Hmax|].
  exact (generateMonsters_count example_fill example_shuffle small_args
           small_dungeon (mkRNG (draws half_rng) 13) Hmax).
Defined.

Lemma generateMonsters_no_rooms_witness :
  Forall roomless (leaves small_tree) /\
  generateMonsters example_fill example_shuffle small_tree small_args half_rng
  = ([], half_rng).
Proof.
  assert (Hfree : Forall roomless (leaves small_tree))
    by (repeat constructor).
  split; [exact Hfree|].
  exact (generateMonsters_no_rooms example_fill example_shuffle small_args
           small_tree half_rng Hfree).
Defined.

(** ** carveRooms *)

Lemma carveRooms_fold cs : forall t x y v,
  tileAt t x y = Some v ->
  tileAt (fold_left
            (fun t container =>
               match room container with
               | None => t
               | Some room => forEachCell (carveCell (room_rect room)) t
               end) cs t) x y =
  Some (if existsb (fun c => match room c with
                             | Some rm => inRectb (room_rect rm) x y
                             | None => false
                             end) cs
        then 0 else v).
Proof.
  induction cs as [|c cs IH]; intros t x y v Hcell; [exact Hcell|].
  cbn [fold_left existsb]. destruct (room c) as [rm|].
  - rewrite (IH _ x y _ (carveRect_cell (room_rect rm) t x y v Hcell)).
    destruct (inRectb (room_rect rm) x y); [|reflexivity].
    now destruct (existsb _ cs).
  - now apply IH.
Qed.

(** After [carveRooms] every cell of the grid that lies in the room of a
    leaf holds floor (0), and every other cell holds what it held before. *)
Theorem carveRooms_cells node t x y v :
  tileAt t x y = Some v ->
  (inSomeRoom (leaves node) x y -> tileAt (carveRooms node t) x y = Some 0) /\
  (~ inSomeRoom (leaves node) x y -> tileAt (carveRooms node t) x y = Some v).
Proof.
  intros Hcell. unfold carveRooms.
  rewrite (carveRooms_fold (leaves node) t x y v Hcell).
  split.
  - intros (c & rm & Hin & Hrm & Hins).
    assert (existsb (fun c => match room c with
                              | Some rm => inRectb (room_rect rm) x y
                              | None => false
                              end) (leaves node) = true) as ->; [|reflexivity].
    apply existsb_exists. exists c.
    split; [now apply list_elem_of_In|].
    rewrite Hrm. now apply inRectb_inside.
  - intros Hnone. destruct (existsb _ (leaves node)) eqn:Hex; [|reflexivity].
    apply existsb_exists in Hex as (c & Hin & Hb).
    exfalso. apply Hnone. destruct (room c) as [rm|] eqn:Hrm; [|discriminate].
    exists c, rm. split; [now apply list_elem_of_In|].
    split; [exact Hrm|]. now apply inRectb_inside.
Qed.

Lemma carveRooms_cells_witness :
  let t := createTilemap 5 8 1 in
  tileAt t 1 1 = Some 1 /\
  inSomeRoom (leaves small_dungeon) 1 1 /\
  tileAt (carveRooms small_dungeon t) 1 1 = Some 0.
Proof.
  intros t.
  assert (Hcell : tileAt t 1 1 = Some 1) by reflexivity.
  assert (Hin : inSomeRoom (leaves small_dungeon) 1 1).
  { eexists _, _. split; [apply list_elem_of_here|].
    split; [reflexivity|]. unfold inside, rright, rdown. cbn. lia. }
  split; [exact Hcell|]. split; [exact Hin|].
  exact (proj1 (carveRooms_cells small_dungeon t 1 1 1 Hcell) Hin).
Defined.

(** ** The values of the masks *)

Lemma lor_subset_step (m f all : Z) :
  Z.lor m all = all -> Z.lor f all = all -> Z.lor (Z.lor m f) all = all.
Proof.
  intros Hm Hf. rewrite <- Z.lor_assoc, Hf. exact Hm.
Qed.

Lemma cardinalFlags_has td :
  Z.lor (West td) (cardinalFlags td) = cardinalFlags td /\
  Z.lor (East td) (cardinalFlags td) = cardinalFlags td /\
  Z.lor (North td) (cardinalFlags td) = cardinalFlags td /\
  Z.lor (South td) (cardinalFlags td) = cardinalFlags td.
Proof.
  unfold cardinalFlags. repeat split; apply Z.bits_inj'; intros n _;
    rewrite !Z.lor_spec;
    destruct (Z.testbit (West td) n), (Z.testbit (East td) n),
      (Z.testbit (North td) n), (Z.testbit (South td) n); reflexivity.
Qed.

Lemma getTileMask_bits td x y t :
  Z.lor (getTileMask td x y t) (cardinalFlags td) = cardinalFlags td.
Proof.
  destruct (cardinalFlags_has td) as (Hw & He & Hn & Hs).
  unfold getTileMask.
  destruct (isColliding x y west t), (isColliding x y east t),
    (isColliding x y north t), (isColliding x y south t);
    repeat first [ apply lor_subset_step | assumption
                 | apply Z.lor_0_l ].
Qed.

Lemma getTileMask_zero td x y t :
  (forall side, isColliding x y side t = false) -> getTileMask td x y t = 0.
Proof.
  intros Hnone. unfold getTileMask. now rewrite !Hnone.
Qed.

(** The mask that [generateTileMask] leaves in a cell that held a solid
    tile has no bit outside the four cardinal flags, is not negative, and is
    0, the value of floor, exactly when the cell collides on no side: when
    it is off the boundary and none of its four neighbours is solid. *)
Theorem generateTileMask_values td orig x y v :
  cardinalFlagsPositive td ->
  tileAt orig x y = Some v -> 0 < v ->
  exists m,
    tileAt (generateTileMask td orig) x y = Some m /\
    Z.lor m (cardinalFlags td) = cardinalFlags td /\
    0 <= m /\
    (m = 0 <-> forall side, isColliding x y side orig = false).
Proof.
  intros Hpos Hcell Hv.
  assert (Hx : (x < rowLength orig y)%nat)
    by (apply tileAt_is_Some; rewrite Hcell; eauto).
  destruct (generateTileMask_cells td orig Hpos) as (_ & _ & Hcells).
  exists (getTileMask td x y orig). split.
  - rewrite (Hcells x y Hx). unfold maskedCell. rewrite Hcell.
    now destruct (Z.ltb_spec 0 v); [|lia].
  - split; [apply getTileMask_bits|].
    assert (Hcases : (forall side, isColliding x y side orig = false) \/
                     exists side, isColliding x y side orig = true).
    { destruct (isColliding x y north orig) eqn:Cn; [right; eauto|].
      destruct (isColliding x y west orig) eqn:Cw; [right; eauto|].
      destruct (isColliding x y east orig) eqn:Ce; [right; eauto|].
      destruct (isColliding x y south orig) eqn:Cs; [right; eauto|].
      left. now intros []. }
    destruct Hcases as [Hnone | [side Hside]].
    + rewrite (getTileMask_zero td x y orig Hnone). split; [lia|]. tauto.
    + pose proof (getTileMask_pos td x y orig side Hpos Hside) as Hm.
      split; [lia|]. split; [lia|].
      intros Hnone. rewrite Hnone in Hside. discriminate.
Qed.

Lemma generateTileMask_values_witness :
  let isolated := [[0; 0; 0]; [0; 1; 0]; [0; 0; 0]] in
  (cardinalFlagsPositive example_flags /\ tileAt isolated 1 1 = Some 1) /\
  exists m,
    tileAt (generateTileMask example_flags isolated) 1 1 = Some m /\
    Z.lor m (cardinalFlags example_flags) = cardinalFlags example_flags /\
    0 <= m /\
    (m = 0 <-> forall side, isColliding 1 1 side isolated = false).
Proof.
  intros isolated.
  assert (Hpos : cardinalFlagsPositive example_flags)
    by (unfold cardinalFlagsPositive; cbn; lia).
  split; [split; [exact Hpos | reflexivity]|].
  apply (generateTileMask_values example_flags isolated 1 1 1 Hpos eq_refl).
  lia.
Defined.

(** ** The edges in normalizeTileMask *)

Lemma normalizeTileMask_guarded_witness :
  tileAt (normalizeTileMask example_flags left_edge_tiles) 2 1
  = tileAt left_edge_tiles 2 1.
Proof.
  apply (normalizeTileMask_guarded example_flags left_edge_tiles 2 1).
  - cbn. lia.
  - right. right. reflexivity.
Defined.

(** ** cleanTilemap *)

Lemma cleanCell_own : writesOwnCell cleanCell.
Proof.
  intros t x y. unfold cleanCell.
  repeat match goal with
         | |- context [if ?b then _ else _] => destruct b
         end; eauto.
Qed.

Lemma tileAtZ_succ (t : TileMap) (x y : nat) :
  tileAtZ t (Z.of_nat x + 1) (Z.of_nat y) = tileAt t (S x) y /\
  tileAtZ t (Z.of_nat x) (Z.of_nat y + 1) = tileAt t x (S y).
Proof.
  replace (Z.of_nat x + 1) with (Z.of_nat (S x)) by lia.
  replace (Z.of_nat y + 1) with (Z.of_nat (S y)) by lia.
  now rewrite !tileAtZ_nat.
Qed.

(** The first pass of [cleanTilemap] only removes solid tiles, and only
    next to floor that was there before the pass: a cell of the tile grid
    either keeps its value, or held a solid tile and holds 0 afterwards, in
    which case the cell to its right or the cell below it held 0 before the
    pass. *)
Theorem cleanTilemap_tiles spikes node tilemap props x y v :
  tileAt tilemap x y = Some v ->
  let tilemap' := fst (cleanTilemap spikes node tilemap props) in
  tileAt tilemap' x y = Some v \/
  (0 < v /\ tileAt tilemap' x y = Some 0 /\
   (tileAt tilemap (S x) y = Some 0 \/ tileAt tilemap x (S y) = Some 0)).
Proof.
  intros Hcell tilemap'. subst tilemap'. unfold cleanTilemap. cbn [fst].
  assert (Hx : (x < rowLength tilemap y)%nat)
    by (apply tileAt_is_Some; rewrite Hcell; eauto).
  destruct (forEachCell_cell cleanCell tilemap x y cleanCell_own Hx)
    as (s & Hlen & Hrl & Hrest & ->).
  assert (Hself : tileAt s x y = Some v)
    by (rewrite Hrest; [exact Hcell | unfold visitedBefore; lia]).
  assert (Hright : tileAt s (S x) y = tileAt tilemap (S x) y)
    by (apply Hrest; unfold visitedBefore; lia).
  assert (Hbelow : tileAt s x (S y) = tileAt tilemap x (S y))
    by (apply Hrest; unfold visitedBefore; lia).
  assert (His0 : forall o, js_is0 o = true -> o = Some 0)
    by (intros [[| |]|]; cbn; congruence).
  unfold cleanCell. rewrite Hself. cbn [js_le0].
  destruct (Z.leb_spec v 0) as [Hle|Hgt]; [left; exact Hself|].
  destruct (tileAtZ_succ s x y) as [-> ->].
  destruct (js_is0 (tileAtZ s (Z.of_nat x - 1) (Z.of_nat y))
            && js_is0 (tileAt s (S x) y)) eqn:HH.
  - right. split; [exact Hgt|].
    split; [apply tileAt_setTile_eq; now rewrite Hrl|].
    apply andb_true_iff in HH as [_ HH]. left.
    rewrite <- Hright. now apply His0.
  - destruct ((js_is0 (if 0 <? Z.of_nat y
                       then tileAtZ s (Z.of_nat x) (Z.of_nat y - 1)
                       else None))
              && js_is0 (if Z.of_nat y <? Z.of_nat (length s) - 1
                         then tileAt s x (S y) else None)) eqn:HV.
    + right. split; [exact Hgt|].
      split; [apply tileAt_setTile_eq; now rewrite Hrl|].
      apply andb_true_iff in HV as [_ HV]. right.
      destruct (Z.of_nat y <? Z.of_nat (length s) - 1); [|discriminate].
      rewrite <- Hbelow. now apply His0.
    + left. exact Hself.
Qed.

Lemma cleanTilemap_tiles_witness :
  let sliver := [[1; 1; 1]; [0; 1; 0]; [1; 1; 1]] in
  let tilemap' := fst (cleanTilemap 1 small_dungeon sliver []) in
  tileAt sliver 1 1 = Some 1 /\
  (tileAt tilemap' 1 1 = Some 1 \/
   (0 < 1 /\ tileAt tilemap' 1 1 = Some 0 /\
    (tileAt sliver 2 1 = Some 0 \/ tileAt sliver 1 2 = Some 0))).
Proof.
  intros sliver tilemap'. split; [reflexivity|].
  exact (cleanTilemap_tiles 1 small_dungeon sliver [] 1 1 1 eq_refl).
Defined.

Lemma cleanPropCell_own spikes r : writesOwnCell (cleanPropCell spikes r).
Proof.
  intros t x y. unfold cleanPropCell. destruct (tileAt t x y); [|now left].
  repeat match goal with
         | |- context [if ?b then _ else _] => destruct b
         end; eauto.
Qed.

Lemma cleanProps_rect spikes r (props : TileMap) x y v :
  tileAt props x y = Some v ->
  tileAt (forEachCell (cleanPropCell spikes r) props) x y =
  Some (if (v =? spikes) && inRectb r x y then 0 else v).
Proof.
  intros Hcell.
  assert (Hx : (x < rowLength props y)%nat)
    by (apply tileAt_is_Some; rewrite Hcell; eauto).
  destruct (forEachCell_cell (cleanPropCell spikes r) props x y
              (cleanPropCell_own spikes r) Hx)
    as (s & Hlen & Hrl & Hrest & ->).
  assert (Hself : tileAt s x y = Some v)
    by (rewrite Hrest; [exact Hcell | unfold visitedBefore; lia]).
  unfold cleanPropCell. rewrite Hself. fold (inRectb r x y).
  destruct (v =? spikes); [|exact Hself].
  destruct (inRectb r x y); [|exact Hself].
  apply tileAt_setTile_eq. now rewrite Hrl.
Qed.

Lemma cleanProps_fold spikes cs : forall (props : TileMap) x y v,
  tileAt props x y = Some v ->
  tileAt (fold_left
            (fun p container =>
               match room container with
               | None => p
               | Some room =>
                   forEachCell (cleanPropCell spikes (room_rect room)) p
               end) cs props) x y =
  Some (if (v =? spikes)
           && existsb (fun c => match room c with
                                | Some rm => inRectb (room_rect rm) x y
                                | None => false
                                end) cs
        then 0 else v).
Proof.
  induction cs as [|c cs IH]; intros props x y v Hcell.
  - cbn. now rewrite andb_false_r.
  - cbn [fold_left existsb]. destruct (room c) as [rm|].
    + rewrite (IH _ x y _ (cleanProps_rect spikes (room_rect rm) props x y v
                             Hcell)).
      destruct (Z.eqb_spec v spikes) as [->|Hne]; cbn [andb].
      * destruct (inRectb (room_rect rm) x y); cbn [orb].
        -- now destruct ((0 =? spikes) && _).
        -- now rewrite Z.eqb_refl.
      * apply Z.eqb_neq in Hne. now rewrite Hne.
    + now apply IH.
Qed.

(** The second pass of [cleanTilemap] takes the spikes out of the rooms:
    afterwards a cell of the prop grid that lies in the room of a leaf does
    not hold spikes (spikes being another id than 0), a cell that held
    spikes in a room holds 0, and every other cell holds what it held
    before. *)
Theorem cleanTilemap_props spikes node tilemap props x y v :
  spikes <> 0 ->
  tileAt props x y = Some v ->
  let props' := snd (cleanTilemap spikes node tilemap props) in
  (inSomeRoom (leaves node) x y -> tileAt props' x y <> Some spikes) /\
  (inSomeRoom (leaves node) x y -> v = spikes -> tileAt props' x y = Some 0) /\
  (~ inSomeRoom (leaves node) x y \/ v <> spikes ->
   tileAt props' x y = Some v).
Proof.
  intros Hspikes Hcell props'. subst props'. unfold cleanTilemap. cbn [snd].
  rewrite (cleanProps_fold spikes (leaves node) props x y v Hcell).
  set (inRoom := existsb _ (leaves node)).
  assert (Hroom : inRoom = true <-> inSomeRoom (leaves node) x y).
  { unfold inRoom. rewrite existsb_exists. split.
    - intros (c & Hin & Hb). destruct (room c) as [rm|] eqn:Hrm;
        [|discriminate].
      exists c, rm. split; [now apply list_elem_of_In|].
      split; [exact Hrm|]. now apply inRectb_inside.
    - intros (c & rm & Hin & Hrm & Hins). exists c.
      split; [now apply list_elem_of_In|]. rewrite Hrm.
      now apply inRectb_inside. }
  destruct (Z.eqb_spec v spikes) as [->|Hne]; cbn [andb].
  - destruct inRoom.
    + split; [intros _; congruence|]. split; [reflexivity|].
      intros [Hout | Hv]; [exfalso; apply Hout; now apply Hroom | congruence].
    + split; [intros Hin; apply Hroom in Hin; discriminate|].
      split; [intros Hin; apply Hroom in Hin; discriminate | reflexivity].
  - split; [intros _; congruence|]. split; [congruence | reflexivity].
Qed.

Lemma cleanTilemap_props_witness :
  let props := [[0; 0; 0; 0; 0]; [0; 7; 0; 0; 0]] in
  (7 <> 0 /\ tileAt props 1 1 = Some 7 /\
   inSomeRoom (leaves small_dungeon) 1 1) /\
  tileAt (snd (cleanTilemap 7 small_dungeon [] props)) 1 1 = Some 0.
Proof.
  intros props.
  assert (Hin : inSomeRoom (leaves small_dungeon) 1 1).
  { eexists _, _. split; [apply list_elem_of_here|].
    split; [reflexivity|]. unfold inside, rright, rdown. cbn. lia. }
  split; [split; [lia | split; [reflexivity | exact Hin]]|].
  destruct (cleanTilemap_props 7 small_dungeon [] props 1 1 7) as (_ & H & _);
    [lia | reflexivity |].
  exact (H Hin eq_refl).
Defined.

(** ** Stamps *)

Lemma foldOutcome_app {A B : Type} (f : A -> B -> Outcome A) l1 l2 a :
  foldOutcome f (l1 ++ l2) a = a' ← foldOutcome f l1 a; foldOutcome f l2 a'.
Proof.
  revert a. induction l1 as [|b l1 IH]; intros a; [reflexivity|].
  cbn [app foldOutcome]. destruct (f a b); cbn; [apply IH | reflexivity..].
Qed.

(** Induction over a counting loop that a throw leaves: every step
    returns. *)
Lemma foldOutcome_seq_ind {S : Type} (f : S -> nat -> Outcome S)
  (P : nat -> S -> Prop) (n : nat) (s : S) :
  P O s ->
  (forall i s', (i < n)%nat -> P i s' ->
     exists s'', f s' i = Returns s'' /\ P (Datatypes.S i) s'') ->
  exists s', foldOutcome f (seq 0 n) s = Returns s' /\ P n s'.
Proof.
  intros H0 Hstep. induction n as [|n IH].
  - exists s. now split.
  - destruct IH as (s' & Hrun & HP).
    { intros i s' Hi. apply Hstep. lia. }
    destruct (Hstep n s') as (s'' & Hf & HP'); [lia | exact HP|].
    exists s''. rewrite seq_S, foldOutcome_app, Hrun. cbn.
    rewrite Hf. now split.
Qed.

(** What holds of the start of a loop and is kept by every step that returns
    holds of what the loop returns. *)
Lemma foldOutcome_returns {A B : Type} (f : A -> B -> Outcome A)
  (P : A -> Prop) l : forall a a',
  P a ->
  (forall a b a', P a -> b ∈ l -> f a b = Returns a' -> P a') ->
  foldOutcome f l a = Returns a' -> P a'.
Proof.
  induction l as [|b l IH]; intros a a' Ha Hstep Hrun.
  - cbn in Hrun. congruence.
  - cbn [foldOutcome] in Hrun. destruct (f a b) as [a1| |] eqn:Hf;
      cbn in Hrun; try discriminate.
    apply (IH a1 a'); [| |exact Hrun].
    + apply (Hstep a b a1 Ha); [apply list_elem_of_here | exact Hf].
    + intros a2 b2 a3 Ha2 Hin. apply Hstep; [exact Ha2|].
      now apply list_elem_of_further.
Qed.

Lemma writeAt_returns (t : TileMap) (posX posY : Z) (v : option Z) t' :
  writeAt t posX posY v = Returns t' ->
  exists val, v = Some val /\ 0 <= posX /\ 0 <= posY /\
    (Z.to_nat posX < rowLength t (Z.to_nat posY))%nat /\
    t' = setTile t (Z.to_nat posX) (Z.to_nat posY) val.
Proof.
  unfold writeAt.
  destruct (Z.ltb_spec posY 0); [discriminate|].
  destruct (Z.leb_spec (Z.of_nat (length t)) posY); [discriminate|].
  cbn [orb]. destruct v as [val|]; [|discriminate].
  destruct (Z.ltb_spec posX 0); [discriminate|].
  destruct (Z.leb_spec (Z.of_nat (rowLength t (Z.to_nat posY))) posX);
    [discriminate|].
  cbn [orb]. intros [= <-]. exists val. repeat split; try lia.
Qed.

Lemma writeAt_on_grid (t : TileMap) (posX posY : Z) (val : Z) :
  0 <= posX -> 0 <= posY ->
  (Z.to_nat posX < rowLength t (Z.to_nat posY))%nat ->
  writeAt t posX posY (Some val)
  = Returns (setTile t (Z.to_nat posX) (Z.to_nat posY) val).
Proof.
  intros Hx Hy Hin. unfold writeAt.
  pose proof (rowLength_lt_length t _ _ Hin) as Hrow.
  destruct (Z.ltb_spec posY 0); [lia|].
  destruct (Z.leb_spec (Z.of_nat (length t)) posY); [lia|].
  destruct (Z.ltb_spec posX 0); [lia|].
  destruct (Z.leb_spec (Z.of_nat (rowLength t (Z.to_nat posY))) posX); [lia|].
  reflexivity.
Qed.

Lemma sameShape_refl t : sameShape t t.
Proof. now split. Qed.

Lemma sameShape_trans t1 t2 t3 :
  sameShape t1 t2 -> sameShape t2 t3 -> sameShape t1 t3.
Proof.
  intros [H1 H2] [H3 H4]. split; [congruence|].
  intros y. now rewrite H4, H2.
Qed.

Lemma sameShape_setTile t x y v : sameShape t (setTile t x y v).
Proof. split; [apply length_setTile | intros; apply rowLength_setTile]. Qed.

Section Stamp.

Variables (sx sy w h : Z) (val : nat -> nat -> Z).
Variable body : TileMap -> nat -> nat -> Outcome TileMap.
Variable orig : TileMap.

Hypothesis Hbody : forall t x y,
  Z.of_nat x < w -> Z.of_nat y < h ->
  body t x y = writeAt t (sx + Z.of_nat x) (sy + Z.of_nat y) (Some (val x y)).

Hypothesis Hfit : forall x y,
  Z.of_nat x < w -> Z.of_nat y < h ->
  0 <= sx + Z.of_nat x /\ 0 <= sy + Z.of_nat y /\
  (Z.to_nat (sx + Z.of_nat x) < rowLength orig (Z.to_nat (sy + Z.of_nat y)))%nat.

Lemma forEachOffset_stamp :
  exists t',
    forEachOffset w h body orig = Returns t' /\
    sameShape orig t' /\
    (forall dx dy, Z.of_nat dx < w -> Z.of_nat dy < h ->
       tileAt t' (Z.to_nat (sx + Z.of_nat dx)) (Z.to_nat (sy + Z.of_nat dy))
       = Some (val dx dy)) /\
    (forall x' y',
       (forall dx dy, Z.of_nat dx < w -> Z.of_nat dy < h ->
          (x', y') <> (Z.to_nat (sx + Z.of_nat dx),
                       Z.to_nat (sy + Z.of_nat dy))) ->
       tileAt t' x' y' = tileAt orig x' y').
Proof.
  pose (stamped := fun (x y : nat) (t : TileMap) =>
  sameShape orig t /\
  (forall dx dy, Z.of_nat dx < w -> Z.of_nat dy < h ->
     visitedBefore dx dy x y ->
     tileAt t (Z.to_nat (sx + Z.of_nat dx)) (Z.to_nat (sy + Z.of_nat dy))
     = Some (val dx dy)) /\
  (forall x' y',
     (forall dx dy, Z.of_nat dx < w -> Z.of_nat dy < h ->
        visitedBefore dx dy x y ->
        (x', y') <> (Z.to_nat (sx + Z.of_nat dx),
                     Z.to_nat (sy + Z.of_nat dy))) ->
     tileAt t x' y' = tileAt orig x' y')).
  unfold forEachOffset.
  destruct (foldOutcome_seq_ind
              (fun t y => foldOutcome (fun t' x => body t' x y)
                            (seq 0 (Z.to_nat w)) t)
              (fun y t => stamped O y t) (Z.to_nat h) orig)
    as (t' & Hrun & Hshape & Hin & Hout).
  - split; [apply sameShape_refl|]. split.
    + intros dx dy _ _ Hv. unfold visitedBefore in Hv. lia.
    + intros x' y' _. reflexivity.
  - intros y t Hy Ht.
    destruct (foldOutcome_seq_ind (fun t' x => body t' x y)
                (fun x t' => stamped x y t') (Z.to_nat w) t)
      as (t' & Hrun & Ht'); [exact Ht| |].
    + intros x t' Hx (Hshape & Hin & Hout).
      assert (Hxw : Z.of_nat x < w) by lia.
      assert (Hyh : Z.of_nat y < h) by lia.
      destruct (Hfit x y Hxw Hyh) as (Hpx & Hpy & Hrow).
      rewrite (Hbody t' x y Hxw Hyh).
      destruct Hshape as [Hlen Hrl].
      rewrite writeAt_on_grid by (try rewrite Hrl; assumption).
      eexists. split; [reflexivity|]. split; [|split].
      * eapply sameShape_trans; [split; eassumption|].
        apply sameShape_setTile.
      * intros dx dy Hdx Hdy Hv.
        destruct (decide ((dx, dy) = (x, y))) as [[= -> ->]|Hne].
        -- apply tileAt_setTile_eq. now rewrite Hrl.
        -- rewrite tileAt_setTile_ne.
           ++ apply Hin; [exact Hdx | exact Hdy|].
              unfold visitedBefore in *.
              assert (dx <> x \/ dy <> y)
                by (destruct (decide (dx = x)); [right; congruence | now left]).
              lia.
           ++ destruct (Hfit dx dy Hdx Hdy) as (? & ? & _).
              intros [= H1 H2]. apply Hne. f_equal; lia.
      * intros x' y' Hfree. rewrite tileAt_setTile_ne.
        -- apply Hout. intros dx dy Hdx Hdy Hv. apply Hfree; try assumption.
           unfold visitedBefore in *. lia.
        -- apply Hfree; [exact Hxw | exact Hyh|].
           unfold visitedBefore. lia.
    + exists t'. split; [exact Hrun|].
      destruct Ht' as (Hshape & Hin & Hout). split; [exact Hshape|]. split.
      * intros dx dy Hdx Hdy Hv. apply Hin; try assumption.
        unfold visitedBefore in *. lia.
      * intros x' y' Hfree. apply Hout. intros dx dy Hdx Hdy Hv.
        apply Hfree; try assumption. unfold visitedBefore in *. lia.
  - exists t'. split; [exact Hrun|]. split; [exact Hshape|]. split.
    + intros dx dy Hdx Hdy. apply Hin; try assumption.
      unfold visitedBefore. lia.
    + intros x' y' Hfree. apply Hout. intros dx dy Hdx Hdy _.
      now apply Hfree.
Qed.

End Stamp.

Lemma Qceiling_centered (a n m : Z) :
  Qceiling (inject_Z a + inject_Z n / 2 - inject_Z m / 2) = a + (n - m + 1) / 2.
Proof.
  assert (Heq : (inject_Z a + inject_Z n / 2 - inject_Z m / 2
                 == Qmake (2 * a + n - m) 2)%Q).
  { unfold Qeq, Qminus, Qplus, Qdiv, Qmult, Qinv, Qopp, inject_Z. cbn. lia. }
  rewrite (Qceiling_comp _ _ Heq).
  unfold Qceiling, Qfloor, Qopp. cbn [Qnum Qden].
  Z.div_mod_to_equations. lia.
Qed.

Lemma patternStart_eq (r : Rectangle) (p : Pattern) :
  patternStart r p =
  (rx r + (rwidth r - pwidth p + 1) / 2, ry r + (rheight r - pheight p + 1) / 2).
Proof.
  unfold patternStart, center. cbn [fst snd].
  now rewrite !Qceiling_centered.
Qed.

Lemma patternStart_inside (r : Rectangle) (hole : Pattern) x y dx dy :
  holeFits r hole = true ->
  atOffset r hole x y dx dy ->
  inside r (Z.of_nat x) (Z.of_nat y).
Proof.
  unfold holeFits, atOffset. rewrite patternStart_eq. cbn [fst snd].
  intros Hfit (Hdx & Hdy & -> & ->).
  apply andb_true_iff in Hfit as [Hw Hh].
  apply Z.leb_le in Hw, Hh.
  unfold inside, rright, rdown.
  Z.div_mod_to_equations. lia.
Qed.

(** A hole pattern that passed the size test of [generateRooms] is stamped
    within its room: every cell of the footprint that [carvePatterns]
    computes is a cell of the room. *)
Theorem carvePatterns_footprint (r : Rectangle) (hole : Pattern) x y dx dy :
  holeFits r hole = true ->
  atOffset r hole x y dx dy ->
  inside r (Z.of_nat x) (Z.of_nat y).
Proof. apply patternStart_inside. Qed.

Lemma carvePatterns_footprint_witness :
  let r := mkRectangle 2 3 4 6 in
  (holeFits r (solidPattern 2 3) = true /\
   atOffset r (solidPattern 2 3) 3 5 0 0) /\
  inside r 3 5.
Proof.
  intros r.
  assert (Hfit : holeFits r (solidPattern 2 3) = true) by reflexivity.
  assert (Hat : atOffset r (solidPattern 2 3) 3 5 0 0).
  { unfold atOffset. rewrite patternStart_eq. vm_compute.
    repeat split; reflexivity. }
  split; [now split|].
  exact (carvePatterns_footprint r (solidPattern 2 3) 3 5 0 0 Hfit Hat).
Defined.

Lemma onGrid_shape r t t' : sameShape t t' -> onGrid r t -> onGrid r t'.
Proof.
  intros [_ Hrl] Hon px py Hin. rewrite Hrl. now apply Hon.
Qed.

Lemma carveHole_stamps (rm : Room) (hole : Pattern) (tilemap : TileMap) :
  holeFits (room_rect rm) hole = true ->
  wellFormed hole ->
  onGrid (room_rect rm) tilemap ->
  exists t',
    carveHole rm hole tilemap = Returns t' /\
    sameShape tilemap t' /\
    (forall x y dx dy, atOffset (room_rect rm) hole x y dx dy ->
       tileAt t' x y = patternTile hole dx dy) /\
    (forall x y, (forall dx dy, ~ atOffset (room_rect rm) hole x y dx dy) ->
       tileAt t' x y = tileAt tilemap x y).
Proof.
  intros Hfit Hwf Hon. unfold carveHole.
  set (sx := fst (patternStart (room_rect rm) hole)).
  set (sy := snd (patternStart (room_rect rm) hole)).
  assert (Hpos : forall x y, Z.of_nat x < pwidth hole ->
            Z.of_nat y < pheight hole ->
            0 <= sx + Z.of_nat x /\ 0 <= sy + Z.of_nat y /\
            (Z.to_nat (sx + Z.of_nat x)
             < rowLength tilemap (Z.to_nat (sy + Z.of_nat y)))%nat).
  { intros x y Hx Hy.
    assert (Hin : inside (room_rect rm) (sx + Z.of_nat x) (sy + Z.of_nat y)).
    { subst sx sy. revert Hfit. unfold holeFits.
      rewrite patternStart_eq. cbn [fst snd]. intros Hfit.
      apply andb_true_iff in Hfit as [Hw Hh]. apply Z.leb_le in Hw, Hh.
      unfold inside, rright, rdown. Z.div_mod_to_equations. lia. }
    exact (Hon _ _ Hin). }
  destruct (forEachOffset_stamp sx sy (pwidth hole) (pheight hole)
              (fun x y => default 0 (patternTile hole x y))
              (fun t x y =>
                 match tiles hole !! y with
                 | Some row =>
                     writeAt t (sx + Z.of_nat x) (sy + Z.of_nat y) (row !! x)
                 | None => TypeError
                 end) tilemap)
    as (t' & Hrun & Hshape & Hin & Hout).
  - intros t x y Hx Hy. destruct (Hwf x y Hx Hy) as [v Hv].
    unfold patternTile in *. destruct (tiles hole !! y) as [row|];
      [|discriminate]. now rewrite Hv.
  - exact Hpos.
  - exists t'. split; [exact Hrun|]. split; [exact Hshape|]. split.
    + intros x y dx dy (Hdx & Hdy & Hx & Hy). fold sx in Hx. fold sy in Hy.
      specialize (Hin dx dy Hdx Hdy). rewrite <- Hx, <- Hy, !Nat2Z.id in Hin.
      rewrite Hin. destruct (Hwf dx dy Hdx Hdy) as [v ->]. reflexivity.
    + intros x y Hfree. apply Hout. intros dx dy Hdx Hdy [= -> ->].
      apply (Hfree dx dy). destruct (Hpos dx dy Hdx Hdy) as (? & ? & _).
      unfold atOffset. fold sx sy. rewrite !Z2Nat.id by assumption.
      now repeat split.
Qed.
(** ** carveTraps *)

Lemma wroteOnly_refl v t : wroteOnly v t t.
Proof. split; [apply sameShape_refl | now left]. Qed.

Lemma wroteOnly_trans v t1 t2 t3 :
  wroteOnly v t1 t2 -> wroteOnly v t2 t3 -> wroteOnly v t1 t3.
Proof.
  intros [Hs1 Hc1] [Hs2 Hc2]. split; [eapply sameShape_trans; eassumption|].
  intros x y. destruct (Hc2 x y) as [-> | ->]; [apply Hc1 | now right].
Qed.

Lemma writeAt_wroteOnly v t posX posY t' :
  writeAt t posX posY (Some v) = Returns t' -> wroteOnly v t t'.
Proof.
  intros Hw. apply writeAt_returns in Hw
    as (val & Hval & Hx & Hy & Hrow & ->).
  injection Hval as <-.
  split; [apply sameShape_setTile|]. intros x y.
  destruct (decide ((x, y) = (Z.to_nat posX, Z.to_nat posY))) as [[= -> ->]|Hne].
  - right. now apply tileAt_setTile_eq.
  - left. now apply tileAt_setTile_ne.
Qed.

Lemma forEachOffset_returns (P : TileMap -> Prop) w h body t t' :
  P t ->
  (forall s x y s', P s -> body s x y = Returns s' -> P s') ->
  forEachOffset w h body t = Returns t' -> P t'.
Proof.
  intros Ht Hstep. unfold forEachOffset.
  apply (foldOutcome_returns _ P); [exact Ht|].
  intros s y s' Hs _. apply (foldOutcome_returns _ P); [exact Hs|].
  intros s1 x s2 Hs1 _. now apply Hstep.
Qed.

Lemma carveTrap_wroteOnly spikes cor trap t t' :
  carveTrap spikes cor trap t = Returns t' -> wroteOnly spikes t t'.
Proof.
  unfold carveTrap. apply forEachOffset_returns; [apply wroteOnly_refl|].
  intros s x y s' Hs Hw. eapply wroteOnly_trans; [exact Hs|].
  eapply writeAt_wroteOnly, Hw.
Qed.

Lemma carveTraps_wroteOnly spikes node : forall t t',
  carveTraps spikes node t = Returns t' -> wroteOnly spikes t t'.
Proof.
  induction node as [c l r IHl IHr] using TreeNode_nested_ind.
  intros t t' Hrun. cbn [carveTraps] in Hrun.
  destruct (corridor c) as [cor|];
    [|injection Hrun as <-; apply wroteOnly_refl].
  assert (Hfirst : forall t1,
            match traps cor with
            | Some trap => carveTrap spikes cor trap t
            | None => Returns t
            end = Returns t1 -> wroteOnly spikes t t1).
  { intros t1. destruct (traps cor) as [trap|].
    - apply carveTrap_wroteOnly.
    - intros [= <-]. apply wroteOnly_refl. }
  destruct (match traps cor with
            | Some trap => carveTrap spikes cor trap t
            | None => Returns t
            end) as [t1| |]; cbn in Hrun; try discriminate.
  destruct l as [tl|]; [|discriminate].
  destruct (carveTraps spikes tl t1) as [t2| |] eqn:Hl; cbn in Hrun;
    try discriminate.
  destruct r as [tr|]; [|discriminate].
  eapply wroteOnly_trans; [apply Hfirst; reflexivity|].
  eapply wroteOnly_trans; [apply (IHl tl eq_refl _ _ Hl)|].
  apply (IHr tr eq_refl _ _ Hrun).
Qed.

(** [carveTraps] writes spikes and nothing else: when it returns, the grid
    has the shape it had and every cell holds what it held or
    [PropType.Spikes]. *)
Theorem carveTraps_spikes spikes node t t' :
  carveTraps spikes node t = Returns t' ->
  sameShape t t' /\
  forall x y, tileAt t' x y = tileAt t x y \/ tileAt t' x y = Some spikes.
Proof. apply carveTraps_wroteOnly. Qed.

Lemma carveTraps_spikes_witness :
  let props := createTilemap 5 8 0 in
  let props' :=
    [[0; 0; 0; 0; 0]; [0; 0; 0; 0; 0]; [0; 0; 0; 0; 0]; [0; 0; 0; 0; 0];
     [0; 0; 0; 0; 7]; [0; 0; 0; 0; 7]; [0; 0; 0; 0; 0]; [0; 0; 0; 0; 0]] in
  carveTraps 7 trapped_dungeon props = Returns props' /\
  sameShape props props' /\
  forall x y, tileAt props' x y = tileAt props x y \/ tileAt props' x y = Some 7.
Proof.
  intros props props'.
  assert (Hrun : carveTraps 7 trapped_dungeon props = Returns props')
    by reflexivity.
  split; [exact Hrun|].
  exact (carveTraps_spikes 7 trapped_dungeon props props' Hrun).
Defined.

(** ** carvePatterns *)

Lemma carvePatterns_fold cs : forall tilemap,
  (forall c rm hole, c ∈ cs -> room c = Some rm -> holes rm = Some hole ->
     holeFits (room_rect rm) hole = true /\ wellFormed hole /\
     onGrid (room_rect rm) tilemap) ->
  exists t',
    foldOutcome
      (fun t container =>
         match room container with
         | None => Returns t
         | Some room =>
             match holes room with
             | None => Returns t
             | Some holes => carveHole room holes t
             end
         end) cs tilemap = Returns t' /\
    sameShape tilemap t' /\
    forall x y, ~ inSomeRoom cs x y -> tileAt t' x y = tileAt tilemap x y.
Proof.
  induction cs as [|c cs IH]; intros tilemap Hok.
  - exists tilemap. split; [reflexivity|]. split; [apply sameShape_refl|].
    reflexivity.
  - cbn [foldOutcome].
    assert (Hstep : exists t1,
              match room c with
              | None => Returns tilemap
              | Some room =>
                  match holes room with
                  | None => Returns tilemap
                  | Some holes => carveHole room holes tilemap
                  end
              end = Returns t1 /\ sameShape tilemap t1 /\
              forall x y, ~ inSomeRoom (c :: cs) x y ->
                tileAt t1 x y = tileAt tilemap x y).
    { destruct (room c) as [rm|] eqn:Hrm;
        [|exists tilemap; split; [reflexivity|];
          split; [apply sameShape_refl | reflexivity]].
      destruct (holes rm) as [hole|] eqn:Hh;
        [|exists tilemap; split; [reflexivity|];
          split; [apply sameShape_refl | reflexivity]].
      destruct (Hok c rm hole (list_elem_of_here _ _) Hrm Hh)
        as (Hfit & Hwf & Hon).
      destruct (carveHole_stamps rm hole tilemap Hfit Hwf Hon)
        as (t1 & Hrun & Hshape & _ & Hout).
      exists t1. split; [exact Hrun|]. split; [exact Hshape|].
      intros x y Hfree. apply Hout. intros dx dy Hat. apply Hfree.
      exists c, rm. split; [apply list_elem_of_here|]. split; [exact Hrm|].
      exact (patternStart_inside _ _ _ _ _ _ Hfit Hat). }
    destruct Hstep as (t1 & -> & Hshape1 & Hout1). cbn.
    destruct (IH t1) as (t' & Hrun & Hshape & Hout).
    { intros c' rm hole Hin Hrm Hh.
      destruct (Hok c' rm hole (list_elem_of_further _ _ _ Hin) Hrm Hh)
        as (Hfit & Hwf & Hon).
      split; [exact Hfit|]. split; [exact Hwf|].
      exact (onGrid_shape _ _ _ Hshape1 Hon). }
    exists t'. split; [exact Hrun|].
    split; [eapply sameShape_trans; eassumption|].
    intros x y Hfree. rewrite Hout.
    + now apply Hout1.
    + intros (c' & rm & Hin & Hrm & Hins). apply Hfree.
      exists c', rm. split; [now apply list_elem_of_further|]. now split.
Qed.

(** A hole that passed the size test of [generateRooms], with an id at
    every offset, in a room that lies on the grid, is stamped without an
    error: the cells of its footprint hold the ids of the pattern and every
    other cell holds what it held. *)
Theorem carvePatterns_hole (rm : Room) (hole : Pattern) (tilemap : TileMap) :
  holeFits (room_rect rm) hole = true ->
  wellFormed hole ->
  onGrid (room_rect rm) tilemap ->
  exists t',
    carveHole rm hole tilemap = Returns t' /\
    sameShape tilemap t' /\
    (forall x y dx dy, atOffset (room_rect rm) hole x y dx dy ->
       tileAt t' x y = patternTile hole dx dy) /\
    (forall x y, (forall dx dy, ~ atOffset (room_rect rm) hole x y dx dy) ->
       tileAt t' x y = tileAt tilemap x y).
Proof. apply carveHole_stamps. Qed.

(** [carvePatterns] returns, and writes within the rooms only, on a tree in
    which every hole passed the size test, has an id at every offset and
    belongs to a room that lies on the grid. *)
Theorem carvePatterns_returns node tilemap :
  (forall c rm hole, c ∈ leaves node -> room c = Some rm ->
     holes rm = Some hole ->
     holeFits (room_rect rm) hole = true /\ wellFormed hole /\
     onGrid (room_rect rm) tilemap) ->
  exists t',
    carvePatterns node tilemap = Returns t' /\
    sameShape tilemap t' /\
    forall x y, ~ inSomeRoom (leaves node) x y ->
      tileAt t' x y = tileAt tilemap x y.
Proof. apply carvePatterns_fold. Qed.
(** ** generateTilemap *)

Lemma createTilemap_length w h v :
  length (createTilemap w h v) = Z.to_nat h.
Proof. unfold createTilemap. apply length_replicate. Qed.

Lemma createTilemap_rowLength w h v y :
  (y < Z.to_nat h)%nat -> rowLength (createTilemap w h v) y = Z.to_nat w.
Proof.
  intros Hy. unfold rowLength, createTilemap.
  rewrite lookup_replicate_2 by exact Hy. apply length_replicate.
Qed.

Lemma createTilemap_tileAt w h v x y v' :
  tileAt (createTilemap w h v) x y = Some v' -> v' = v.
Proof.
  unfold tileAt, createTilemap.
  destruct (replicate _ _ !! y) as [row|] eqn:Hrow; [|discriminate].
  apply lookup_replicate in Hrow as [-> _].
  intros Hc. now apply lookup_replicate in Hc as [-> _].
Qed.

Lemma hasShape_createTilemap w h v t :
  0 <= h -> sameShape (createTilemap w h v) t -> hasShape t w h.
Proof.
  intros Hh [Hlen Hrl]. rewrite createTilemap_length in Hlen. split; [lia|].
  unfold rectangular. apply Forall_lookup. intros y row Hrow.
  pose proof (lookup_lt_Some _ _ _ Hrow) as Hy.
  specialize (Hrl y). rewrite createTilemap_rowLength in Hrl by lia.
  unfold rowLength in Hrl. now rewrite Hrow in Hrl.
Qed.

Lemma onGrid_createTilemap r w h v t :
  contained r (mkRectangle 0 0 w h) ->
  sameShape (createTilemap w h v) t -> onGrid r t.
Proof.
  unfold contained, rright, rdown. cbn [rx ry rwidth rheight].
  intros (Hx & Hr & Hy & Hd) [_ Hrl] px py [[Hx1 Hx2] [Hy1 Hy2]].
  unfold rright, rdown in *.
  split; [lia|]. split; [lia|].
  rewrite Hrl, createTilemap_rowLength by lia. lia.
Qed.

Lemma forEachCell_shape body t :
  writesOwnCell body -> sameShape t (forEachCell body t).
Proof.
  intros Hown.
  destruct (forEachCell_ind body t (fun _ _ _ => True) Hown) as (_ & Hlen & Hrl);
    try easy.
Qed.

Lemma carveCell_own r : writesOwnCell (carveCell r).
Proof. intros t x y. unfold carveCell. destruct (_ && _); eauto. Qed.

Lemma generateTileMask_shape td t : sameShape t (generateTileMask td t).
Proof.
  apply forEachCell_shape. intros s x y.
  destruct (js_gt0 (tileAt s x y)); eauto.
Qed.

Lemma carveRooms_shape node t : sameShape t (carveRooms node t).
Proof.
  unfold carveRooms. revert t.
  induction (leaves node) as [|c cs IH]; intros t; [apply sameShape_refl|].
  cbn [fold_left]. eapply sameShape_trans; [|apply IH].
  destruct (room c); [|apply sameShape_refl].
  apply forEachCell_shape, carveCell_own.
Qed.

Lemma carveCorridors_shape node : forall props tilemap props',
  carveCorridors node props tilemap = Some props' -> sameShape props props'.
Proof.
  induction node as [c l r IHl IHr] using TreeNode_nested_ind.
  intros props tilemap props' Hrun. cbn [carveCorridors] in Hrun.
  destruct (corridor c) as [cor|];
    [|injection Hrun as <-; apply sameShape_refl].
  destruct l as [tl|]; [|discriminate].
  destruct (carveCorridors tl _ tilemap) as [props1|] eqn:Hl; [|discriminate].
  destruct r as [tr|]; [|discriminate].
  eapply sameShape_trans; [apply forEachCell_shape, carveCell_own|].
  eapply sameShape_trans; [apply (IHl tl eq_refl _ _ _ Hl)|].
  apply (IHr tr eq_refl _ _ _ Hrun).
Qed.

Lemma writeAt_shape t posX posY v t' :
  writeAt t posX posY v = Returns t' -> sameShape t t'.
Proof.
  intros Hw. apply writeAt_returns in Hw as (val & _ & _ & _ & _ & ->).
  apply sameShape_setTile.
Qed.

Lemma carvePatterns_shape node t t' :
  carvePatterns node t = Returns t' -> sameShape t t'.
Proof.
  unfold carvePatterns.
  apply (foldOutcome_returns _ (sameShape t)); [apply sameShape_refl|].
  intros s c s' Hs _ Hstep. eapply sameShape_trans; [exact Hs|].
  destruct (room c) as [rm|];
    [|injection Hstep as <-; apply sameShape_refl].
  destruct (holes rm) as [hole|];
    [|injection Hstep as <-; apply sameShape_refl].
  revert Hstep. unfold carveHole.
  apply forEachOffset_returns; [apply sameShape_refl|].
  intros s1 x y s2 Hs1 Hw. eapply sameShape_trans; [exact Hs1|].
  destruct (tiles hole !! y); [|discriminate].
  eapply writeAt_shape, Hw.
Qed.

Lemma cleanTilemap_shape spikes node t p :
  sameShape t (fst (cleanTilemap spikes node t p)) /\
  sameShape p (snd (cleanTilemap spikes node t p)).
Proof.
  unfold cleanTilemap. cbn [fst snd].
  split; [apply forEachCell_shape, cleanCell_own|].
  revert p. induction (leaves node) as [|c cs IH]; intros p;
    [apply sameShape_refl|].
  cbn [fold_left]. eapply sameShape_trans; [|apply IH].
  destruct (room c); [|apply sameShape_refl].
  apply forEachCell_shape, cleanPropCell_own.
Qed.

Lemma inSomeRoom_existsb cs x y :
  existsb (fun c => match room c with
                    | Some rm => inRectb (room_rect rm) x y
                    | None => false
                    end) cs = true <-> inSomeRoom cs x y.
Proof.
  rewrite existsb_exists. split.
  - intros (c & Hin & Hb). destruct (room c) as [rm|] eqn:Hrm;
      [|discriminate].
    exists c, rm. split; [now apply list_elem_of_In|].
    split; [exact Hrm|]. now apply inRectb_inside.
  - intros (c & rm & Hin & Hrm & Hins). exists c.
    split; [now apply list_elem_of_In|]. rewrite Hrm.
    now apply inRectb_inside.
Qed.

Lemma generateTilemap_hasShape td spikes tree args tilemap props :
  0 <= mapHeight args ->
  generateTilemap td spikes tree args = Returns (tilemap, props) ->
  hasShape tilemap (mapWidth args) (mapHeight args) /\
  hasShape props (mapWidth args) (mapHeight args).
Proof.
  intros Hh. unfold generateTilemap.
  destruct (carveCorridors tree _ _) as [t2|] eqn:Hcor; [|discriminate].
  destruct (carvePatterns tree t2) as [t3| |] eqn:Hpat; cbn; try discriminate.
  destruct (carveTraps spikes tree _) as [p1| |] eqn:Htrap; cbn;
    try discriminate.
  intros [= <- <-].
  destruct (cleanTilemap_shape spikes tree t3 p1) as [Hc1 Hc2].
  split.
  - apply (hasShape_createTilemap _ _ 1); [exact Hh|].
    eapply sameShape_trans; [apply carveRooms_shape|].
    eapply sameShape_trans; [eapply carveCorridors_shape, Hcor|].
    eapply sameShape_trans; [eapply carvePatterns_shape, Hpat|].
    eapply sameShape_trans; [exact Hc1|].
    eapply sameShape_trans; [apply generateTileMask_shape|].
    apply forEachCell_shape, normalizeCell_own.
  - apply (hasShape_createTilemap _ _ 0); [exact Hh|].
    eapply sameShape_trans; [|exact Hc2].
    apply (carveTraps_wroteOnly _ _ _ _ Htrap).
Qed.


(** ** generateTilemap on the tree of the constructor *)

Lemma leaves_allContainers node : forall c,
  c ∈ leaves node -> c ∈ allContainers node.
Proof.
  induction node as [c0 l r IHl IHr] using TreeNode_nested_ind.
  intros c Hin.
  assert (Hbottom : c ∈ [c0] -> c ∈ allContainers (mkTreeNode c0 l r)).
  { intros H. apply list_elem_of_singleton in H as ->. cbn.
    apply list_elem_of_here. }
  destruct l as [tl|]; [|now apply Hbottom].
  destruct r as [tr|]; [|now apply Hbottom].
  cbn [leaves allContainers] in *. apply list_elem_of_further.
  apply elem_of_app in Hin as [Hin | Hin]; apply elem_of_app.
  - left. now apply (IHl tl eq_refl).
  - right. now apply (IHr tr eq_refl).
Qed.

Lemma wellFormed_solidPattern w h : wellFormed (solidPattern w h).
Proof.
  intros x y Hx Hy. unfold patternTile, solidPattern in *. cbn in *.
  rewrite lookup_replicate_2 by lia.
  rewrite lookup_replicate_2 by lia. eauto.
Qed.

Section GeneratedTree.

Variable Holes_all : list Pattern.
Variables Traps_smallLarge Traps_smallLong : Pattern.
Variable direction : Corridor -> Direction.
Variable args : DungeonArgs.

Lemma generateRoom_holesFit c g :
  holesFit Holes_all c ->
  holesFit Holes_all (fst (generateRoom Holes_all args c g)).
Proof.
  intros Hc. unfold generateRoom.
  destruct (roomRectangle args c g) as [r g4].
  destruct (belowMinSize args r); [exact Hc|].
  destruct (holeCoin args g4) as [hasHole g5]. cbn [fst].
  intros rm hole. cbn [room]. intros [= <-].
  destruct hasHole as [[|]|]; try discriminate.
  rewrite attachHole_find. cbn [holes room_rect]. intros Hfind.
  apply find_some in Hfind as [Hin Hfit].
  split; [exact Hfit | now apply list_elem_of_In].
Qed.

(** The rooms of the constructor's tree lie within the root container, and
    their holes passed the size test. *)
Lemma dungeonTree_rooms fuel g tree g' :
  dungeonTree Holes_all Traps_smallLarge Traps_smallLong direction fuel args g
  = Some (tree, g') ->
  (0 <= containerWidthRatio args)%Q -> (0 <= containerHeightRatio args)%Q ->
  mapGutterWidth args * 2 <= mapWidth args ->
  mapGutterWidth args * 2 <= mapHeight args ->
  0 <= containerGutterWidth args -> unit_draws g ->
  Forall (fun c => keptWithin (rect (rootContainer args)) c /\
                   holesFit Holes_all c)
    (allContainers tree).
Proof.
  intros Hrun Hwr Hhr Hw Hh Hg Hu. unfold dungeonTree in Hrun.
  destruct (generateTree fuel (rootContainer args) (iterations args) args g)
    as [[t0 g1]|] eqn:Htree; [|discriminate].
  destruct (generateRooms Holes_all t0 args g1) as [t1 g2] eqn:Hrooms.
  injection Hrun as Hrun.
  assert (Ht1 : t1 = fst (generateRooms Holes_all t0 args g1))
    by now rewrite Hrooms.
  assert (Htr : tree = fst (generateCorridors Traps_smallLarge Traps_smallLong
                              direction t1 args g2)) by now rewrite Hrun.
  set (root := rect (rootContainer args)).
  assert (Hroot : nonnegSides (rootContainer args))
    by (unfold nonnegSides; cbn; lia).
  pose proof (generateTree_containers _ _ _ _ _ _ _ Htree Hwr Hhr Hroot
                eq_refl eq_refl) as H0.
  pose proof (generateTree_state args _ _ _ _ _ _ Htree Hu) as Hu1.
  assert (H1 : Forall (fun c => (keptWithin root c /\ nonnegSides c) /\
                                holesFit Holes_all c)
                 (allContainers t1)).
  { rewrite Ht1.
    refine (proj1 (generateRooms_containers Holes_all args _ unit_draws
                     _ _ t0 g1 _ Hu1)).
    - intros c gi. apply generateRoom_state.
    - intros c gi [Hc Hf] Hgi.
      split; [now apply generateRoom_keptWithin|].
      now apply generateRoom_holesFit.
    - eapply Forall_impl; [exact H0|].
      intros c (Hin & Hs & Hnone & _). split; [split; [|exact Hs]|].
      + split; [exact Hin|]. intros rm. rewrite Hnone. discriminate.
      + intros rm hole. rewrite Hnone. discriminate. }
  rewrite Htr.
  apply (generateCorridors_containers Traps_smallLarge Traps_smallLong
           direction args
           (fun c => keptWithin root c /\ holesFit Holes_all c)); [auto|].
  eapply Forall_impl; [exact H1|]. now intros c [[? _] ?].
Qed.

Lemma generateTilemap_carves td spikes fuel g tree g' props1 :
  dungeonTree Holes_all Traps_smallLarge Traps_smallLong direction fuel args g
  = Some (tree, g') ->
  (0 <= containerWidthRatio args)%Q -> (0 <= containerHeightRatio args)%Q ->
  0 <= mapGutterWidth args ->
  mapGutterWidth args * 2 <= mapWidth args ->
  mapGutterWidth args * 2 <= mapHeight args ->
  0 <= containerGutterWidth args -> unit_draws g ->
  Forall wellFormed Holes_all ->
  carveTraps spikes tree (createTilemap (mapWidth args) (mapHeight args) 0)
  = Returns props1 ->
  exists tilemap props,
    generateTilemap td spikes tree args = Returns (tilemap, props).
Proof.
  intros Hrun Hwr Hhr Hgut Hw Hh Hg Hu Hwf Htraps.
  pose proof (dungeonTree_rooms _ _ _ _ Hrun Hwr Hhr Hw Hh Hg Hu) as Hrooms.
  destruct (dungeonTree_corridors _ _ _ _ _ _ _ _ _ Hrun)
    as (tree0 & g0 & Hfree & Htree).
  unfold generateTilemap.
  set (t0 := createTilemap (mapWidth args) (mapHeight args) 1).
  destruct (proj2 (generateCorridors_reached Traps_smallLarge Traps_smallLong
                     direction tree0 args g0 Hfree)
              (carveRooms tree t0)
              (createTilemap (mapWidth args) (mapHeight args) 0))
    as [t2 Hcor].
  rewrite <- Htree in Hcor. rewrite Hcor.
  assert (Hshape2 : sameShape t0 t2).
  { eapply sameShape_trans; [apply carveRooms_shape|].
    eapply carveCorridors_shape, Hcor. }
  destruct (carvePatterns_fold (leaves tree) t2) as (t3 & Hpat & _).
  { intros c rm hole Hin Hrm Hhole.
    apply leaves_allContainers in Hin.
    rewrite Forall_forall in Hrooms.
    destruct (Hrooms c Hin) as [[_ Hkept] Hfit].
    destruct (Hfit rm hole Hrm Hhole) as [Hfits Hlib].
    split; [exact Hfits|]. split.
    - rewrite Forall_forall in Hwf. now apply Hwf.
    - apply (onGrid_createTilemap _ (mapWidth args) (mapHeight args) 1);
        [|exact Hshape2].
      specialize (Hkept rm Hrm). revert Hkept.
      unfold contained, rright, rdown. cbn. lia. }
  unfold carvePatterns. rewrite Hpat. cbn. rewrite Htraps. cbn.
  eauto.
Qed.

End GeneratedTree.

(** On the tree that the constructor builds, the stages of
    [generateTilemap] before [carveTraps] neither throw nor write off the
    grid: [generateTilemap] returns whenever [carveTraps] does.  The rooms
    lie on the map, the corridors are carved with a test of the position,
    and every hole was chosen to fit its room. *)
Theorem generateTilemap_returns Holes_all Traps_smallLarge Traps_smallLong
  direction args td spikes fuel g tree g' props1 :
  dungeonTree Holes_all Traps_smallLarge Traps_smallLong direction fuel args g
  = Some (tree, g') ->
  (0 <= containerWidthRatio args)%Q -> (0 <= containerHeightRatio args)%Q ->
  0 <= mapGutterWidth args ->
  mapGutterWidth args * 2 <= mapWidth args ->
  mapGutterWidth args * 2 <= mapHeight args ->
  0 <= containerGutterWidth args -> unit_draws g ->
  Forall wellFormed Holes_all ->
  carveTraps spikes tree (createTilemap (mapWidth args) (mapHeight args) 0)
  = Returns props1 ->
  exists tilemap props,
    generateTilemap td spikes tree args = Returns (tilemap, props).
Proof. apply generateTilemap_carves. Qed.

Lemma example_holes_wellFormed : Forall wellFormed example_holes.
Proof. repeat constructor; apply wellFormed_solidPattern. Qed.

Lemma holed_dungeon_run :
  dungeonTree example_holes example_trap_large example_trap_long
    example_direction 30 holed_args example_rng
  = Some (holed_dungeon, example_rng_at 17).
Proof. vm_compute. reflexivity. Qed.

Lemma carvePatterns_hole_witness :
  let rm := mkRoom (mkRectangle 1 2 5 6) (Some (solidPattern 2 2)) in
  let tilemap := createTilemap 12 10 0 in
  (holeFits (room_rect rm) (solidPattern 2 2) = true /\
   wellFormed (solidPattern 2 2) /\
   onGrid (room_rect rm) tilemap) /\
  exists t',
    carveHole rm (solidPattern 2 2) tilemap = Returns t' /\
    sameShape tilemap t' /\
    (forall x y dx dy,
       atOffset (room_rect rm) (solidPattern 2 2) x y dx dy ->
       tileAt t' x y = patternTile (solidPattern 2 2) dx dy) /\
    (forall x y,
       (forall dx dy,
          ~ atOffset (room_rect rm) (solidPattern 2 2) x y dx dy) ->
       tileAt t' x y = tileAt tilemap x y).
Proof.
  intros rm tilemap.
  assert (Hfit : holeFits (room_rect rm) (solidPattern 2 2) = true)
    by reflexivity.
  assert (Hon : onGrid (room_rect rm) tilemap).
  { apply (onGrid_createTilemap _ 12 10 0); [|apply sameShape_refl].
    unfold contained, rright, rdown. cbn. lia. }
  split; [split; [exact Hfit | split; [apply wellFormed_solidPattern|exact Hon]]|].
  exact (carvePatterns_hole rm (solidPattern 2 2) tilemap Hfit
           (wellFormed_solidPattern 2 2) Hon).
Defined.

Lemma holed_dungeon_holes c rm hole :
  c ∈ leaves holed_dungeon -> room c = Some rm -> holes rm = Some hole ->
  holeFits (room_rect rm) hole = true /\ wellFormed hole /\
  onGrid (room_rect rm) (createTilemap 12 10 1).
Proof.
  intros Hin Hrm Hh. cbn in Hin.
  assert (Hgrid : forall r, contained r (mkRectangle 0 0 12 10) ->
            onGrid r (createTilemap 12 10 1)).
  { intros r Hr. apply (onGrid_createTilemap _ 12 10 1); [exact Hr|].
    apply sameShape_refl. }
  apply elem_of_cons in Hin as [-> | Hin];
    [|apply elem_of_cons in Hin as [-> | Hin];
      [|apply elem_of_nil in Hin; contradiction]];
    cbn in Hrm; injection Hrm as <-; cbn in Hh; injection Hh as <-;
    (split; [reflexivity|]);
    (split; [apply (wellFormed_solidPattern 2 2)|]);
    apply Hgrid; unfold contained, rright, rdown; cbn; lia.
Qed.

Lemma carvePatterns_returns_witness :
  let tilemap := createTilemap 12 10 1 in
  exists t',
    carvePatterns holed_dungeon tilemap = Returns t' /\
    sameShape tilemap t' /\
    forall x y, ~ inSomeRoom (leaves holed_dungeon) x y ->
      tileAt t' x y = tileAt tilemap x y.
Proof.
  intros tilemap.
  exact (carvePatterns_returns holed_dungeon tilemap holed_dungeon_holes).
Defined.



Lemma generateTilemap_returns_witness :
  (dungeonTree example_holes example_trap_large example_trap_long
     example_direction 30 holed_args example_rng
   = Some (holed_dungeon, example_rng_at 17) /\
   carveTraps 7 holed_dungeon (createTilemap 12 10 0) = Returns holed_spikes) /\
  exists tilemap props,
    generateTilemap example_flags 7 holed_dungeon holed_args
    = Returns (tilemap, props).
Proof.
  assert (Htraps : carveTraps 7 holed_dungeon (createTilemap 12 10 0)
                   = Returns holed_spikes) by (vm_compute; reflexivity).
  split; [split; [exact holed_dungeon_run | exact Htraps]|].
  apply (generateTilemap_returns example_holes example_trap_large
           example_trap_long example_direction holed_args example_flags 7
           30 example_rng holed_dungeon (example_rng_at 17) holed_spikes
           holed_dungeon_run).
  - unfold Qle. cbn. lia.
  - unfold Qle. cbn. lia.
  - cbn. lia.
  - cbn. lia.
  - cbn. lia.
  - cbn. lia.
  - apply (example_rng_unit 0).
  - exact example_holes_wellFormed.
  - exact Htraps.
Defined.

(** ** The constructor *)



(** ** The first rule of normalizeTileMask *)

(** [normalizeTileMask] never reads the cell it rewrites before the first
    rule: under the guard, a cell with solid neighbours to the east and to
    the south and no solid neighbour to the south-east ends as
    [DirectionNWS], whatever it held (a floor cell too) and in whatever
    column but the last. *)
Theorem normalizeTileMask_first_rule td (t : TileMap) (x y : nat) :
  (0 < y)%nat -> (S y < length t)%nat -> (S x < rowLength t y)%nat ->
  js_gt0 (tileAt t (S x) y) = true ->
  js_gt0 (tileAt t x (S y)) = true ->
  js_le0 (tileAt t (S x) (S y)) = true ->
  tileAt (normalizeTileMask td t) x y = Some (DirectionNWS td).
Proof.
  intros Hy0 Hy1 Hw Hright Hbottom Hdiag. unfold normalizeTileMask.
  destruct (forEachCell_cell (normalizeCell td) t x y (normalizeCell_own td))
    as (s & Hlen & Hrl & Hrest & ->); [lia|].
  assert (normalizeGuard s x y = true) as Hguard.
  { unfold normalizeGuard. rewrite Hlen, Hrl.
    destruct (Z.ltb_spec 0 (Z.of_nat y)); [|lia].
    destruct (Z.ltb_spec (Z.of_nat y) (Z.of_nat (length t) - 1)); [|lia].
    destruct (Z.ltb_spec (Z.of_nat x) (Z.of_nat (rowLength t y) - 1)); [|lia].
    reflexivity. }
  unfold normalizeCell. rewrite Hguard. cbv zeta.
  replace (Z.of_nat x + 1) with (Z.of_nat (S x)) by lia.
  replace (Z.of_nat y + 1) with (Z.of_nat (S y)) by lia.
  rewrite !tileAtZ_nat.
  rewrite !Hrest by (unfold visitedBefore; lia).
  rewrite Hright, Hbottom, Hdiag. cbn [andb].
  apply tileAt_setTile_eq. rewrite Hrl. lia.
Qed.

Lemma normalizeTileMask_first_rule_witness :
  tileAt floor_corner_tiles 1 1 = Some 0 /\
  tileAt (normalizeTileMask example_flags floor_corner_tiles) 1 1
  = Some (DirectionNWS example_flags).
Proof.
  split; [reflexivity|].
  apply (normalizeTileMask_first_rule example_flags floor_corner_tiles 1 1);
    first [ reflexivity | cbn; lia ].
Defined.

(** ** The corridor of a node *)

Lemma center_le (a b n m : Z) :
  a + n <= b + m -> a <= b ->
  (inject_Z a + inject_Z n / 2 <= inject_Z b + inject_Z m / 2)%Q.
Proof.
  intros H1 H2.
  unfold Qle, Qplus, Qdiv, Qmult, Qinv, inject_Z. cbn. lia.
Qed.

Lemma center_eq (a b n m : Z) :
  (inject_Z a + inject_Z n / 2 == inject_Z b + inject_Z m / 2)%Q
  <-> 2 * a + n = 2 * b + m.
Proof.
  unfold Qeq, Qplus, Qdiv, Qmult, Qinv, inject_Z. cbn. lia.
Qed.

(** The corridor that [generateCorridors] gives a node joins the centers of
    its two children: it starts at the center of the left child, rounded
    up; over children that lie side by side it is [corridorWidth] high and
    ends at the column of the center of the right child; over children that
    lie one above the other it is [corridorWidth] wide and ends at the row of
    the center of the right child.  The comparison of the two centers tells
    the two cases apart as long as the node is not of width 0. *)
Theorem generateCorridors_joins Traps_smallLarge Traps_smallLong direction
  c l r args g :
  nonnegSides (leaf l) -> nonnegSides (leaf r) ->
  exists k,
    corridor (leaf (fst (generateCorridors Traps_smallLarge Traps_smallLong
                           direction (mkTreeNode c (Some l) (Some r))
                           args g))) = Some k /\
    rx (corridor_rect k) = Qceiling (fst (center (rect (leaf l)))) /\
    ry (corridor_rect k) = Qceiling (snd (center (rect (leaf l)))) /\
    (vertical_partition (rect c) (rect (leaf l)) (rect (leaf r)) ->
     rwidth (rect c) <> 0 ->
     rheight (corridor_rect k) = corridorWidth args /\
     rright (corridor_rect k) = Qceiling (fst (center (rect (leaf r)))) /\
     0 <= rwidth (corridor_rect k)) /\
    (horizontal_partition (rect c) (rect (leaf l)) (rect (leaf r)) ->
     rwidth (corridor_rect k) = corridorWidth args /\
     rdown (corridor_rect k) = Qceiling (snd (center (rect (leaf r)))) /\
     0 <= rheight (corridor_rect k)).
Proof.
  intros [Hlw Hlh] [Hrw Hrh]. cbn [generateCorridors].
  destruct (randomWeights _ _ g) as [hasTrap g1].
  destruct (generateCorridors _ _ _ l args g1) as [l' g2].
  destruct (generateCorridors _ _ _ r args g2) as [r' g3].
  cbn [fst leaf corridor].
  set (cor0 := if Qeq_bool _ _ then _ else _).
  set (cor := match hasTrap with Some true => _ | _ => cor0 end).
  assert (Hrect : corridor_rect cor = corridor_rect cor0)
    by (subst cor; now destruct hasTrap as [[|]|]).
  exists cor. split; [reflexivity|]. rewrite Hrect. clear cor Hrect.
  unfold center in *. cbn [fst snd] in *.
  split; [subst cor0; now destruct (Qeq_bool _ _)|].
  split; [subst cor0; now destruct (Qeq_bool _ _)|].
  split.
  - intros (Hx & Hy & Hh & Hy' & Hh' & Hw & Hx') Hc0.
    assert (Hne : Qeq_bool
                    (inject_Z (rx (rect (leaf l)))
                     + inject_Z (rwidth (rect (leaf l))) / 2)
                    (inject_Z (rx (rect (leaf r)))
                     + inject_Z (rwidth (rect (leaf r))) / 2) = false).
    { apply not_true_is_false. intros Heq. apply Qeq_bool_iff in Heq.
      apply center_eq in Heq. unfold rright in Hx'. lia. }
    subst cor0. rewrite Hne. unfold rright. cbn [corridor_rect rx rwidth rheight].
    split; [reflexivity|]. split; [lia|].
    assert (Qceiling (inject_Z (rx (rect (leaf l)))
                      + inject_Z (rwidth (rect (leaf l))) / 2)
            <= Qceiling (inject_Z (rx (rect (leaf r)))
                         + inject_Z (rwidth (rect (leaf r))) / 2)).
    { apply Qceiling_resp_le, center_le; unfold rright in Hx'; lia. }
    lia.
  - intros (Hx & Hy & Hw & Hx' & Hw' & Hh & Hy').
    assert (Heq : Qeq_bool
                    (inject_Z (rx (rect (leaf l)))
                     + inject_Z (rwidth (rect (leaf l))) / 2)
                    (inject_Z (rx (rect (leaf r)))
                     + inject_Z (rwidth (rect (leaf r))) / 2) = true).
    { apply Qeq_bool_iff, center_eq. lia. }
    subst cor0. rewrite Heq. unfold rdown. cbn [corridor_rect ry rwidth rheight].
    split; [reflexivity|]. split; [lia|].
    assert (Qceiling (inject_Z (ry (rect (leaf l)))
                      + inject_Z (rheight (rect (leaf l))) / 2)
            <= Qceiling (inject_Z (ry (rect (leaf r)))
                         + inject_Z (rheight (rect (leaf r))) / 2)).
    { apply Qceiling_resp_le, center_le; unfold rdown in Hy'; lia. }
    lia.
Qed.

Lemma generateCorridors_joins_witness :
  let c := mkContainer (mkRectangle 1 1 3 6) None None in
  let l := mkTreeNode (mkContainer (mkRectangle 1 1 3 3) None None) None None in
  let r := mkTreeNode (mkContainer (mkRectangle 1 4 3 3) None None) None None in
  (nonnegSides (leaf l) /\ nonnegSides (leaf r) /\
   horizontal_partition (rect c) (rect (leaf l)) (rect (leaf r))) /\
  exists k,
    corridor (leaf (fst (generateCorridors example_trap_large
                           example_trap_long example_direction
                           (mkTreeNode c (Some l) (Some r)) small_args
                           half_rng))) = Some k /\
    corridor_rect k = mkRectangle 3 3 2 3.
Proof.
  intros c l r.
  assert (Hl : nonnegSides (leaf l)) by (unfold nonnegSides; cbn; lia).
  assert (Hr : nonnegSides (leaf r)) by (unfold nonnegSides; cbn; lia).
  assert (Hp : horizontal_partition (rect c) (rect (leaf l)) (rect (leaf r)))
    by (unfold horizontal_partition, rdown; cbn; lia).
  split; [now repeat split|].
  destruct (generateCorridors_joins example_trap_large example_trap_long
              example_direction c l r small_args half_rng Hl Hr)
    as (k & Hk & Hx & Hy & _ & Hh).
  exists k. split; [exact Hk|].
  destruct (Hh Hp) as (Hw & Hd & _).
  destruct k as [[kx ky kw kh] kt]. unfold rdown in Hd.
  cbn [corridor_rect rx ry rwidth rheight] in *.
  change (kx = 3) in Hx. change (ky = 3) in Hy. change (kw = 2) in Hw.
  change (ky + kh = 6) in Hd.
  f_equal; lia.
Defined.
